(** * imger: chunked, content-addressed image store (src/main.ts)

    A shallow embedding of the Deno server in [src/main.ts]: the chunk
    arithmetic of the upload and read loops, the key-value store and the
    in-memory cache as an explicit world, and the two request handlers as
    programs whose awaited operations are the atomic steps. *)

From Stdlib.Init Require Import Byte.
From Stdlib Require Import Ascii.
From stdpp Require Import gmap strings list fin_maps pretty.


(** ** Bytes and typed arrays *)

(** A [Uint8Array] is the list of its bytes; [byteLength] is [length]. *)
Abbreviation bytes := (list byte).

(** [Math.ceil(size / chunkSize)] for a positive [chunkSize]: the quotient,
    rounded up when the division leaves a remainder. (For sizes below 2^53
    the double division of the source is exact enough for [Math.ceil] to
    return this integer; a zero [chunkSize] gives [Infinity] or [NaN] in the
    source and is outside the model.) *)
Definition ceil_div (size chunkSize : nat) : nat :=
  if size mod chunkSize =? 0 then size / chunkSize else S (size / chunkSize).

(** [array.slice(start, end_)] for [0 <= start]: both bounds are clamped to
    the length, an empty array results when [end_ <= start]. *)
Definition slice (array : bytes) (start end_ : nat) : bytes :=
  take (end_ - start) (drop start array).

(** The body of the chunk loop of [uploadHandler] (lines 94-96 and 134-136):
    the bytes that iteration [i] stores. *)
Definition chunkAt (chunkSize : nat) (imageBytes : bytes) (i : nat) : bytes :=
  let start := i * chunkSize in
  let end_ := Nat.min (start + chunkSize) (length imageBytes) in
  slice imageBytes start end_.

(** All chunks of a payload, in the order the loop writes them. *)
Definition splitChunks (chunkSize : nat) (imageBytes : bytes) : list bytes :=
  chunkAt chunkSize imageBytes <$> seq 0 (ceil_div (length imageBytes) chunkSize).

(** [target.set(source, offset)] on a [Uint8Array]: a [RangeError] ([None])
    when the source does not fit at that offset, the overwritten target
    otherwise. *)
Definition typed_set (target source : bytes) (offset : nat) : option bytes :=
  if length target <? offset + length source then None
  else Some (take offset target ++ source ++ drop (offset + length source) target).

(** The reassembly loop of [serveImage] (lines 203-207). *)
Fixpoint joinLoop (fullImage : bytes) (offset : nat) (chunks : list bytes)
  : option bytes :=
  match chunks with
  | [] => Some fullImage
  | chunk :: rest =>
      match typed_set fullImage chunk offset with
      | None => None
      | Some fullImage' => joinLoop fullImage' (offset + length chunk) rest
      end
  end.

(** Lines 202-207: a zero-filled buffer of [size] bytes, then the loop. *)
Definition joinChunks (chunks : list bytes) (size : nat) : option bytes :=
  joinLoop (replicate size "000"%byte) 0 chunks.

(** [KV_CHUNK_SIZE] of the source (line 5). The definitions below take the
    chunk size as an argument; the server runs them at this value. *)
Definition KV_CHUNK_SIZE : nat := 50 * 1024.

(** ** Strings *)

(** [s.split(sep)] for a one-character separator: always at least one
    segment, empty segments kept. *)
Fixpoint split_on (sep : ascii) (s : string) : list string :=
  match s with
  | EmptyString => [EmptyString]
  | String c s' =>
      if Ascii.eqb c sep then EmptyString :: split_on sep s'
      else match split_on sep s' with
           | [] => [String c EmptyString]
           | part :: parts => String c part :: parts
           end
  end.

(** Truthiness of a string value: the empty string is falsy. *)
Definition truthy (s : string) : bool := negb (String.eqb s "").

(** Lines 104-105 and 144-145: [fileNameParts.length > 1 ? fileNameParts.pop() : ''] *)
Definition fileExtensionOf (fileName : string) : string :=
  let fileNameParts := split_on "."%char fileName in
  if 1 <? length fileNameParts then List.last fileNameParts "" else "".

(** Lines 106 and 146. *)
Definition imageUrlOf (origin imageId fileName : string) : string :=
  let fileExtension := fileExtensionOf fileName in
  origin +:+ "/image/" +:+ imageId
    +:+ (if truthy fileExtension then "." +:+ fileExtension else "").

(** Line 64, the URL of the branch that finds a completed image. *)
Definition existingUrlOf (origin existingImageId : string) : string :=
  origin +:+ "/image/" +:+ existingImageId.

(** ** Data model *)

(** [interface ImageMeta] (lines 13-21). *)
Record ImageMeta := mkImageMeta {
  meta_name : string;
  meta_type : string;
  meta_size : nat;
  meta_chunks : nat;
  meta_uploadedAt : nat;
  meta_md5 : string;
  meta_completed : bool;
}.

(** [{ ...imageMeta, completed: true }] *)
Definition mark_completed (m : ImageMeta) : ImageMeta :=
  mkImageMeta (meta_name m) (meta_type m) (meta_size m) (meta_chunks m)
    (meta_uploadedAt m) (meta_md5 m) true.

(** A [File] of the form data: name, MIME type and content. *)
Record File := mkFile {
  file_name : string;
  file_type : string;
  file_bytes : bytes;
}.

(** An entry of [formData.getAll("file")]: a plain string or a file. *)
Inductive FormDataEntry :=
| FormString (value : string)
| FormFile (file : File).

(** An element of [results] (line 41). *)
Record ResultEntry := mkResult {
  res_name : string;
  res_url : option string;
  res_error : option string;
  res_status : string;
}.

Inductive Body :=
| BodyText (text : string)
| BodyJson (results : list ResultEntry)
| BodyBytes (image : bytes).

(** A [Response]: status (200 unless given), the [Content-Type] header when
    the source sets one, and the body. *)
Record Response := mkResponse {
  resp_status : nat;
  resp_content_type : option string;
  resp_body : Body;
}.

(** What the handlers see of a [Request]: [request.formData()] may throw
    ([None]); [req_files] is [formData.getAll("file")]. *)
Record Request := mkRequest {
  req_origin : string;
  req_files : option (list FormDataEntry);
}.

(** ** The world: Deno KV, the cache, and the environment

    The three key spaces of the store, [["images", id, "meta"]],
    [["images", id, "chunk", i]] and [["md5_to_id", md5]], are three maps.
    [timers] holds the image ids whose [cache.delete] is pending.
    [faults] is what the store will do to the next operations: [Some e]
    makes the next operation throw [e], [None] lets it through, and an
    exhausted list means no further failure. *)
Record World := mkWorld {
  kv_meta : gmap string ImageMeta;
  kv_chunk : gmap (string * nat) bytes;
  kv_md5 : gmap string string;
  cache : gmap string bytes;
  timers : list string;
  faults : list (option string);
  uuid_next : nat;
  clock : nat;
}.

Definition with_kv_meta (f : gmap string ImageMeta → gmap string ImageMeta) (w : World) :=
  mkWorld (f (kv_meta w)) (kv_chunk w) (kv_md5 w) (cache w) (timers w) (faults w)
    (uuid_next w) (clock w).
Definition with_kv_chunk (f : gmap (string * nat) bytes → gmap (string * nat) bytes) (w : World) :=
  mkWorld (kv_meta w) (f (kv_chunk w)) (kv_md5 w) (cache w) (timers w) (faults w)
    (uuid_next w) (clock w).
Definition with_kv_md5 (f : gmap string string → gmap string string) (w : World) :=
  mkWorld (kv_meta w) (kv_chunk w) (f (kv_md5 w)) (cache w) (timers w) (faults w)
    (uuid_next w) (clock w).
Definition with_cache (f : gmap string bytes → gmap string bytes) (w : World) :=
  mkWorld (kv_meta w) (kv_chunk w) (kv_md5 w) (f (cache w)) (timers w) (faults w)
    (uuid_next w) (clock w).
Definition with_timers (f : list string → list string) (w : World) :=
  mkWorld (kv_meta w) (kv_chunk w) (kv_md5 w) (cache w) (f (timers w)) (faults w)
    (uuid_next w) (clock w).
Definition with_faults (fs : list (option string)) (w : World) :=
  mkWorld (kv_meta w) (kv_chunk w) (kv_md5 w) (cache w) (timers w) fs
    (uuid_next w) (clock w).
Definition with_uuid_next (n : nat) (w : World) :=
  mkWorld (kv_meta w) (kv_chunk w) (kv_md5 w) (cache w) (timers w) (faults w)
    n (clock w).

Definition with_clock (now : nat) (w : World) :=
  mkWorld (kv_meta w) (kv_chunk w) (kv_md5 w) (cache w) (timers w) (faults w)
    (uuid_next w) now.

(** The server at start-up with an empty database, at time [now]. *)
Definition initial_world (now : nat) : World :=
  mkWorld ∅ ∅ ∅ ∅ [] [] 0 now.

(** ** Operations and programs *)

(** A [set] queued on [kv.atomic()]. *)
Inductive Mutation :=
| MutMeta (imageId : string) (imageMeta : ImageMeta)
| MutMd5 (md5Hash imageId : string).

(** The operations a handler performs on the world, indexed by the type of
    their answer. The [Kv] ones are the awaited calls on [kv]. *)
Inductive Op : Type → Type :=
| CacheGet (imageId : string) : Op (option bytes)
| CacheSet (imageId : string) (image : bytes) : Op unit
| SetTimeout (imageId : string) : Op unit
| RandomUUID : Op string
| DateNow : Op nat
| KvGetMd5 (md5Hash : string) : Op (option string)
| KvGetMeta (imageId : string) : Op (option ImageMeta)
| KvGetChunk (imageId : string) (i : nat) : Op (option bytes)
| KvSetChunk (imageId : string) (i : nat) (chunk : bytes) : Op unit
| KvSetMeta (imageId : string) (imageMeta : ImageMeta) : Op unit
| KvCommit (sets : list Mutation) : Op unit.

Definition is_kv {X} (op : Op X) : bool :=
  match op with
  | CacheGet _ | CacheSet _ _ | SetTimeout _ | RandomUUID | DateNow => false
  | _ => true
  end.

(** A handler: it returns, throws, or performs an operation and continues
    with its answer or with the error the operation threw. *)
Inductive Prog (A : Type) : Type :=
| Ret (a : A)
| Throw (e : string)
| Vis {X : Type} (op : Op X) (k : X + string → Prog A).
Arguments Ret {A} a.
Arguments Throw {A} e.
Arguments Vis {A X} op k.

Fixpoint bind {A B} (p : Prog A) (f : A → Prog B) : Prog B :=
  match p with
  | Ret a => f a
  | Throw e => Throw e
  | Vis op k => Vis op (λ r, bind (k r) f)
  end.

#[global] Instance Prog_ret : MRet Prog := @Ret.
#[global] Instance Prog_bind : MBind Prog := λ A B f p, bind p f.

(** [try { p } catch (error) { handler(error.message) }] *)
Fixpoint try_catch {A} (p : Prog A) (handler : string → Prog A) : Prog A :=
  match p with
  | Ret a => Ret a
  | Throw e => handler e
  | Vis op k => Vis op (λ r, try_catch (k r) handler)
  end.

(** [await op]: the answer, or the exception rethrown. *)
Definition await {X} (op : Op X) : Prog X :=
  Vis op (λ r, match r with inl x => Ret x | inr e => Throw e end).

(** [for (let i = start; ...; i++) body(i)], [count] iterations. *)
Fixpoint for_range (start count : nat) (body : nat → Prog unit) : Prog unit :=
  match count with
  | 0 => Ret tt
  | S count' => body start;; for_range (S start) count' body
  end.

(** An operation that was performed, with its answer. *)
Inductive Event :=
| Ev {X : Type} (op : Op X) (answer : X + string).

(** The writes to the store, as they appear in a log. *)
Inductive StoreWrite :=
| WCommit (sets : list Mutation)
| WSetChunk (imageId : string) (i : nat) (chunk : bytes)
| WSetMeta (imageId : string) (imageMeta : ImageMeta).

Definition write_of (ev : Event) : option StoreWrite :=
  match ev with
  | Ev (KvCommit sets) (inl _) => Some (WCommit sets)
  | Ev (KvSetChunk imageId i chunk) (inl _) => Some (WSetChunk imageId i chunk)
  | Ev (KvSetMeta imageId imageMeta) (inl _) => Some (WSetMeta imageId imageMeta)
  | _ => None
  end.

(** The chunk records a log reads, in order. *)
Definition chunk_read_of (ev : Event) : option (string * nat) :=
  match ev with
  | Ev (KvGetChunk imageId i) (inl _) => Some (imageId, i)
  | _ => None
  end.

(** The outcome of running a handler to its end: what it returned or threw,
    the world it left, and every operation it performed paired with the
    world in which it was performed. *)
Record Run (A : Type) := mkRun {
  result : A + string;
  final : World;
  log : list (Event * World);
}.
Arguments mkRun {A} result final log.
Arguments result {A} r.
Arguments final {A} r.
Arguments log {A} r.

Definition writes {A} (r : Run A) : list StoreWrite := omap (λ e, write_of e.1) (log r).
Definition chunk_reads {A} (r : Run A) : list (string * nat) :=
  omap (λ e, chunk_read_of e.1) (log r).

Section Server.
(** [calculateMd5] (lines 24-29) is the MD5 of the standard library, taken
    as a function of the bytes. [randomUUID n] is what the [n]-th call of
    [crypto.randomUUID()] returns. [chunkSize] stands for [KV_CHUNK_SIZE]. *)
Variable calculateMd5 : bytes → string.
Variable randomUUID : nat → string.
Variable chunkSize : nat.

(** *** Semantics of the operations *)

Definition apply_mutation (w : World) (m : Mutation) : World :=
  match m with
  | MutMeta imageId imageMeta => with_kv_meta <[imageId := imageMeta]> w
  | MutMd5 md5Hash imageId => with_kv_md5 <[md5Hash := imageId]> w
  end.

(** The effect and the answer of an operation that goes through. An atomic
    commit applies all its sets in one step. *)
Definition apply_op {X} (op : Op X) (w : World) : X * World :=
  match op in Op X return X * World with
  | CacheGet imageId => (cache w !! imageId, w)
  | CacheSet imageId image => (tt, with_cache <[imageId := image]> w)
  | SetTimeout imageId => (tt, with_timers (λ ts, ts ++ [imageId]) w)
  | RandomUUID => (randomUUID (uuid_next w), with_uuid_next (S (uuid_next w)) w)
  | DateNow => (clock w, w)
  | KvGetMd5 md5Hash => (kv_md5 w !! md5Hash, w)
  | KvGetMeta imageId => (kv_meta w !! imageId, w)
  | KvGetChunk imageId i => (kv_chunk w !! (imageId, i), w)
  | KvSetChunk imageId i chunk => (tt, with_kv_chunk <[(imageId, i) := chunk]> w)
  | KvSetMeta imageId imageMeta => (tt, with_kv_meta <[imageId := imageMeta]> w)
  | KvCommit sets => (tt, foldl apply_mutation w sets)
  end.

Definition answer_of {X} (op : Op X) (w : World) : (X + string) * World :=
  let '(x, w') := apply_op op w in (inl x, w').

(** One operation against the world. A store operation first consults
    [faults]; a failing operation throws and changes nothing else. *)
Definition perform {X} (op : Op X) (w : World) : (X + string) * World :=
  if is_kv op then
    match faults w with
    | Some e :: rest => (inr e, with_faults rest w)
    | None :: rest => answer_of op (with_faults rest w)
    | [] => answer_of op w
    end
  else answer_of op w.

(** One atomic step of a handler: its next operation, if any. *)
Definition step {A} (p : Prog A) (w : World) : Prog A * World :=
  match p with
  | Vis op k => let '(r, w') := perform op w in (k r, w')
  | _ => (p, w)
  end.

Fixpoint exec {A} (p : Prog A) (w : World) : Run A :=
  match p with
  | Ret a => mkRun (inl a) w []
  | Throw e => mkRun (inr e) w []
  | Vis op k =>
      let '(r, w') := perform op w in
      let rest := exec (k r) w' in
      mkRun (result rest) (final rest) ((Ev op r, w) :: log rest)
  end.

(** Two handlers running concurrently: the schedule says which of the two
    takes the next step. *)
Fixpoint interleave {A} (schedule : list bool) (pa pb : Prog A) (w : World)
  : Prog A * Prog A * World :=
  match schedule with
  | [] => (pa, pb, w)
  | true :: schedule' =>
      let '(pa', w') := step pa w in interleave schedule' pa' pb w'
  | false :: schedule' =>
      let '(pb', w') := step pb w in interleave schedule' pa pb' w'
  end.

(** The timer of line 212 fires: [cache.delete(imageId)]. *)
Definition fire_timer (imageId : string) (w : World) : World :=
  with_cache (delete imageId) w.

(** *** uploadHandler *)

(** Lines 73-107 and 111-147: the two storing branches differ only in the
    [md5_to_id] set of the atomic commit and in the reported status. *)
Definition storeImage (origin : string) (file : File) (imageId md5Hash : string)
    (isNew : bool) : Prog ResultEntry :=
  let imageBytes := file_bytes file in
  now ← await DateNow;
  let imageMeta :=
    mkImageMeta (file_name file) (file_type file) (length imageBytes)
      (ceil_div (length imageBytes) chunkSize) now md5Hash false in
  await (KvCommit (MutMeta imageId imageMeta
                   :: (if isNew then [MutMd5 md5Hash imageId] else [])));;
  for_range 0 (meta_chunks imageMeta) (λ i,
    await (KvSetChunk imageId i (chunkAt chunkSize imageBytes i)));;
  await (KvSetMeta imageId (mark_completed imageMeta));;
  Ret (mkResult (file_name file)
         (Some (imageUrlOf origin imageId (file_name file))) None
         (if isNew then "uploaded" else "overwritten")).

(** Lines 51-148, the body of the per-file [try]. *)
Definition processFile (origin : string) (file : File) : Prog ResultEntry :=
  let imageBytes := file_bytes file in
  let md5Hash := calculateMd5 imageBytes in
  let storeNew : Prog ResultEntry :=
    imageId ← await RandomUUID; storeImage origin file imageId md5Hash true in
  existingImageEntry ← await (KvGetMd5 md5Hash);
  match existingImageEntry with
  | Some existingImageId =>
      if truthy existingImageId then
        existingMetaEntry ← await (KvGetMeta existingImageId);
        match existingMetaEntry with
        | Some existingMeta =>
            if meta_completed existingMeta then
              Ret (mkResult (file_name file)
                     (Some (existingUrlOf origin existingImageId)) None "cached")
            else storeImage origin file existingImageId md5Hash false
        | None => storeImage origin file existingImageId md5Hash false
        end
      else storeNew
  | None => storeNew
  end.

(** Lines 45-153, one iteration of the loop over [files]. *)
Definition processEntry (origin : string) (entry : FormDataEntry) : Prog ResultEntry :=
  match entry with
  | FormString _ => Ret (mkResult "unknown" None (Some "Invalid file data") "error")
  | FormFile file =>
      try_catch (processFile origin file)
        (λ message, Ret (mkResult (file_name file) None (Some message) "error"))
  end.

Fixpoint uploadLoop (origin : string) (files : list FormDataEntry)
    (results : list ResultEntry) : Prog (list ResultEntry) :=
  match files with
  | [] => Ret results
  | file :: rest =>
      r ← processEntry origin file;
      uploadLoop origin rest (results ++ [r])
  end.

Definition is_error (r : ResultEntry) : bool := String.eqb (res_status r) "error".

(** Lines 32-168. *)
Definition uploadHandler (request : Request) : Prog Response :=
  try_catch
    (match req_files request with
     | None => Throw "formData"
     | Some files =>
         if length files =? 0 then
           Ret (mkResponse 400 None (BodyText "No files uploaded"))
         else
           results ← uploadLoop (req_origin request) files [];
           let status := if existsb is_error results then 500 else 200 in
           Ret (mkResponse status (Some "application/json") (BodyJson results))
     end)
    (λ _, Ret (mkResponse 500 None (BodyText "Internal Server Error"))).

(** *** serveImage *)

Definition notFound : Response :=
  mkResponse 404 None (BodyText "Image not found or not yet completed").
Definition dataIncomplete : Response :=
  mkResponse 500 None (BodyText "Image data incomplete").
Definition internalError : Response :=
  mkResponse 500 None (BodyText "Internal Server Error").

(** Lines 192-200: the loop returns from the handler at the first missing
    chunk ([inl]), or leaves the collected chunks ([inr]). *)
Fixpoint fetchChunks (imageId : string) (i count : nat) (chunks : list bytes)
  : Prog (Response + list bytes) :=
  match count with
  | 0 => Ret (inr chunks)
  | S count' =>
      chunkEntry ← await (KvGetChunk imageId i);
      match chunkEntry with
      | None => Ret (inl dataIncomplete)
      | Some chunk => fetchChunks imageId (S i) count' (chunks ++ [chunk])
      end
  end.

(** Lines 184-220: the read from the store, after the cache. *)
Definition readImage (imageId : string) : Prog Response :=
  metaEntry ← await (KvGetMeta imageId);
  match metaEntry with
  | None => Ret notFound
  | Some imageMeta =>
      if negb (meta_completed imageMeta) then Ret notFound
      else
        fetched ← fetchChunks imageId 0 (meta_chunks imageMeta) [];
        match fetched with
        | inl response => Ret response
        | inr chunks =>
            match joinChunks chunks (meta_size imageMeta) with
            | None => Throw "RangeError"
            | Some fullImage =>
                await (CacheSet imageId fullImage);;
                await (SetTimeout imageId);;
                Ret (mkResponse 200 (Some (meta_type imageMeta)) (BodyBytes fullImage))
            end
        end
  end.

(** Lines 170-226. *)
Definition serveImage (imageId : string) : Prog Response :=
  try_catch
    (cachedImage ← await (CacheGet imageId);
     match cachedImage with
     | Some image =>
         meta ← await (KvGetMeta imageId);
         match meta with
         | Some imageMeta =>
             Ret (mkResponse 200 (Some (meta_type imageMeta)) (BodyBytes image))
         | None => readImage imageId
         end
     | None => readImage imageId
     end)
    (λ _, Ret internalError).
End Server.

(** ** Running programs: general facts *)

Section Exec.
Variable randomUUID : nat → string.

Abbreviation exec' := (exec randomUUID).
Abbreviation perform' := (perform randomUUID).

(** Sequencing of runs: the second starts in the world the first left. *)
Definition run_then {A B} (r : Run A) (f : A → World → Run B) : Run B :=
  match result r with
  | inl a =>
      let r' := f a (final r) in
      mkRun (result r') (final r') (log r ++ log r')
  | inr e => mkRun (inr e) (final r) (log r)
  end.

Definition run_catch {A} (r : Run A) (h : string → World → Run A) : Run A :=
  match result r with
  | inl a => r
  | inr e =>
      let r' := h e (final r) in
      mkRun (result r') (final r') (log r ++ log r')
  end.

Lemma exec_bind {A B} (p : Prog A) (f : A → Prog B) w :
  exec' (p ≫= f) w = run_then (exec' p w) (λ a w', exec' (f a) w').
Proof.
  revert w. induction p as [a|e|X op k IH]; intros w.
  - unfold run_then. simpl. by destruct (exec' (f a) w).
  - done.
  - change (exec' (Vis op k ≫= f) w)
      with (exec' (Vis op (λ r, k r ≫= f)) w).
    simpl. destruct (perform' op w) as [r w']. rewrite IH.
    unfold run_then. simpl. by destruct (result (exec' (k r) w')).
Qed.

Lemma exec_try_catch {A} (p : Prog A) (h : string → Prog A) w :
  exec' (try_catch p h) w = run_catch (exec' p w) (λ e w', exec' (h e) w').
Proof.
  revert w. induction p as [a|e|X op k IH]; intros w.
  - done.
  - unfold run_catch. simpl. by destruct (exec' (h e) w).
  - simpl. destruct (perform' op w) as [r w']. rewrite IH.
    unfold run_catch. simpl. destruct (result (exec' (k r) w')) eqn:E; [by rewrite E|done].
Qed.

Lemma exec_await {X} (op : Op X) w :
  exec' (await op) w =
    mkRun (perform' op w).1 (perform' op w).2 [(Ev op (perform' op w).1, w)].
Proof.
  unfold await. simpl. destruct (perform' op w) as [[x|e] w']; done.
Qed.

(** A world whose store does not fail any more. *)
Definition quiet (w : World) : Prop := faults w = [].

Lemma perform_quiet {X} (op : Op X) w :
  quiet w → perform' op w = (inl (apply_op randomUUID op w).1, (apply_op randomUUID op w).2).
Proof.
  intros Hq. unfold perform, answer_of. rewrite Hq.
  destruct (apply_op randomUUID op w). by destruct (is_kv op).
Qed.

Lemma faults_apply_op {X} (op : Op X) w :
  faults (apply_op randomUUID op w).2 = faults w.
Proof.
  destruct op; simpl; try done.
  revert w. induction sets as [|m sets IH]; intros w; [done|].
  simpl. rewrite IH. by destruct m.
Qed.

Lemma quiet_apply_op {X} (op : Op X) w :
  quiet w → quiet (apply_op randomUUID op w).2.
Proof. unfold quiet. by rewrite faults_apply_op. Qed.

Lemma exec_await_quiet {X} (op : Op X) w :
  quiet w →
  exec' (await op) w =
    mkRun (inl (apply_op randomUUID op w).1) (apply_op randomUUID op w).2
      [(Ev op (inl (apply_op randomUUID op w).1), w)].
Proof. intros Hq. by rewrite exec_await, perform_quiet. Qed.
End Exec.

(** ** The upload path on a store that does not fail *)

Section Upload.
Variable calculateMd5 : bytes → string.
Variable randomUUID : nat → string.
Variable chunkSize : nat.

Abbreviation run := (exec randomUUID).
Abbreviation storeImage' := (storeImage chunkSize).
Abbreviation processFile' := (processFile calculateMd5 chunkSize).

(** The metadata both storing branches build (lines 73-81, 112-120). *)
Definition new_meta (file : File) (md5Hash : string) (now : nat) : ImageMeta :=
  mkImageMeta (file_name file) (file_type file) (length (file_bytes file))
    (ceil_div (length (file_bytes file)) chunkSize) now md5Hash false.

Definition first_commit (file : File) (imageId md5Hash : string) (isNew : bool)
    (now : nat) : list Mutation :=
  MutMeta imageId (new_meta file md5Hash now)
  :: (if isNew then [MutMd5 md5Hash imageId] else []).

Definition stored_result (origin : string) (file : File) (imageId : string)
    (isNew : bool) : ResultEntry :=
  mkResult (file_name file) (Some (imageUrlOf origin imageId (file_name file)))
    None (if isNew then "uploaded" else "overwritten").

(** The world after [count] iterations of the chunk loop from [start]. *)
Fixpoint put_chunks (imageId : string) (imageBytes : bytes) (start count : nat)
    (w : World) : World :=
  match count with
  | 0 => w
  | S count' =>
      put_chunks imageId imageBytes (S start) count'
        (with_kv_chunk <[(imageId, start) := chunkAt chunkSize imageBytes start]> w)
  end.

Definition chunk_event (imageId : string) (imageBytes : bytes) (i : nat) : Event :=
  Ev (KvSetChunk imageId i (chunkAt chunkSize imageBytes i)) (inl tt).

Lemma put_chunks_frame imageId imageBytes count : ∀ start w,
  let w' := put_chunks imageId imageBytes start count w in
  kv_meta w' = kv_meta w ∧ kv_md5 w' = kv_md5 w ∧ cache w' = cache w
  ∧ timers w' = timers w ∧ faults w' = faults w ∧ uuid_next w' = uuid_next w
  ∧ clock w' = clock w.
Proof.
  induction count as [|count IH]; intros start w; simpl; [done|].
  specialize (IH (S start)
    (with_kv_chunk <[(imageId, start) := chunkAt chunkSize imageBytes start]> w)).
  simpl in IH. done.
Qed.

Lemma put_chunks_lookup imageId imageBytes count : ∀ start w key,
  kv_chunk (put_chunks imageId imageBytes start count w) !! key =
    if decide (key.1 = imageId ∧ start ≤ key.2 < start + count)
    then Some (chunkAt chunkSize imageBytes key.2)
    else kv_chunk w !! key.
Proof.
  induction count as [|count IH]; intros start w [id i]; simpl.
  - rewrite decide_False; [done|lia].
  - rewrite IH. simpl. rewrite lookup_insert.
    destruct (decide ((imageId, start) = (id, i))) as [[= <- <-]|Hne].
    + rewrite (decide_False (P := _ ∧ S start ≤ start < _)) by lia.
      assert (Hin : imageId = imageId ∧ start ≤ start < start + S count) by (split; [done|lia]).
      by rewrite (decide_True _ _ Hin).
    + simpl. destruct (decide (id = imageId ∧ S start ≤ i < S (start + count)))
        as [[-> ?]|Hn].
      * by rewrite decide_True by (split; [done|lia]).
      * rewrite decide_False; [done|]. intros [-> ?]. apply Hn. split; [done|].
        assert (i ≠ start) by congruence. lia.
Qed.

Lemma put_chunks_quiet imageId imageBytes start count w :
  quiet w → quiet (put_chunks imageId imageBytes start count w).
Proof.
  unfold quiet. intros Hq.
  by destruct (put_chunks_frame imageId imageBytes count start w)
    as (_ & _ & _ & _ & -> & _).
Qed.

(** The chunk loop of lines 93-98 and 133-138. *)
Lemma run_chunk_loop imageId imageBytes count : ∀ start w,
  quiet w →
  run (for_range start count (λ i,
         await (KvSetChunk imageId i (chunkAt chunkSize imageBytes i)))) w
  = mkRun (inl tt) (put_chunks imageId imageBytes start count w)
      ((λ i, (chunk_event imageId imageBytes i,
              put_chunks imageId imageBytes start (i - start) w))
         <$> seq start count).
Proof.
  induction count as [|count IH]; intros start w Hq; [done|].
  cbn [for_range]. rewrite exec_bind, exec_await_quiet by done.
  unfold run_then. cbn [result final log apply_op fst snd].
  rewrite IH by done. cbn [result final log put_chunks seq fmap list_fmap].
  rewrite Nat.sub_diag. cbn [put_chunks app]. do 2 f_equal.
  apply list_fmap_ext. intros k i Hi.
  apply lookup_seq in Hi as [-> _].
  replace (S start + k - start) with (S (S start + k - S start)) by lia.
  done.
Qed.

(** The worlds an upload that stores goes through: after the first commit,
    after the chunk loop, after the final metadata write. *)
Definition committed (file : File) (imageId md5Hash : string) (isNew : bool)
    (w : World) : World :=
  foldl apply_mutation w (first_commit file imageId md5Hash isNew (clock w)).

Definition chunks_stored (file : File) (imageId md5Hash : string) (isNew : bool)
    (w : World) : World :=
  put_chunks imageId (file_bytes file) 0
    (ceil_div (length (file_bytes file)) chunkSize)
    (committed file imageId md5Hash isNew w).

Definition stored (file : File) (imageId md5Hash : string) (isNew : bool)
    (w : World) : World :=
  with_kv_meta <[imageId := mark_completed (new_meta file md5Hash (clock w))]>
    (chunks_stored file imageId md5Hash isNew w).

Definition store_log (file : File) (imageId md5Hash : string) (isNew : bool)
    (w : World) : list (Event * World) :=
  let w1 := committed file imageId md5Hash isNew w in
  [(Ev DateNow (inl (clock w)), w);
   (Ev (KvCommit (first_commit file imageId md5Hash isNew (clock w))) (inl tt), w)]
  ++ ((λ i, (chunk_event imageId (file_bytes file) i,
             put_chunks imageId (file_bytes file) 0 (i - 0) w1))
        <$> seq 0 (ceil_div (length (file_bytes file)) chunkSize))
  ++ [(Ev (KvSetMeta imageId (mark_completed (new_meta file md5Hash (clock w))))
         (inl tt),
       chunks_stored file imageId md5Hash isNew w)].

Lemma quiet_committed file imageId md5Hash isNew w :
  quiet w → quiet (committed file imageId md5Hash isNew w).
Proof. unfold quiet, committed, first_commit. by destruct isNew. Qed.

Lemma run_storeImage origin file imageId md5Hash isNew w :
  quiet w →
  run (storeImage' origin file imageId md5Hash isNew) w
  = mkRun (inl (stored_result origin file imageId isNew))
      (stored file imageId md5Hash isNew w)
      (store_log file imageId md5Hash isNew w).
Proof.
  intros Hq. unfold storeImage.
  rewrite exec_bind, exec_await_quiet by done.
  unfold run_then. cbn [result final log apply_op fst snd].
  rewrite exec_bind, exec_await_quiet by done.
  unfold run_then. cbn [result final log apply_op fst snd].
  rewrite exec_bind. cbn [meta_chunks].
  rewrite run_chunk_loop by (by apply quiet_committed).
  unfold run_then. cbn [result final log].
  rewrite exec_bind, exec_await_quiet
    by (by apply put_chunks_quiet, quiet_committed).
  unfold run_then. cbn [result final log apply_op fst snd exec].
  reflexivity.
Qed.

(** What the two lookups of lines 55-62 decide. *)
Inductive Decision :=
| Reuse (existingImageId : string)
| Overwrite (existingImageId : string)
| Create.

Definition decide_upload (w : World) (md5Hash : string) : Decision :=
  match kv_md5 w !! md5Hash with
  | Some existingImageId =>
      if truthy existingImageId then
        match kv_meta w !! existingImageId with
        | Some existingMeta =>
            if meta_completed existingMeta then Reuse existingImageId
            else Overwrite existingImageId
        | None => Overwrite existingImageId
        end
      else Create
  | None => Create
  end.

Definition cached_result (origin : string) (file : File) (imageId : string)
  : ResultEntry :=
  mkResult (file_name file) (Some (existingUrlOf origin imageId)) None "cached".

Definition drew_uuid (w : World) : World := with_uuid_next (S (uuid_next w)) w.

Lemma run_processFile origin file w :
  quiet w →
  let md5Hash := calculateMd5 (file_bytes file) in
  let lookup := (Ev (KvGetMd5 md5Hash) (inl (kv_md5 w !! md5Hash)), w) in
  run (processFile' origin file) w =
    match decide_upload w md5Hash with
    | Reuse imageId =>
        mkRun (inl (cached_result origin file imageId)) w
          [lookup; (Ev (KvGetMeta imageId) (inl (kv_meta w !! imageId)), w)]
    | Overwrite imageId =>
        mkRun (inl (stored_result origin file imageId false))
          (stored file imageId md5Hash false w)
          (lookup :: (Ev (KvGetMeta imageId) (inl (kv_meta w !! imageId)), w)
           :: store_log file imageId md5Hash false w)
    | Create =>
        let imageId := randomUUID (uuid_next w) in
        mkRun (inl (stored_result origin file imageId true))
          (stored file imageId md5Hash true (drew_uuid w))
          (lookup :: (Ev RandomUUID (inl imageId), w)
           :: store_log file imageId md5Hash true (drew_uuid w))
    end.
Proof.
  intros Hq md5Hash lookup. unfold processFile, decide_upload.
  rewrite exec_bind, exec_await_quiet by done.
  unfold run_then. cbn [result final log apply_op fst snd].
  fold md5Hash.
  assert (Hnew : run (imageId ← await RandomUUID;
                       storeImage' origin file imageId md5Hash true) w
    = mkRun (inl (stored_result origin file (randomUUID (uuid_next w)) true))
        (stored file (randomUUID (uuid_next w)) md5Hash true (drew_uuid w))
        ((Ev RandomUUID (inl (randomUUID (uuid_next w))), w)
         :: store_log file (randomUUID (uuid_next w)) md5Hash true (drew_uuid w))).
  { rewrite exec_bind, exec_await_quiet by done.
    unfold run_then. cbn [result final log apply_op fst snd].
    by rewrite run_storeImage. }
  destruct (kv_md5 w !! md5Hash) as [existingImageId|] eqn:Hidx;
    [|by rewrite Hnew].
  destruct (truthy existingImageId); [|by rewrite Hnew].
  rewrite exec_bind, exec_await_quiet by done.
  unfold run_then. cbn [result final log apply_op fst snd].
  destruct (kv_meta w !! existingImageId) as [existingMeta|] eqn:Hmeta.
  - destruct (meta_completed existingMeta).
    + cbn [exec result final log app]. by rewrite Hmeta.
    + rewrite run_storeImage by done. cbn [result final log app]. by rewrite Hmeta.
  - rewrite run_storeImage by done. cbn [result final log app]. by rewrite Hmeta.
Qed.
End Upload.

(** ** The read path on a store that does not fail *)

Section Read.
Variable randomUUID : nat → string.

Abbreviation run := (exec randomUUID).

(** The chunk records [start .. start + count - 1] of an image, when all
    of them are in the store. *)
Fixpoint stored_chunks (w : World) (imageId : string) (start count : nat)
  : option (list bytes) :=
  match count with
  | 0 => Some []
  | S count' =>
      match kv_chunk w !! (imageId, start) with
      | None => None
      | Some chunk => (chunk ::.) <$> stored_chunks w imageId (S start) count'
      end
  end.

(** The lookups of the fetch loop: it stops after the first missing one. *)
Fixpoint fetch_log (w : World) (imageId : string) (start count : nat)
  : list (Event * World) :=
  match count with
  | 0 => []
  | S count' =>
      (Ev (KvGetChunk imageId start) (inl (kv_chunk w !! (imageId, start))), w)
      :: match kv_chunk w !! (imageId, start) with
         | None => []
         | Some _ => fetch_log w imageId (S start) count'
         end
  end.

Lemma run_fetchChunks imageId count : ∀ start chunks w,
  quiet w →
  run (fetchChunks imageId start count chunks) w
  = mkRun (inl (match stored_chunks w imageId start count with
                | Some found => inr (chunks ++ found)
                | None => inl dataIncomplete
                end))
      w (fetch_log w imageId start count).
Proof.
  induction count as [|count IH]; intros start chunks w Hq.
  - simpl. by rewrite app_nil_r.
  - cbn [fetchChunks]. rewrite exec_bind, exec_await_quiet by done.
    unfold run_then. cbn [result final log apply_op fst snd stored_chunks fetch_log].
    destruct (kv_chunk w !! (imageId, start)) as [chunk|]; [|done].
    rewrite IH by done. cbn [result final log app].
    destruct (stored_chunks w imageId (S start) count) as [found|]; [|done].
    simpl. by rewrite <- app_assoc.
Qed.

(** The world after a read from the store has filled the cache. *)
Definition cached_in (imageId : string) (fullImage : bytes) (w : World) : World :=
  with_timers (λ ts, ts ++ [imageId]) (with_cache <[imageId := fullImage]> w).

Definition served (imageMeta : ImageMeta) (image : bytes) : Response :=
  mkResponse 200 (Some (meta_type imageMeta)) (BodyBytes image).

Definition meta_event (w : World) (imageId : string) : Event * World :=
  (Ev (KvGetMeta imageId) (inl (kv_meta w !! imageId)), w).

(** [readImage] in closed form. *)
Definition read_run (w : World) (imageId : string) : Run Response :=
  match kv_meta w !! imageId with
  | None => mkRun (inl notFound) w [meta_event w imageId]
  | Some imageMeta =>
      if negb (meta_completed imageMeta) then
        mkRun (inl notFound) w [meta_event w imageId]
      else
        let gets := fetch_log w imageId 0 (meta_chunks imageMeta) in
        match stored_chunks w imageId 0 (meta_chunks imageMeta) with
        | None => mkRun (inl dataIncomplete) w (meta_event w imageId :: gets)
        | Some chunks =>
            match joinChunks chunks (meta_size imageMeta) with
            | None => mkRun (inr "RangeError") w (meta_event w imageId :: gets)
            | Some fullImage =>
                mkRun (inl (served imageMeta fullImage))
                  (cached_in imageId fullImage w)
                  (meta_event w imageId :: gets
                   ++ [(Ev (CacheSet imageId fullImage) (inl tt), w);
                       (Ev (SetTimeout imageId) (inl tt),
                        with_cache <[imageId := fullImage]> w)])
            end
        end
  end.

Lemma run_readImage imageId w :
  quiet w → run (readImage imageId) w = read_run w imageId.
Proof.
  intros Hq. unfold readImage, read_run, meta_event.
  rewrite exec_bind, exec_await_quiet by done.
  unfold run_then. cbn [result final log apply_op fst snd].
  destruct (kv_meta w !! imageId) as [imageMeta|]; [|done].
  destruct (meta_completed imageMeta); [|done]. cbn [negb].
  rewrite exec_bind, run_fetchChunks by done.
  unfold run_then. cbn [result final log app].
  destruct (stored_chunks w imageId 0 (meta_chunks imageMeta)) as [chunks|];
    [|by rewrite app_nil_r].
  cbn [app]. destruct (joinChunks chunks (meta_size imageMeta)) as [fullImage|];
    [|by rewrite app_nil_r].
  rewrite exec_bind, exec_await_quiet by done.
  unfold run_then. cbn [result final log apply_op fst snd].
  rewrite exec_bind, exec_await_quiet by done.
  reflexivity.
Qed.

(** [serveImage] in closed form: the cache answers when it holds the image
    and the metadata record exists; otherwise the store is read, and what
    the read throws becomes the 500 of the outer [catch]. *)
Definition caught (r : Run Response) : Run Response :=
  match result r with
  | inl _ => r
  | inr _ => mkRun (inl internalError) (final r) (log r)
  end.

Definition prepend {A} (evs : list (Event * World)) (r : Run A) : Run A :=
  mkRun (result r) (final r) (evs ++ log r).

Definition serve_run (w : World) (imageId : string) : Run Response :=
  let look := (Ev (CacheGet imageId) (inl (cache w !! imageId)), w) in
  match cache w !! imageId with
  | Some image =>
      match kv_meta w !! imageId with
      | Some imageMeta =>
          mkRun (inl (served imageMeta image)) w [look; meta_event w imageId]
      | None =>
          prepend [look; meta_event w imageId] (caught (read_run w imageId))
      end
  | None => prepend [look] (caught (read_run w imageId))
  end.

Lemma run_serveImage imageId w :
  quiet w → run (serveImage imageId) w = serve_run w imageId.
Proof.
  intros Hq. unfold serveImage, serve_run, meta_event.
  rewrite exec_try_catch, exec_bind, exec_await_quiet by done.
  unfold run_then. cbn [result final log apply_op fst snd].
  destruct (cache w !! imageId) as [image|].
  - rewrite exec_bind, exec_await_quiet by done.
    unfold run_then. cbn [result final log apply_op fst snd].
    destruct (kv_meta w !! imageId) as [imageMeta|] eqn:Hmeta; [done|].
    rewrite run_readImage by done. unfold run_catch, caught, prepend.
    cbn [result final log]. destruct (result (read_run w imageId)) eqn:E;
      cbn [exec result final log]; by rewrite ?E, ?app_nil_r.
  - rewrite run_readImage by done. unfold run_catch, caught, prepend.
    cbn [result final log]. destruct (result (read_run w imageId)) eqn:E;
      cbn [exec result final log]; by rewrite ?E, ?app_nil_r.
Qed.
End Read.

(** ** The chunk codec *)

Section Codec.
Variable chunkSize : nat.
Hypothesis chunkSize_pos : 1 ≤ chunkSize.

Lemma ceil_div_bounds size :
  size ≤ ceil_div size chunkSize * chunkSize
  ∧ (0 < size → (ceil_div size chunkSize - 1) * chunkSize < size).
Proof.
  unfold ceil_div.
  pose proof (Nat.div_mod_eq size chunkSize) as Hdm.
  pose proof (Nat.mod_upper_bound size chunkSize ltac:(lia)) as Hlt.
  destruct (Nat.eqb_spec (size mod chunkSize) 0) as [Hz|Hnz].
  - split; [nia|]. intros Hpos.
    assert (0 < size / chunkSize) by (destruct (size / chunkSize); [lia|lia]).
    nia.
  - split; [nia|]. intros _. simpl. rewrite Nat.sub_0_r. nia.
Qed.

Lemma ceil_div_0 : ceil_div 0 chunkSize = 0.
Proof.
  unfold ceil_div. rewrite Nat.Div0.mod_0_l, Nat.Div0.div_0_l. done.
Qed.

Lemma length_chunkAt imageBytes i :
  length (chunkAt chunkSize imageBytes i)
  = Nat.min (i * chunkSize + chunkSize) (length imageBytes) - i * chunkSize.
Proof. unfold chunkAt, slice. rewrite length_take, length_drop. lia. Qed.

Lemma concat_chunks_prefix imageBytes k :
  concat (chunkAt chunkSize imageBytes <$> seq 0 k) = take (k * chunkSize) imageBytes.
Proof.
  induction k as [|k IH]; [done|].
  rewrite seq_S, fmap_app, concat_app, IH. simpl. rewrite app_nil_r.
  unfold chunkAt, slice.
  replace (chunkSize + k * chunkSize) with (k * chunkSize + chunkSize) by lia.
  rewrite <- take_take_drop. f_equal.
  destruct (decide (k * chunkSize + chunkSize ≤ length imageBytes)).
  - f_equal. lia.
  - rewrite !take_ge; [done| |]; rewrite length_drop; lia.
Qed.

Lemma concat_splitChunks imageBytes :
  concat (splitChunks chunkSize imageBytes) = imageBytes.
Proof.
  unfold splitChunks. rewrite concat_chunks_prefix.
  apply take_ge. apply ceil_div_bounds.
Qed.

Lemma length_splitChunks imageBytes :
  length (splitChunks chunkSize imageBytes) = ceil_div (length imageBytes) chunkSize.
Proof. unfold splitChunks. by rewrite length_fmap, length_seq. Qed.

Lemma splitChunks_lookup imageBytes i chunk :
  splitChunks chunkSize imageBytes !! i = Some chunk →
  i < ceil_div (length imageBytes) chunkSize ∧ chunk = chunkAt chunkSize imageBytes i.
Proof.
  unfold splitChunks. rewrite list_lookup_fmap. intros Hi.
  destruct (seq 0 (ceil_div (length imageBytes) chunkSize) !! i) as [j|] eqn:Hj;
    [|done].
  apply lookup_seq in Hj as [-> ?]. simpl in Hi. by injection Hi as <-.
Qed.

Lemma length_inner_chunk imageBytes i :
  S i < ceil_div (length imageBytes) chunkSize →
  length (chunkAt chunkSize imageBytes i) = chunkSize.
Proof.
  intros Hi. rewrite length_chunkAt.
  destruct (ceil_div_bounds (length imageBytes)) as [_ Hlow].
  assert (0 < length imageBytes).
  { destruct (length imageBytes); [|lia]. rewrite ceil_div_0 in Hi. lia. }
  specialize (Hlow ltac:(done)). nia.
Qed.

Lemma length_last_chunk imageBytes :
  0 < length imageBytes →
  length (chunkAt chunkSize imageBytes (ceil_div (length imageBytes) chunkSize - 1))
  = if length imageBytes mod chunkSize =? 0 then chunkSize
    else length imageBytes mod chunkSize.
Proof.
  intros Hpos. rewrite length_chunkAt. unfold ceil_div.
  pose proof (Nat.div_mod_eq (length imageBytes) chunkSize) as Hdm.
  pose proof (Nat.mod_upper_bound (length imageBytes) chunkSize ltac:(lia)) as Hlt.
  destruct (Nat.eqb_spec (length imageBytes mod chunkSize) 0) as [Hz|Hnz].
  - assert (0 < length imageBytes / chunkSize)
      by (destruct (length imageBytes / chunkSize); lia).
    nia.
  - simpl. rewrite Nat.sub_0_r. nia.
Qed.
End Codec.

Lemma joinLoop_spec chunks : ∀ fullImage offset,
  joinLoop fullImage offset chunks =
    if length fullImage <? offset + length (concat chunks)
    then (if decide (chunks = []) then Some fullImage else None)
    else Some (take offset fullImage ++ concat chunks
               ++ drop (offset + length (concat chunks)) fullImage).
Proof.
  induction chunks as [|chunk rest IH]; intros fullImage offset; simpl.
  - rewrite Nat.add_0_r. destruct (Nat.ltb_spec (length fullImage) offset).
    + done.
    + by rewrite take_drop.
  - unfold typed_set. rewrite length_app.
    destruct (Nat.ltb_spec (length fullImage) (offset + length chunk)) as [Hov|Hfit].
    + destruct (Nat.ltb_spec (length fullImage)
                  (offset + (length chunk + length (concat rest)))); [done|lia].
    + rewrite IH. rewrite !length_app, length_take, length_drop.
      replace (offset `min` length fullImage + (length chunk +
        (length fullImage - (offset + length chunk)))) with (length fullImage) by lia.
      replace (offset + length chunk + length (concat rest))
        with (offset + (length chunk + length (concat rest))) by lia.
      destruct (Nat.ltb_spec (length fullImage)
                  (offset + (length chunk + length (concat rest)))) as [Hov|Hfit'].
      * destruct rest; [simpl in Hov; lia|]. by rewrite decide_False.
      * f_equal.
        rewrite take_app_ge by (rewrite length_take; lia).
        rewrite length_take, Nat.min_l by lia.
        rewrite take_app_ge by lia.
        replace (offset + length chunk - offset - length chunk) with 0 by lia.
        rewrite take_0, app_nil_r.
        rewrite <- !app_assoc. do 3 f_equal.
        rewrite drop_app_ge by (rewrite length_take; lia).
        rewrite length_take, Nat.min_l by lia.
        rewrite drop_app_ge by lia.
        rewrite drop_drop. f_equal. lia.
Qed.

Lemma joinChunks_spec chunks size :
  joinChunks chunks size =
    if size <? length (concat chunks)
    then (if decide (chunks = []) then Some (replicate size "000"%byte) else None)
    else Some (concat chunks ++ replicate (size - length (concat chunks)) "000"%byte).
Proof.
  unfold joinChunks. rewrite joinLoop_spec, length_replicate. simpl.
  destruct (Nat.ltb_spec size (length (concat chunks))); [done|].
  by rewrite drop_replicate.
Qed.

(** The chunk size the server runs with is positive, so what is proved
    below for every positive chunk size holds for the server. *)
Lemma KV_CHUNK_SIZE_pos : 1 ≤ KV_CHUNK_SIZE.
Proof. unfold KV_CHUNK_SIZE. apply (Nat.mul_le_mono 1 50 1 1024); lia. Qed.

Lemma joinChunks_splitChunks (chunkSize : nat) (payload : bytes) :
  1 ≤ chunkSize →
  joinChunks (splitChunks chunkSize payload) (length payload) = Some payload.
Proof.
  intros Hpos. rewrite joinChunks_spec, concat_splitChunks by done.
  rewrite Nat.ltb_irrefl, Nat.sub_diag. simpl. by rewrite app_nil_r.
Qed.

(** C2. Splitting a payload at a chunk size of at least one byte and joining
    the chunks, in index order, into a buffer of the payload's length gives
    the payload back. *)
Theorem C2_join_split_roundtrip (chunkSize : nat) (payload : bytes) :
  1 ≤ chunkSize →
  joinChunks (splitChunks chunkSize payload) (length payload) = Some payload.
Proof. apply joinChunks_splitChunks. Qed.

Lemma C2_join_split_roundtrip_witness :
  1 ≤ 2 ∧ joinChunks (splitChunks 2 ["a"; "b"; "c"; "d"; "e"]%byte) 5
          = Some ["a"; "b"; "c"; "d"; "e"]%byte.
Proof.
  split; [lia|].
  apply (C2_join_split_roundtrip 2 ["a"; "b"; "c"; "d"; "e"]%byte). lia.
Defined.

(** The claim of C6 as stated: a join that returns has consumed chunks whose
    concatenated length is the declared size. *)
Definition join_checks_length : Prop :=
  ∀ chunks size fullImage,
    joinChunks chunks size = Some fullImage → length (concat chunks) = size.

(** The join returns exactly when the chunks fit the declared size; what it
    returns has that size and is the concatenation of the chunks followed by
    the zero bytes of the untouched rest of the buffer. *)
Lemma joinChunks_outcome (chunks : list bytes) (size : nat) :
  match joinChunks chunks size with
  | Some fullImage =>
      length fullImage = size
      ∧ length (concat chunks) ≤ size
      ∧ fullImage = concat chunks
                    ++ replicate (size - length (concat chunks)) "000"%byte
  | None => size < length (concat chunks)
  end.
Proof.
  rewrite joinChunks_spec.
  destruct (Nat.ltb_spec size (length (concat chunks))) as [Hov|Hfit].
  - destruct chunks as [|chunk rest]; [simpl in Hov; lia|].
    by rewrite decide_False.
  - split_and!; [|done|done]. rewrite length_app, length_replicate. lia.
Qed.

(** ** Worlds an upload leaves behind *)

Section Stored.
Variable calculateMd5 : bytes → string.
Variable randomUUID : nat → string.
Variable chunkSize : nat.

Abbreviation run := (exec randomUUID).
Abbreviation processFile' := (processFile calculateMd5 chunkSize).
Abbreviation stored' := (stored chunkSize).
Abbreviation committed' := (committed chunkSize).
Abbreviation chunks_stored' := (chunks_stored chunkSize).
Abbreviation new_meta' := (new_meta chunkSize).

Lemma committed_fields file imageId md5Hash isNew w :
  let w' := committed' file imageId md5Hash isNew w in
  kv_meta w' = <[imageId := new_meta' file md5Hash (clock w)]> (kv_meta w)
  ∧ kv_md5 w' = (if isNew then <[md5Hash := imageId]> (kv_md5 w) else kv_md5 w)
  ∧ kv_chunk w' = kv_chunk w ∧ cache w' = cache w ∧ timers w' = timers w
  ∧ faults w' = faults w ∧ uuid_next w' = uuid_next w ∧ clock w' = clock w.
Proof. unfold committed, first_commit. by destruct isNew. Qed.

Lemma chunks_stored_fields file imageId md5Hash isNew w :
  let w' := chunks_stored' file imageId md5Hash isNew w in
  kv_meta w' = <[imageId := new_meta' file md5Hash (clock w)]> (kv_meta w)
  ∧ kv_md5 w' = (if isNew then <[md5Hash := imageId]> (kv_md5 w) else kv_md5 w)
  ∧ cache w' = cache w ∧ timers w' = timers w
  ∧ faults w' = faults w ∧ uuid_next w' = uuid_next w ∧ clock w' = clock w.
Proof.
  unfold chunks_stored.
  destruct (put_chunks_frame chunkSize imageId (file_bytes file)
              (ceil_div (length (file_bytes file)) chunkSize) 0
              (committed' file imageId md5Hash isNew w))
    as (-> & -> & -> & -> & -> & -> & ->).
  destruct (committed_fields file imageId md5Hash isNew w)
    as (-> & -> & _ & -> & -> & -> & -> & ->).
  done.
Qed.

Lemma stored_fields file imageId md5Hash isNew w :
  let w' := stored' file imageId md5Hash isNew w in
  kv_meta w' = <[imageId := mark_completed (new_meta' file md5Hash (clock w))]>
                 (kv_meta w)
  ∧ kv_md5 w' = (if isNew then <[md5Hash := imageId]> (kv_md5 w) else kv_md5 w)
  ∧ cache w' = cache w ∧ timers w' = timers w
  ∧ faults w' = faults w ∧ uuid_next w' = uuid_next w ∧ clock w' = clock w.
Proof.
  unfold stored. cbn [with_kv_meta kv_meta kv_md5 cache timers faults uuid_next clock].
  destruct (chunks_stored_fields file imageId md5Hash isNew w)
    as (-> & -> & -> & -> & -> & -> & ->).
  by rewrite insert_insert_eq.
Qed.

Lemma stored_chunk_lookup file imageId md5Hash isNew w key :
  kv_chunk (stored' file imageId md5Hash isNew w) !! key =
    if decide (key.1 = imageId
               ∧ key.2 < ceil_div (length (file_bytes file)) chunkSize)
    then Some (chunkAt chunkSize (file_bytes file) key.2)
    else kv_chunk w !! key.
Proof.
  unfold stored, chunks_stored. cbn [with_kv_meta kv_chunk].
  rewrite put_chunks_lookup.
  destruct (committed_fields file imageId md5Hash isNew w)
    as (_ & _ & -> & _).
  destruct (decide (key.1 = imageId ∧
                    0 ≤ key.2 < 0 + ceil_div (length (file_bytes file)) chunkSize))
    as [[? ?]|Hn].
  - by rewrite decide_True by (split; [done|lia]).
  - rewrite decide_False; [done|]. intros [? ?]. apply Hn. split; [done|lia].
Qed.

(** Every chunk of the payload is in the store after the upload. *)
Lemma stored_chunks_present (w : World) imageId (f : nat → bytes) count :
  ∀ start,
  (∀ i, start ≤ i < start + count → kv_chunk w !! (imageId, i) = Some (f i)) →
  stored_chunks w imageId start count = Some (f <$> seq start count).
Proof.
  induction count as [|count IH]; intros start Hall; [done|].
  cbn [stored_chunks seq fmap list_fmap].
  rewrite Hall by lia. rewrite IH; [done|]. intros i Hi. apply Hall. lia.
Qed.

Lemma stored_chunks_of_stored file imageId md5Hash isNew w :
  stored_chunks (stored' file imageId md5Hash isNew w) imageId 0
    (ceil_div (length (file_bytes file)) chunkSize)
  = Some (splitChunks chunkSize (file_bytes file)).
Proof.
  unfold splitChunks. apply stored_chunks_present. intros i Hi.
  rewrite stored_chunk_lookup. by rewrite decide_True by (simpl; split; [done|lia]).
Qed.

(** Reading back what an upload stored, when the cache does not hold the
    image: the exact bytes, under the MIME type of the upload. *)
Lemma serve_after_store file imageId md5Hash isNew w :
  1 ≤ chunkSize → quiet w → cache w !! imageId = None →
  result (run (serveImage imageId) (stored' file imageId md5Hash isNew w))
  = inl (mkResponse 200 (Some (file_type file)) (BodyBytes (file_bytes file))).
Proof.
  intros Hpos Hq Hmiss.
  destruct (stored_fields file imageId md5Hash isNew w)
    as (Hmeta & _ & Hcache & _ & Hfaults & _).
  rewrite run_serveImage by (unfold quiet; by rewrite Hfaults).
  unfold serve_run. rewrite Hcache, Hmiss. unfold prepend, caught, read_run.
  rewrite Hmeta, lookup_insert_eq. cbn [mark_completed meta_completed negb
    meta_chunks meta_size new_meta meta_type].
  rewrite stored_chunks_of_stored, joinChunks_splitChunks by done.
  reflexivity.
Qed.

(** The store writes of a log. *)
Definition writes_in (l : list (Event * World)) : list StoreWrite :=
  omap (λ e, write_of e.1) l.

Lemma writes_in_app l1 l2 : writes_in (l1 ++ l2) = writes_in l1 ++ writes_in l2.
Proof. apply omap_app. Qed.

Lemma writes_chunk_events imageId imageBytes (worlds : nat → World) indices :
  writes_in ((λ i, (chunk_event chunkSize imageId imageBytes i, worlds i))
               <$> indices)
  = (λ i, WSetChunk imageId i (chunkAt chunkSize imageBytes i)) <$> indices.
Proof.
  induction indices as [|i indices IH]; [done|].
  cbn. unfold writes_in in IH. by rewrite IH.
Qed.

Lemma writes_store_log file imageId md5Hash isNew w :
  writes_in (store_log chunkSize file imageId md5Hash isNew w)
  = WCommit (first_commit chunkSize file imageId md5Hash isNew (clock w))
    :: ((λ i, WSetChunk imageId i (chunkAt chunkSize (file_bytes file) i))
          <$> seq 0 (ceil_div (length (file_bytes file)) chunkSize))
    ++ [WSetMeta imageId (mark_completed (new_meta' file md5Hash (clock w)))].
Proof.
  unfold store_log. rewrite !writes_in_app, writes_chunk_events. done.
Qed.

(** Every world an upload passes through before its final metadata write
    has the cache and the failure plan of the initial world, and is
    either before the first commit, with the metadata and the digest
    index of the initial world, or after it, with both sets applied. *)
Lemma store_log_worlds file imageId md5Hash isNew w ev wi :
  (ev, wi) ∈ store_log chunkSize file imageId md5Hash isNew w →
  faults wi = faults w ∧ cache wi = cache w
  ∧ (kv_meta wi = kv_meta w ∧ kv_md5 wi = kv_md5 w
     ∨ kv_meta wi = <[imageId := new_meta' file md5Hash (clock w)]> (kv_meta w)
       ∧ kv_md5 wi = (if isNew then <[md5Hash := imageId]> (kv_md5 w)
                      else kv_md5 w)).
Proof.
  unfold store_log. rewrite !elem_of_app, !elem_of_cons, elem_of_nil.
  rewrite list_elem_of_fmap.
  intros [[[= _ ->]|[[= _ ->]|[]]] | [(i & [= _ ->] & _) | [[= _ ->]|[]]]].
  - auto.
  - auto.
  - destruct (put_chunks_frame chunkSize imageId (file_bytes file) (i - 0) 0
                (committed' file imageId md5Hash isNew w))
      as (-> & -> & -> & _ & -> & _).
    destruct (committed_fields file imageId md5Hash isNew w)
      as (-> & -> & _ & -> & _ & -> & _).
    auto.
  - destruct (chunks_stored_fields file imageId md5Hash isNew w)
      as (-> & -> & -> & _ & -> & _).
    auto.
Qed.
End Stored.

(** ** Uploads and the reads around them *)

Section UploadClaims.
Variable calculateMd5 : bytes → string.
Variable randomUUID : nat → string.
Variable chunkSize : nat.

Abbreviation run := (exec randomUUID).
Abbreviation processFile' := (processFile calculateMd5 chunkSize).
Abbreviation new_meta' := (new_meta chunkSize).
Abbreviation stored' := (stored chunkSize).

(** The cache only holds images whose metadata record says completed. *)
Definition coherent (w : World) : Prop :=
  ∀ imageId, is_Some (cache w !! imageId) →
    ∃ imageMeta, kv_meta w !! imageId = Some imageMeta
                 ∧ meta_completed imageMeta = true.

(** The identifier [crypto.randomUUID()] returns next is not in use. *)
Definition fresh (w : World) : Prop :=
  kv_meta w !! randomUUID (uuid_next w) = None.

(** An image no read can be served: not in the cache, and no completed
    metadata record in a store that answers. *)
Definition unavailable (imageId : string) (w : World) : Prop :=
  quiet w ∧ cache w !! imageId = None
  ∧ ∀ imageMeta, kv_meta w !! imageId = Some imageMeta →
                 meta_completed imageMeta = false.

Lemma serve_unavailable imageId w :
  unavailable imageId w →
  result (run (serveImage imageId) w) = inl notFound
  ∧ final (run (serveImage imageId) w) = w.
Proof.
  intros (Hq & Hmiss & Hmeta). rewrite run_serveImage by done.
  unfold serve_run, prepend, caught, read_run. rewrite Hmiss.
  destruct (kv_meta w !! imageId) as [imageMeta|]; [|done].
  by rewrite (Hmeta imageMeta eq_refl).
Qed.

(** The image an upload is about to store under, and whether the digest
    is new. *)
Definition upload_target (w : World) (md5Hash : string) : option (string * bool) :=
  match decide_upload w md5Hash with
  | Reuse _ => None
  | Overwrite imageId => Some (imageId, false)
  | Create => Some (randomUUID (uuid_next w), true)
  end.

Lemma upload_target_unavailable w md5Hash imageId isNew :
  quiet w → coherent w → fresh w →
  upload_target w md5Hash = Some (imageId, isNew) →
  unavailable imageId w.
Proof.
  intros Hq Hco Hfr. unfold upload_target, decide_upload.
  assert (Hcache : (∀ imageMeta, kv_meta w !! imageId = Some imageMeta →
                      meta_completed imageMeta = false) →
                   cache w !! imageId = None).
  { intros Hinc. destruct (cache w !! imageId) as [image|] eqn:Hc; [|done].
    destruct (Hco imageId) as (imageMeta & Hm & Hdone); [by rewrite Hc|].
    rewrite (Hinc _ Hm) in Hdone. done. }
  assert (Hnew : Some (randomUUID (uuid_next w), true) = Some (imageId, isNew) →
                 unavailable imageId w).
  { intros [= <- <-]. split_and!; [done| |].
    - apply Hcache. intros imageMeta. unfold fresh in Hfr. by rewrite Hfr.
    - intros imageMeta. unfold fresh in Hfr. by rewrite Hfr. }
  destruct (kv_md5 w !! md5Hash) as [existingImageId|]; [|done].
  destruct (truthy existingImageId); [|done].
  destruct (kv_meta w !! existingImageId) as [existingMeta|] eqn:Hmeta.
  - destruct (meta_completed existingMeta) eqn:Hdone; [done|].
    intros [= <- <-]. split_and!; [done| |].
    + apply Hcache. intros imageMeta. rewrite Hmeta. by intros [= <-].
    + intros imageMeta. rewrite Hmeta. by intros [= <-].
  - intros [= <- <-]. split_and!; [done| |].
    + apply Hcache. intros imageMeta. by rewrite Hmeta.
    + intros imageMeta. by rewrite Hmeta.
Qed.

Lemma store_log_unavailable file imageId md5Hash isNew w ev wi :
  unavailable imageId w →
  (ev, wi) ∈ store_log chunkSize file imageId md5Hash isNew w →
  unavailable imageId wi.
Proof.
  intros (Hq & Hmiss & Hmeta) Hin.
  destruct (store_log_worlds chunkSize file imageId md5Hash isNew w ev wi Hin)
    as (Hf & Hc & Hm).
  unfold unavailable, quiet. rewrite Hf, Hc. split_and!; [done|done|].
  destruct Hm as [[-> _]|[-> _]]; [done|].
  rewrite lookup_insert_eq. by intros imageMeta [= <-].
Qed.

(** C1. An upload that stores bytes writes, in this order: one commit
    carrying the metadata record with [completed = false], the chunk
    records 0, 1, ..., chunks - 1, each an awaited write of its own, and
    last the same metadata record with [completed = true] (name, type, size,
    chunk count, time and digest as in the first). In every world the
    upload passes through before that last write, a read of the image
    answers 404 and changes nothing. *)
Theorem C1_two_phase_write (origin : string) (file : File) (w : World)
    (entry : ResultEntry) :
  quiet w → coherent w → fresh w →
  let r := run (processFile' origin file) w in
  let md5Hash := calculateMd5 (file_bytes file) in
  result r = inl entry → res_status entry ≠ "cached" →
  ∃ imageId now sets,
    let imageMeta := new_meta' file md5Hash now in
    meta_completed imageMeta = false
    ∧ meta_chunks imageMeta = ceil_div (length (file_bytes file)) chunkSize
    ∧ mark_completed imageMeta
      = mkImageMeta (file_name file) (file_type file) (length (file_bytes file))
          (ceil_div (length (file_bytes file)) chunkSize) now md5Hash true
    ∧ res_url entry = Some (imageUrlOf origin imageId (file_name file))
    ∧ writes r =
        WCommit (MutMeta imageId imageMeta :: sets)
        :: ((λ i, WSetChunk imageId i (chunkAt chunkSize (file_bytes file) i))
              <$> seq 0 (meta_chunks imageMeta))
        ++ [WSetMeta imageId (mark_completed imageMeta)]
    ∧ kv_meta (final r) !! imageId = Some (mark_completed imageMeta)
    ∧ ∀ ev wi, (ev, wi) ∈ log r →
        result (run (serveImage imageId) wi) = inl notFound
        ∧ final (run (serveImage imageId) wi) = wi.
Proof.
  intros Hq Hco Hfr r md5Hash Hres Hstatus. subst r.
  rewrite run_processFile in Hres |- * by done. fold md5Hash in Hres |- *.
  pose proof (upload_target_unavailable w md5Hash) as Htarget.
  unfold upload_target in Htarget.
  destruct (decide_upload w md5Hash) as [imageId|imageId|] eqn:Hdec.
  - injection Hres as <-. done.
  - specialize (Htarget imageId false Hq Hco Hfr eq_refl).
    exists imageId, (clock w), []. injection Hres as <-.
    split_and!; [done|done|done|done| | |].
    + unfold writes. cbn [log]. change (omap _ ?l) with (writes_in l).
      change (?a :: ?b :: ?l) with ([a; b] ++ l).
      rewrite writes_in_app, writes_store_log. done.
    + cbn [final].
      destruct (stored_fields chunkSize file imageId md5Hash false w) as (-> & _).
      by rewrite lookup_insert_eq.
    + cbn [log]. intros ev wi. rewrite !elem_of_cons.
      intros [[= _ ->]|[[= _ ->]|Hin]]; try by apply serve_unavailable.
      by apply serve_unavailable, (store_log_unavailable file imageId md5Hash false w ev).
  - specialize (Htarget _ true Hq Hco Hfr eq_refl).
    exists (randomUUID (uuid_next w)), (clock w),
      [MutMd5 md5Hash (randomUUID (uuid_next w))]. injection Hres as <-.
    split_and!; [done|done|done|done| | |].
    + unfold writes. cbn [log]. change (omap _ ?l) with (writes_in l).
      change (?a :: ?b :: ?l) with ([a; b] ++ l).
      rewrite writes_in_app, writes_store_log. done.
    + cbn [final].
      destruct (stored_fields chunkSize file (randomUUID (uuid_next w)) md5Hash
                  true (drew_uuid w)) as (-> & _).
      by rewrite lookup_insert_eq.
    + cbn [log]. intros ev wi. rewrite !elem_of_cons.
      intros [[= _ ->]|[[= _ ->]|Hin]]; try by apply serve_unavailable.
      apply serve_unavailable,
        (store_log_unavailable file _ md5Hash true (drew_uuid w) ev); [|done].
      destruct Htarget as (? & ? & ?). done.
Qed.
Lemma decide_upload_stored file imageId isNew w :
  let md5Hash := calculateMd5 (file_bytes file) in
  truthy imageId = true →
  (isNew = false → kv_md5 w !! md5Hash = Some imageId) →
  decide_upload (stored' file imageId md5Hash isNew w) md5Hash = Reuse imageId.
Proof.
  intros md5Hash Htruthy Hindexed. unfold decide_upload.
  destruct (stored_fields chunkSize file imageId md5Hash isNew w)
    as (-> & -> & _).
  assert (Hidx : (if isNew then <[md5Hash := imageId]> (kv_md5 w) else kv_md5 w)
                 !! md5Hash = Some imageId).
  { destruct isNew; [apply lookup_insert_eq|by apply Hindexed]. }
  by rewrite Hidx, Htruthy, lookup_insert_eq.
Qed.

Lemma truthy_nonempty s : s ≠ "" → truthy s = true.
Proof.
  intros Hne. unfold truthy. destruct (String.eqb_spec s ""); done.
Qed.

Lemma quiet_stored file imageId md5Hash isNew w :
  quiet w → quiet (stored' file imageId md5Hash isNew w).
Proof.
  unfold quiet.
  by destruct (stored_fields chunkSize file imageId md5Hash isNew w)
    as (_ & _ & _ & _ & -> & _).
Qed.

(** The URL of the two storing branches (lines 104-106, 144-146). *)
Lemma stored_url origin file w entry :
  quiet w →
  result (run (processFile' origin file) w) = inl entry →
  res_status entry ≠ "cached" →
  ∃ imageId, res_url entry = Some (imageUrlOf origin imageId (file_name file)).
Proof.
  intros Hq. rewrite run_processFile by done.
  destruct (decide_upload w (calculateMd5 (file_bytes file))) as [i|i|];
    intros [= <-]; [done| |]; intros _; eauto.
Qed.
(** C8. Splitting a payload of [L] bytes at a chunk size [C] of at least
    one byte gives ceil(L / C) chunks (the least count whose chunks cover
    the payload); every chunk before the last has [C] bytes; the last has
    [L mod C] bytes, or [C] when that remainder is zero; the empty payload
    gives no chunk. An upload of an empty file that stores therefore
    writes the first commit and the completing metadata record with no
    chunk write between them, and a read of it answers 200 with an empty
    body. *)
Theorem C8_split_shape (payload : bytes) (origin : string) (file : File)
    (w : World) (entry : ResultEntry) :
  1 ≤ chunkSize →
  let chunks := splitChunks chunkSize payload in
  let L := length payload in
  length chunks = ceil_div L chunkSize
  ∧ L ≤ length chunks * chunkSize
  ∧ (0 < L → (length chunks - 1) * chunkSize < L)
  ∧ (∀ i chunk, chunks !! i = Some chunk → S i < length chunks →
                length chunk = chunkSize)
  ∧ (∀ chunk, last chunks = Some chunk →
              length chunk = if L mod chunkSize =? 0 then chunkSize
                             else L mod chunkSize)
  ∧ (L = 0 → chunks = [])
  ∧ (file_bytes file = [] → quiet w → coherent w → fresh w →
     let r := run (processFile' origin file) w in
     result r = inl entry → res_status entry ≠ "cached" →
     ∃ imageId imageMeta sets,
       res_url entry = Some (imageUrlOf origin imageId (file_name file))
       ∧ meta_chunks imageMeta = 0 ∧ meta_size imageMeta = 0
       ∧ writes r = [WCommit (MutMeta imageId imageMeta :: sets);
                     WSetMeta imageId (mark_completed imageMeta)]
       ∧ kv_meta (final r) !! imageId = Some (mark_completed imageMeta)
       ∧ result (run (serveImage imageId) (final r))
         = inl (mkResponse 200 (Some (file_type file)) (BodyBytes []))).
Proof.
  intros Hpos chunks L. subst chunks L.
  rewrite length_splitChunks.
  destruct (ceil_div_bounds chunkSize Hpos (length payload)) as [Hup Hlow].
  split_and!; [done|done|done| | | |].
  - intros i chunk Hi Hinner. apply splitChunks_lookup in Hi as [_ ->].
    by apply length_inner_chunk.
  - intros chunk. rewrite last_lookup, length_splitChunks. intros Hlast.
    apply splitChunks_lookup in Hlast as [Hlt ->].
    rewrite <- Nat.sub_1_r. apply length_last_chunk; [done|].
    destruct (length payload); [|lia]. rewrite ceil_div_0 in Hlt. lia.
  - intros Hzero. unfold splitChunks. rewrite Hzero, ceil_div_0; done.
  - intros Hempty Hq Hco Hfr r Hres Hstatus. subst r.
    set (md5Hash := calculateMd5 (file_bytes file)).
    pose proof (upload_target_unavailable w md5Hash) as Htarget.
    unfold upload_target in Htarget.
    assert (Hcount : ceil_div (length (file_bytes file)) chunkSize = 0)
      by (rewrite Hempty; by apply ceil_div_0).
    assert (Hstore : ∀ imageId isNew w0 pre,
      quiet w0 → cache w0 !! imageId = None →
      let r := mkRun (inl (stored_result origin file imageId isNew))
                 (stored' file imageId md5Hash isNew w0)
                 (pre ++ store_log chunkSize file imageId md5Hash isNew w0) in
      writes_in pre = [] →
      ∃ imageMeta sets,
        meta_chunks imageMeta = 0 ∧ meta_size imageMeta = 0
        ∧ writes r = [WCommit (MutMeta imageId imageMeta :: sets);
                      WSetMeta imageId (mark_completed imageMeta)]
        ∧ kv_meta (final r) !! imageId = Some (mark_completed imageMeta)
        ∧ result (run (serveImage imageId) (final r))
          = inl (mkResponse 200 (Some (file_type file)) (BodyBytes []))).
    { intros imageId isNew w0 pre Hq0 Hmiss r Hpre.
      exists (new_meta' file md5Hash (clock w0)),
        (if isNew then [MutMd5 md5Hash imageId] else []).
      split_and!.
      - done.
      - simpl. by rewrite Hempty.
      - unfold writes, r. cbn [log]. change (omap _ ?l) with (writes_in l).
        rewrite writes_in_app, Hpre, writes_store_log, Hcount. done.
      - unfold r. cbn [final].
        destruct (stored_fields chunkSize file imageId md5Hash isNew w0) as (-> & _).
        by rewrite lookup_insert_eq.
      - unfold r. cbn [final]. rewrite serve_after_store by done.
        by rewrite Hempty. }
    rewrite run_processFile in Hres |- * by done. fold md5Hash in Hres |- *.
    destruct (decide_upload w md5Hash) as [imageId|imageId|] eqn:Hdec.
    + injection Hres as <-. done.
    + injection Hres as <-.
      destruct (Htarget imageId false Hq Hco Hfr eq_refl) as (_ & Hmiss & _).
      destruct (Hstore imageId false w
                  [(Ev (KvGetMd5 md5Hash) (inl (kv_md5 w !! md5Hash)), w);
                   (Ev (KvGetMeta imageId) (inl (kv_meta w !! imageId)), w)]
                  Hq Hmiss eq_refl)
        as (imageMeta & sets & ?).
      by exists imageId, imageMeta, sets.
    + injection Hres as <-.
      destruct (Htarget _ true Hq Hco Hfr eq_refl) as (_ & Hmiss & _).
      destruct (Hstore (randomUUID (uuid_next w)) true (drew_uuid w)
                  [(Ev (KvGetMd5 md5Hash) (inl (kv_md5 w !! md5Hash)), w);
                   (Ev RandomUUID (inl (randomUUID (uuid_next w))), w)]
                  Hq Hmiss eq_refl)
        as (imageMeta & sets & ?).
      by exists (randomUUID (uuid_next w)), imageMeta, sets.
Qed.
End UploadClaims.

Lemma coherent_initial now : coherent (initial_world now).
Proof.
  intros imageId [image Himage]. cbn [initial_world cache] in Himage.
  by rewrite lookup_empty in Himage.
Qed.

(** ** Reads *)

Section ReadClaims.
Variable randomUUID : nat → string.

Abbreviation run := (exec randomUUID).

Lemma stored_chunks_missing (w : World) imageId count : ∀ start i,
  start ≤ i < start + count → kv_chunk w !! (imageId, i) = None →
  stored_chunks w imageId start count = None.
Proof.
  induction count as [|count IH]; intros start i Hi Hnone; [lia|].
  cbn [stored_chunks].
  destruct (kv_chunk w !! (imageId, start)) as [chunk|] eqn:Hstart; [|done].
  rewrite (IH (S start) i); [done| |done].
  destruct (decide (i = start)) as [->|]; [congruence|lia].
Qed.

(** [chunks] are the records of indices [start ..] in index order. *)
Lemma stored_chunks_in_order (w : World) imageId chunks : ∀ start,
  (∀ i, i < length chunks →
        kv_chunk w !! (imageId, start + i) = chunks !! i) →
  stored_chunks w imageId start (length chunks) = Some chunks.
Proof.
  induction chunks as [|chunk chunks IH]; intros start Hall; [done|].
  cbn [length stored_chunks].
  specialize (Hall 0 ltac:(simpl; lia)) as H0. rewrite Nat.add_0_r in H0.
  rewrite H0. cbn [lookup list_lookup]. rewrite IH; [done|].
  intros i Hi. specialize (Hall (S i) ltac:(simpl; lia)).
  by replace (S start + i) with (start + S i) by lia.
Qed.

(** The claim of C5 as stated, for a record that is not completed: a read
    of an image whose metadata record says [completed = false] answers
    404. *)
Definition incomplete_reads_not_found : Prop :=
  ∀ imageId w imageMeta,
    quiet w → kv_meta w !! imageId = Some imageMeta →
    meta_completed imageMeta = false →
    result (run (serveImage imageId) w) = inl notFound.

(** C5, amended. On a store that answers, [serveImage] answers 404 when
    the image has no metadata record. When it has one and the cache holds
    the image, it answers 200 with the cached bytes under the type of the
    record, whatever the record says of completion and whichever chunks
    the store holds, without a chunk lookup. When it has one and the cache
    does not hold the image, it answers 404 if the record says not
    completed, and 500 "Image data incomplete" if the record says completed
    but a chunk record with an index below [chunks] is missing. In the
    three error cases it returns no bytes, and in all four it leaves the
    world as it found it. *)
Theorem C5_read_errors (imageId : string) (w : World) :
  quiet w →
  let r := run (serveImage imageId) w in
  resp_status notFound = 404 ∧ resp_status dataIncomplete = 500
  ∧ (kv_meta w !! imageId = None → result r = inl notFound ∧ final r = w)
  ∧ (∀ imageMeta image,
       kv_meta w !! imageId = Some imageMeta → cache w !! imageId = Some image →
       result r = inl (mkResponse 200 (Some (meta_type imageMeta))
                         (BodyBytes image))
       ∧ final r = w ∧ chunk_reads r = [])
  ∧ (∀ imageMeta, kv_meta w !! imageId = Some imageMeta →
       cache w !! imageId = None → meta_completed imageMeta = false →
       result r = inl notFound ∧ final r = w)
  ∧ (∀ imageMeta i, kv_meta w !! imageId = Some imageMeta →
       cache w !! imageId = None → meta_completed imageMeta = true →
       i < meta_chunks imageMeta → kv_chunk w !! (imageId, i) = None →
       result r = inl dataIncomplete ∧ final r = w).
Proof.
  intros Hq r. subst r. rewrite (run_serveImage randomUUID imageId w) by done.
  unfold serve_run, prepend, caught, read_run.
  split_and!; [done|done| | | |].
  - intros ->. by destruct (cache w !! imageId).
  - by intros imageMeta image -> ->.
  - intros imageMeta -> -> Hinc. by rewrite Hinc.
  - intros imageMeta i -> -> Hdone Hi Hnone. rewrite Hdone. cbn [negb].
    by rewrite (stored_chunks_missing w imageId _ 0 i) by (done || lia).
Qed.

(** C6, amended. For a completed image, the read fails with 500 "Image
    data incomplete" when a chunk record with an index below [chunks] is
    missing. When all of them are present, it throws a [RangeError], which
    [serveImage] answers with 500, if their concatenation is longer than
    the declared size, and otherwise returns exactly [size] bytes: the
    concatenation in index order, followed by zero bytes when it is
    shorter than the declared size. *)
Theorem C6_join_outcomes (imageId : string) (w : World) (imageMeta : ImageMeta) :
  quiet w → kv_meta w !! imageId = Some imageMeta →
  meta_completed imageMeta = true →
  let r := run (readImage imageId) w in
  let size := meta_size imageMeta in
  (∀ i, i < meta_chunks imageMeta → kv_chunk w !! (imageId, i) = None →
        result r = inl dataIncomplete)
  ∧ (∀ chunks, length chunks = meta_chunks imageMeta →
       (∀ i, i < length chunks → kv_chunk w !! (imageId, i) = chunks !! i) →
       (size < length (concat chunks) →
          result r = inr "RangeError" ∧ result (caught r) = inl internalError)
       ∧ (length (concat chunks) ≤ size →
          ∃ fullImage,
            result r = inl (mkResponse 200 (Some (meta_type imageMeta))
                              (BodyBytes fullImage))
            ∧ length fullImage = size
            ∧ fullImage = concat chunks
                ++ replicate (size - length (concat chunks)) "000"%byte)).
Proof.
  intros Hq Hmeta Hdone r size. subst r size.
  rewrite run_readImage by done. unfold read_run. rewrite Hmeta, Hdone.
  cbn [negb]. split.
  - intros i Hi Hnone.
    by rewrite (stored_chunks_missing w imageId _ 0 i) by (done || lia).
  - intros chunks Hlen Hall. rewrite <- Hlen.
    rewrite (stored_chunks_in_order w imageId chunks 0) by done.
    pose proof (joinChunks_outcome chunks (meta_size imageMeta)) as Hjoin.
    destruct (joinChunks chunks (meta_size imageMeta)) as [fullImage|].
    + destruct Hjoin as (Hsize & Hfit & Heq). split; [lia|].
      intros _. by exists fullImage.
    + split; [done|lia].
Qed.
(** The chunk lookups of a log. *)
Definition reads_in (l : list (Event * World)) : list (string * nat) :=
  omap (λ e, chunk_read_of e.1) l.

Lemma reads_in_app l1 l2 : reads_in (l1 ++ l2) = reads_in l1 ++ reads_in l2.
Proof. apply omap_app. Qed.

Lemma reads_in_cons ev w l :
  reads_in ((ev, w) :: l)
  = match chunk_read_of ev with
    | Some key => key :: reads_in l
    | None => reads_in l
    end.
Proof. done. Qed.

Lemma chunk_reads_log {A} (r : Run A) : chunk_reads r = reads_in (log r).
Proof. done. Qed.

Lemma fetch_reads (w : World) imageId count : ∀ start,
  ∃ k, k ≤ count
       ∧ reads_in (fetch_log w imageId start count) = (imageId,.) <$> seq start k
       ∧ (is_Some (stored_chunks w imageId start count) → k = count).
Proof.
  induction count as [|count IH]; intros start.
  - exists 0. split_and!; done.
  - cbn [fetch_log stored_chunks]. rewrite reads_in_cons. cbn [chunk_read_of].
    destruct (kv_chunk w !! (imageId, start)) as [chunk|].
    + destruct (IH (S start)) as (k & Hk & Hreads & Hall).
      exists (S k). split_and!; [lia| |].
      * by rewrite Hreads.
      * intros Hsome. f_equal. apply Hall.
        by destruct (stored_chunks w imageId (S start) count).
    + exists 1. split_and!; [lia|done|]. by intros [? ?].
Qed.

Lemma fetch_agree (w w' : World) imageId count : ∀ start,
  (∀ i, start ≤ i < start + count →
        kv_chunk w' !! (imageId, i) = kv_chunk w !! (imageId, i)) →
  stored_chunks w' imageId start count = stored_chunks w imageId start count
  ∧ reads_in (fetch_log w' imageId start count)
    = reads_in (fetch_log w imageId start count).
Proof.
  induction count as [|count IH]; intros start Hagree; [done|].
  cbn [stored_chunks fetch_log]. rewrite !reads_in_cons. cbn [chunk_read_of].
  rewrite Hagree by lia.
  destruct (IH (S start)) as [-> Hreads]; [intros i Hi; apply Hagree; lia|].
  split; [done|].
  destruct (kv_chunk w !! (imageId, start)); [|done].
  by rewrite Hreads.
Qed.

Lemma reads_read_run (w : World) imageId :
  reads_in (log (read_run w imageId))
  = match kv_meta w !! imageId with
    | Some imageMeta =>
        if meta_completed imageMeta
        then reads_in (fetch_log w imageId 0 (meta_chunks imageMeta))
        else []
    | None => []
    end.
Proof.
  unfold read_run, meta_event.
  destruct (kv_meta w !! imageId) as [imageMeta|]; [|done].
  destruct (meta_completed imageMeta); [|done]. cbn [negb].
  destruct (stored_chunks w imageId 0 (meta_chunks imageMeta)) as [chunks|];
    [|done].
  destruct (joinChunks chunks (meta_size imageMeta)) as [fullImage|]; [|done].
  cbn [log]. rewrite reads_in_cons, reads_in_app. cbn [chunk_read_of].
  rewrite !reads_in_cons. cbn [chunk_read_of]. apply app_nil_r.
Qed.

Lemma read_run_agree (w w' : World) imageId :
  kv_meta w' !! imageId = kv_meta w !! imageId →
  (∀ imageMeta i, kv_meta w !! imageId = Some imageMeta →
     i < meta_chunks imageMeta →
     kv_chunk w' !! (imageId, i) = kv_chunk w !! (imageId, i)) →
  result (read_run w' imageId) = result (read_run w imageId)
  ∧ reads_in (log (read_run w' imageId)) = reads_in (log (read_run w imageId)).
Proof.
  intros Hmeta Hagree. rewrite !reads_read_run.
  unfold read_run. rewrite Hmeta.
  destruct (kv_meta w !! imageId) as [imageMeta|]; [|done].
  destruct (meta_completed imageMeta); [|done]. cbn [negb].
  destruct (fetch_agree w w' imageId (meta_chunks imageMeta) 0) as [-> Hreads].
  { intros i Hi. apply (Hagree imageMeta); [done|lia]. }
  split; [|done].
  destruct (stored_chunks w imageId 0 (meta_chunks imageMeta)) as [chunks|];
    [|done].
  by destruct (joinChunks chunks (meta_size imageMeta)).
Qed.

Lemma reads_serve_run (w : World) imageId :
  reads_in (log (serve_run w imageId))
  = match cache w !! imageId, kv_meta w !! imageId with
    | Some _, Some _ => []
    | _, _ => reads_in (log (read_run w imageId))
    end.
Proof.
  unfold serve_run, prepend, caught, meta_event.
  destruct (cache w !! imageId) as [image|];
    [destruct (kv_meta w !! imageId) as [imageMeta|] eqn:Hm|];
    [done| |];
    destruct (result (read_run w imageId)); cbn [log];
    by rewrite reads_in_app.
Qed.

Lemma result_caught (r : Run Response) :
  result (caught r)
  = match result r with
    | inl response => inl response
    | inr _ => inl internalError
    end.
Proof. unfold caught. by destruct (result r) eqn:Hr. Qed.

Lemma result_serve_run (w : World) imageId :
  result (serve_run w imageId)
  = match cache w !! imageId, kv_meta w !! imageId with
    | Some image, Some imageMeta => inl (served imageMeta image)
    | _, _ => result (caught (read_run w imageId))
    end.
Proof.
  unfold serve_run, prepend.
  by destruct (cache w !! imageId) as [image|];
    [destruct (kv_meta w !! imageId) as [imageMeta|]|].
Qed.

(** C10. A read of an image consults, besides the cache and the metadata
    record, only the chunk records whose index is below [chunks] of that
    record: the lookups it makes are those of indices 0, 1, ... in order,
    all of them when it serves the image from the store; and two worlds
    that agree on the cache entry, on the metadata record and on those
    chunk records give the same response, whatever other chunk records
    they hold under the same identifier. *)
Theorem C10_only_counted_chunks_read (imageId : string) (w w' : World) :
  quiet w → quiet w' →
  cache w' !! imageId = cache w !! imageId →
  kv_meta w' !! imageId = kv_meta w !! imageId →
  (∀ imageMeta i, kv_meta w !! imageId = Some imageMeta →
     i < meta_chunks imageMeta →
     kv_chunk w' !! (imageId, i) = kv_chunk w !! (imageId, i)) →
  let r := run (serveImage imageId) w in
  let r' := run (serveImage imageId) w' in
  result r' = result r
  ∧ chunk_reads r' = chunk_reads r
  ∧ (∀ imageMeta, kv_meta w !! imageId = Some imageMeta →
       ∃ k, k ≤ meta_chunks imageMeta
            ∧ chunk_reads r = (imageId,.) <$> seq 0 k
            ∧ (cache w !! imageId = None →
               (∃ fullImage, result r = inl (served imageMeta fullImage)) →
               k = meta_chunks imageMeta)).
Proof.
  intros Hq Hq' Hcache Hmeta Hagree r r'. subst r r'.
  rewrite !run_serveImage by done.
  rewrite !chunk_reads_log, !reads_serve_run, !result_serve_run.
  rewrite Hcache, Hmeta.
  destruct (read_run_agree w w' imageId Hmeta Hagree) as [Hres Hreads].
  rewrite !result_caught, Hres, Hreads.
  split_and!; [done|done|].
  - intros imageMeta Hm. rewrite reads_read_run, Hm.
    destruct (cache w !! imageId) as [image|].
    { exists 0. split_and!; [lia|done|done]. }
    unfold read_run. rewrite Hm.
    destruct (meta_completed imageMeta).
    2:{ exists 0. split_and!; [lia|done|]. by intros _ [fullImage [=]]. }
    cbn [negb].
    destruct (fetch_reads w imageId (meta_chunks imageMeta) 0)
      as (k & Hk & Hreads0 & Hall).
    exists k. split_and!; [done|done|].
    destruct (stored_chunks w imageId 0 (meta_chunks imageMeta)) as [chunks|].
    + intros _ _. by apply Hall.
    + by intros _ [fullImage [=]].
Qed.
End ReadClaims.

(** ** Batches: uploadHandler on a store that may fail *)

(** What a handler can return, whatever the operations answer. *)
Fixpoint may_return {A} (p : Prog A) (a : A) : Prop :=
  match p with
  | Ret a' => a' = a
  | Throw _ => False
  | Vis op k => ∃ r, may_return (k r) a
  end.

Lemma may_return_bind {A B} (p : Prog A) (f : A → Prog B) (b : B) :
  may_return (p ≫= f) b → ∃ a, may_return p a ∧ may_return (f a) b.
Proof.
  induction p as [a|e|X op k IH].
  - intros Hb. by exists a.
  - intros [].
  - intros [r Hr]. destruct (IH r Hr) as (a & Ha & Hb).
    exists a. split; [by exists r|done].
Qed.

Lemma may_return_try_catch {A} (p : Prog A) (h : string → Prog A) (a : A) :
  may_return (try_catch p h) a → may_return p a ∨ ∃ e, may_return (h e) a.
Proof.
  induction p as [a'|e|X op k IH].
  - by left.
  - intros Ha. right. by exists e.
  - intros [r Hr]. destruct (IH r Hr) as [Ha|Ha]; [left; by exists r|by right].
Qed.

Section Batch.
Variable calculateMd5 : bytes → string.
Variable randomUUID : nat → string.
Variable chunkSize : nat.

Abbreviation run := (exec randomUUID).
Abbreviation processFile' := (processFile calculateMd5 chunkSize).
Abbreviation processEntry' := (processEntry calculateMd5 chunkSize).
Abbreviation uploadLoop' := (uploadLoop calculateMd5 chunkSize).
Abbreviation uploadHandler' := (uploadHandler calculateMd5 chunkSize).

Lemma run_may_return {A} (p : Prog A) w a :
  result (run p w) = inl a → may_return p a.
Proof.
  revert w. induction p as [a'|e|X op k IH]; intros w; simpl.
  - by intros [= ->].
  - done.
  - destruct (perform randomUUID op w) as [r w']. simpl.
    intros Hres. exists r. by apply (IH r w').
Qed.

Lemma may_return_storeImage origin file imageId md5Hash isNew entry :
  may_return (storeImage chunkSize origin file imageId md5Hash isNew) entry →
  entry = stored_result origin file imageId isNew.
Proof.
  unfold storeImage. intros H.
  apply may_return_bind in H as (now & _ & H).
  apply may_return_bind in H as (? & _ & H).
  apply may_return_bind in H as (? & _ & H).
  apply may_return_bind in H as (? & _ & H).
  simpl in H. by subst entry.
Qed.

(** A file that is processed without an exception was found, overwritten
    or stored: these are the only values the per-file [try] returns. *)
Lemma may_return_processFile origin file entry :
  may_return (processFile' origin file) entry →
  ∃ imageId,
    entry = cached_result origin file imageId
    ∨ ∃ isNew, entry = stored_result origin file imageId isNew.
Proof.
  unfold processFile. intros H.
  apply may_return_bind in H as (existingImageEntry & _ & H).
  assert (Hnew : may_return
            (imageId ← await RandomUUID;
             storeImage chunkSize origin file imageId
               (calculateMd5 (file_bytes file)) true) entry →
          ∃ imageId, entry = cached_result origin file imageId
                     ∨ ∃ isNew, entry = stored_result origin file imageId isNew).
  { intros Hn. apply may_return_bind in Hn as (imageId & _ & Hn).
    apply may_return_storeImage in Hn. exists imageId. right. by exists true. }
  destruct existingImageEntry as [existingImageId|]; [|by apply Hnew].
  destruct (truthy existingImageId); [|by apply Hnew].
  apply may_return_bind in H as (existingMetaEntry & _ & H).
  exists existingImageId.
  destruct existingMetaEntry as [existingMeta|].
  - destruct (meta_completed existingMeta).
    + left. simpl in H. by subst entry.
    + right. exists false. by apply may_return_storeImage in H.
  - right. exists false. by apply may_return_storeImage in H.
Qed.

Definition invalid_entry : ResultEntry :=
  mkResult "unknown" None (Some "Invalid file data") "error".

Definition succeeded (r : ResultEntry) : Prop :=
  (res_status r = "cached" ∨ res_status r = "uploaded"
   ∨ res_status r = "overwritten")
  ∧ is_Some (res_url r) ∧ res_error r = None.

Definition failed (r : ResultEntry) : Prop :=
  res_status r = "error" ∧ res_url r = None ∧ is_Some (res_error r).

(** The entry of [results] that belongs to an entry of the form data. *)
Definition entry_outcome (entry : FormDataEntry) (r : ResultEntry) : Prop :=
  match entry with
  | FormString _ => r = invalid_entry
  | FormFile file => res_name r = file_name file ∧ (succeeded r ∨ failed r)
  end.

Lemma processEntry_returns origin entry w :
  ∃ r, result (run (processEntry' origin entry) w) = inl r ∧ entry_outcome entry r.
Proof.
  destruct entry as [value|file]; cbn [processEntry].
  - by exists invalid_entry.
  - rewrite exec_try_catch. unfold run_catch.
    destruct (result (run (processFile' origin file) w)) as [r|message] eqn:Hres.
    + exists r. split; [done|].
      apply run_may_return, may_return_processFile in Hres
        as (imageId & [->|[isNew ->]]).
      * split; [done|]. left. unfold succeeded. simpl. eauto 6.
      * split; [done|]. left. unfold succeeded. simpl. destruct isNew; eauto 6.
    + simpl. eexists. split; [done|]. split; [done|]. right.
      unfold failed. simpl. eauto.
Qed.

(** The runs of the files of a batch, one after the other: each starts in
    the world its predecessor left, whether that one failed or not. *)
Fixpoint batch_runs (origin : string) (files : list FormDataEntry) (w : World)
  : list (Run ResultEntry) :=
  match files with
  | [] => []
  | file :: rest =>
      let r := run (processEntry' origin file) w in
      r :: batch_runs origin rest (final r)
  end.

Lemma run_uploadLoop origin files : ∀ results w,
  ∃ more,
    result (run (uploadLoop' origin files results) w) = inl (results ++ more)
    ∧ Forall2 entry_outcome files more
    ∧ inl <$> more = result <$> batch_runs origin files w.
Proof.
  induction files as [|file rest IH]; intros results w.
  - exists []. simpl. by rewrite app_nil_r.
  - cbn [uploadLoop batch_runs]. rewrite exec_bind. unfold run_then.
    destruct (processEntry_returns origin file w) as (r & Hr & Hout).
    rewrite Hr. cbn [result].
    destruct (IH (results ++ [r]) (final (run (processEntry' origin file) w)))
      as (more & Hres & Hall & Hruns).
    exists (r :: more). rewrite Hres, <- app_assoc. split_and!; [done| |].
    + by constructor.
    + cbn. by rewrite Hr, Hruns.
Qed.

Lemma is_error_spec r : is_error r = true ↔ res_status r = "error".
Proof. unfold is_error. by destruct (String.eqb_spec (res_status r) "error"). Qed.

Lemma outcomes_without_error files results :
  Forall2 entry_outcome files results →
  (∀ e, e ∈ results → res_status e ≠ "error") →
  Forall succeeded results.
Proof.
  induction 1 as [|entry e files' results' Hout Hall IH]; intros Hnone;
    constructor.
  - destruct entry as [value|f]; simpl in Hout.
    + subst e. exfalso. by apply (Hnone invalid_entry); [left|].
    + destruct Hout as [_ [Hok|(Herr & _)]]; [done|].
      exfalso. apply (Hnone e); [left|done].
  - apply IH. intros e' Hin. apply Hnone. by right.
Qed.

(** The worlds in which the entries of a batch are processed: the first in
    the world of the request, each of the others in the world in which the
    processing of the entry before it ended, by a return or by a throw. *)
Fixpoint batch_worlds (origin : string) (files : list FormDataEntry) (w : World)
  : list World :=
  match files with
  | [] => []
  | entry :: rest =>
      w :: batch_worlds origin rest
             match entry with
             | FormString _ => w
             | FormFile file => final (run (processFile' origin file) w)
             end
  end.

Lemma batch_worlds_length origin files w :
  length (batch_worlds origin files w) = length files.
Proof.
  revert w. induction files as [|entry rest IH]; intros w; [done|].
  cbn [batch_worlds length]. by rewrite IH.
Qed.

Lemma batch_results_lookup origin files : ∀ w results,
  inl <$> results = result <$> batch_runs origin files w →
  ∀ i entry wi,
    files !! i = Some entry → batch_worlds origin files w !! i = Some wi →
    results !! i = Some
      match entry with
      | FormString _ => mkResult "unknown" None (Some "Invalid file data") "error"
      | FormFile file =>
          match result (run (processFile' origin file) wi) with
          | inl r => r
          | inr message => mkResult (file_name file) None (Some message) "error"
          end
      end.
Proof.
  induction files as [|first rest IH]; intros w results Hruns i entry wi Hentry Hwi;
    [done|].
  cbn [batch_runs batch_worlds fmap list_fmap] in Hruns, Hwi.
  destruct results as [|r results]; [done|].
  cbn [fmap list_fmap] in Hruns. injection Hruns as Hr Hrest.
  assert (Hfinal : final (run (processEntry' origin first) w)
                   = match first with
                     | FormString _ => w
                     | FormFile file => final (run (processFile' origin file) w)
                     end).
  { destruct first as [value|file]; [done|]. cbn [processEntry].
    rewrite exec_try_catch. unfold run_catch.
    by destruct (result (run (processFile' origin file) w)). }
  destruct i as [|i].
  - cbn in Hentry, Hwi. injection Hentry as <-. injection Hwi as <-.
    change ((r :: results) !! 0) with (Some r). f_equal.
    destruct first as [value|file]; cbn [processEntry] in Hr.
    + simpl in Hr. injection Hr as ->. reflexivity.
    + rewrite exec_try_catch in Hr. unfold run_catch in Hr.
      destruct (result (run (processFile' origin file) w)) as [r'|message] eqn:Hres.
      * rewrite Hres in Hr. injection Hr as ->. reflexivity.
      * simpl in Hr. injection Hr as ->. reflexivity.
  - change ((r :: results) !! S i) with (results !! i).
    change ((first :: rest) !! S i) with (rest !! i) in Hentry.
    change ((?x :: ?l) !! S i) with (l !! i) in Hwi.
    rewrite <- Hfinal in Hwi.
    by apply (IH _ results Hrest i entry wi).
Qed.

(** C9. Every entry of [files] gets exactly one entry of [results], in
    order, which is what processing that entry alone, in the world left by
    the entries before it, returns: a file whose processing returns gets
    the entry returned, a file whose processing throws gets its name, the
    message thrown and status "error", a text field gets the entry
    "Invalid file data", and whichever it was the next entry is processed
    in the world it left. The response has status 400 when there are no files;
    otherwise 500 when some entry has status "error" and 200 when every
    entry has a success status. *)
Theorem C9_batch_isolation (request : Request) (files : list FormDataEntry)
    (w : World) :
  req_files request = Some files →
  let r := run (uploadHandler' request) w in
  (files = [] →
     result r = inl (mkResponse 400 None (BodyText "No files uploaded")))
  ∧ (files ≠ [] →
     ∃ results status,
       result r = inl (mkResponse status (Some "application/json")
                         (BodyJson results))
       ∧ Forall2 entry_outcome files results
       ∧ inl <$> results = result <$> batch_runs (req_origin request) files w
       ∧ length (batch_worlds (req_origin request) files w) = length files
       ∧ (∀ i entry wi,
            files !! i = Some entry →
            batch_worlds (req_origin request) files w !! i = Some wi →
            results !! i = Some
              match entry with
              | FormString _ =>
                  mkResult "unknown" None (Some "Invalid file data") "error"
              | FormFile file =>
                  match result (run (processFile' (req_origin request) file) wi) with
                  | inl r => r
                  | inr message =>
                      mkResult (file_name file) None (Some message) "error"
                  end
              end)
       ∧ (status = 500 ∧ Exists (λ e, res_status e = "error") results
          ∨ status = 200 ∧ Forall succeeded results)).
Proof.
  intros Hfiles r. subst r. unfold uploadHandler. rewrite Hfiles.
  rewrite exec_try_catch. unfold run_catch. split.
  - by intros ->.
  - intros Hne. destruct files as [|file rest]; [done|].
    cbn [length Nat.eqb]. rewrite exec_bind. unfold run_then.
    destruct (run_uploadLoop (req_origin request) (file :: rest) [] w)
      as (results & Hres & Hall & Hruns).
    rewrite Hres. cbn [app exec result].
    exists results, (if existsb is_error results then 500 else 200).
    split_and!; [done|done|done|apply batch_worlds_length
                |by apply batch_results_lookup|].
    destruct (existsb is_error results) eqn:Hex.
    + left. split; [done|].
      apply existsb_exists in Hex as (e & Hin & He).
      apply Exists_exists. exists e. split; [by apply list_elem_of_In|].
      by apply is_error_spec.
    + right. split; [done|].
      assert (Hnone : ∀ e, e ∈ results → res_status e ≠ "error").
      { intros e Hin He. apply is_error_spec in He.
        assert (existsb is_error results = true); [|congruence].
        apply existsb_exists. exists e. split; [by apply list_elem_of_In|done]. }
      by apply (outcomes_without_error (file :: rest)).
Qed.
End Batch.

(** ** Concurrent uploads of a new digest *)

Section Race.
Variable calculateMd5 : bytes → string.
Variable randomUUID : nat → string.
Variable chunkSize : nat.

Abbreviation run := (exec randomUUID).
Abbreviation processFile' := (processFile calculateMd5 chunkSize).
Abbreviation new_meta' := (new_meta chunkSize).

(** The claim of C4 as stated: of two uploads of the same file that run
    concurrently to their ends, the one that commits second falls back
    to the identifier of the first, so both report the same URL. *)
Definition single_winner : Prop :=
  ∀ schedule origin file w ea eb w',
    interleave randomUUID schedule
      (processFile' origin file) (processFile' origin file) w
    = (Ret ea, Ret eb, w') →
    res_url ea = res_url eb.

(** C4, amended. An upload whose lookup found the digest unindexed draws
    its identifier from [crypto.randomUUID()] and writes the metadata
    record with [completed = false] and the digest index entry in one
    atomic commit that carries no check. Whatever the world has become
    when the commit runs, even if another upload has indexed the digest
    in between, the commit goes through and replaces the index entry; no
    world in between has one of the two sets without the other; the
    upload stores its chunks under its own identifier and reports it. *)
Theorem C4_unconditional_commit (origin : string) (file : File) (w0 w1 : World) :
  quiet w0 → quiet w1 →
  let md5Hash := calculateMd5 (file_bytes file) in
  kv_md5 w0 !! md5Hash = None →
  let afterLookup := (step randomUUID (processFile' origin file) w0).1 in
  let r := run afterLookup w1 in
  let imageId := randomUUID (uuid_next w1) in
  let imageMeta := new_meta' file md5Hash (clock w1) in
  result r = inl (mkResult (file_name file)
                    (Some (imageUrlOf origin imageId (file_name file)))
                    None "uploaded")
  ∧ writes r
    = WCommit [MutMeta imageId imageMeta; MutMd5 md5Hash imageId]
      :: ((λ i, WSetChunk imageId i (chunkAt chunkSize (file_bytes file) i))
            <$> seq 0 (meta_chunks imageMeta))
      ++ [WSetMeta imageId (mark_completed imageMeta)]
  ∧ (∀ ev wi, (ev, wi) ∈ log r →
       kv_meta wi = kv_meta w1 ∧ kv_md5 wi = kv_md5 w1
       ∨ kv_meta wi = <[imageId := imageMeta]> (kv_meta w1)
         ∧ kv_md5 wi = <[md5Hash := imageId]> (kv_md5 w1))
  ∧ kv_md5 (final r) = <[md5Hash := imageId]> (kv_md5 w1)
  ∧ kv_meta (final r) = <[imageId := mark_completed imageMeta]> (kv_meta w1).
Proof.
  intros Hq0 Hq1 md5Hash Hnone afterLookup r imageId imageMeta.
  assert (Hafter : afterLookup
                   = (imageId ← await RandomUUID;
                      storeImage chunkSize origin file imageId md5Hash true)).
  { unfold afterLookup, processFile. cbn [mbind Prog_bind bind await step].
    rewrite perform_quiet by done. cbn [apply_op fst snd].
    fold md5Hash. rewrite Hnone. reflexivity. }
  subst r. rewrite Hafter.
  rewrite exec_bind, exec_await_quiet by done.
  unfold run_then. cbn [result final log apply_op fst snd].
  rewrite run_storeImage by done. cbn [result final log].
  fold imageId. change (with_uuid_next _ w1) with (drew_uuid w1).
  destruct (stored_fields chunkSize file imageId md5Hash true (drew_uuid w1))
    as (Hmeta & Hmd5 & _).
  split_and!; [done| | |done|done].
  - unfold writes. cbn [log]. change (omap _ ?l) with (writes_in l).
    change ([?a] ++ ?l) with ([a] ++ l).
    rewrite writes_in_app, writes_store_log. done.
  - intros ev wi. change ([?a] ++ ?l) with (a :: l). rewrite elem_of_cons.
    intros [[= _ ->]|Hin]; [by left|].
    by destruct (store_log_worlds chunkSize file imageId md5Hash true
                   (drew_uuid w1) ev wi Hin) as (_ & _ & Hw).
Qed.
End Race.

(** ** Worlds the server reaches when requests are handled one at a time *)

Section Reachable.
Variable calculateMd5 : bytes → string.
Variable randomUUID : nat → string.
Variable chunkSize : nat.

(** [crypto.randomUUID()] does not return the same identifier twice. *)
Hypothesis randomUUID_inj : Inj (=) (=) randomUUID.

Abbreviation run := (exec randomUUID).
Abbreviation coherent' := coherent.
Abbreviation fresh' := (fresh randomUUID).

(** A handler started in a world satisfying [P] ends in a world satisfying
    [Q] when it returns and [E] when it throws, whatever the store does. *)
Definition triple {A} (P : World → Prop) (p : Prog A) (Q : A → World → Prop)
    (E : World → Prop) : Prop :=
  ∀ w, P w →
    match result (run p w) with
    | inl a => Q a (final (run p w))
    | inr _ => E (final (run p w))
    end.

Lemma triple_ret {A} (P : World → Prop) (a : A) Q E :
  (∀ w, P w → Q a w) → triple P (Ret a) Q E.
Proof. intros H w Hw. by apply H. Qed.

Lemma triple_throw {A} (P : World → Prop) e (Q : A → World → Prop) E :
  (∀ w, P w → E w) → triple P (Throw e) Q E.
Proof. intros H w Hw. by apply H. Qed.

Lemma triple_bind {A B} P (p : Prog A) (f : A → Prog B) R Q E :
  triple P p R E → (∀ a, triple (R a) (f a) Q E) → triple P (p ≫= f) Q E.
Proof.
  intros Hp Hf w Hw. specialize (Hp w Hw). rewrite exec_bind. unfold run_then.
  destruct (result (run p w)) as [a|e]; [|done].
  cbn [result final]. by apply Hf.
Qed.

Lemma triple_try_catch {A} P (p : Prog A) h Q E' E :
  triple P p Q E' → (∀ e, triple E' (h e) Q E) → triple P (try_catch p h) Q E.
Proof.
  intros Hp Hh w Hw. specialize (Hp w Hw). rewrite exec_try_catch.
  unfold run_catch. destruct (result (run p w)) as [a|e] eqn:Hres.
  - by rewrite Hres.
  - cbn [result final]. by apply Hh.
Qed.

Lemma triple_await {X} (op : Op X) (P : World → Prop) Q E :
  (∀ w fs, P w → P (with_faults fs w)) →
  (∀ w, P w → E w) →
  (∀ w, P w → Q (apply_op randomUUID op w).1 (apply_op randomUUID op w).2) →
  triple P (await op) Q E.
Proof.
  intros Hfaults HE HQ w Hw. rewrite exec_await. cbn [result final].
  unfold perform, answer_of.
  destruct (is_kv op); [destruct (faults w) as [|[e|] rest]|].
  - specialize (HQ w Hw). by destruct (apply_op randomUUID op w).
  - cbn [fst snd]. by apply HE, Hfaults.
  - specialize (HQ _ (Hfaults w rest Hw)).
    by destruct (apply_op randomUUID op (with_faults rest w)).
  - specialize (HQ w Hw). by destruct (apply_op randomUUID op w).
Qed.

Lemma triple_for_range (J : World → Prop) E body count : ∀ start,
  (∀ i, triple J (body i) (λ _, J) E) →
  triple J (for_range start count body) (λ _, J) E.
Proof.
  induction count as [|count IH]; intros start Hbody.
  - by apply triple_ret.
  - cbn [for_range]. eapply triple_bind; [apply Hbody|].
    intros ?. by apply IH.
Qed.

(** The identifier was returned by an earlier [crypto.randomUUID()]. *)
Definition issued (w : World) (imageId : string) : Prop :=
  ∃ k, k < uuid_next w ∧ imageId = randomUUID k.

(** Metadata records and index entries are under identifiers the server
    drew, and the cache holds completed images only. *)
Definition well_formed (w : World) : Prop :=
  (∀ imageId, is_Some (kv_meta w !! imageId) → issued w imageId)
  ∧ (∀ md5Hash imageId, kv_md5 w !! md5Hash = Some imageId → issued w imageId)
  ∧ coherent w.

(** What holds while an image is being stored. *)
Definition storing (imageId : string) (w : World) : Prop :=
  well_formed w ∧ issued w imageId ∧ cache w !! imageId = None.

Lemma well_formed_fresh w : well_formed w → fresh' w.
Proof.
  intros (Hmeta & _ & _). unfold fresh.
  destruct (kv_meta w !! randomUUID (uuid_next w)) as [m|] eqn:Hm; [|done].
  destruct (Hmeta (randomUUID (uuid_next w))) as (k & Hk & Heq); [by rewrite Hm|].
  apply randomUUID_inj in Heq. lia.
Qed.

Lemma well_formed_initial now : well_formed (initial_world now).
Proof.
  split_and!.
  - intros imageId [m Hm]. cbn in Hm. by rewrite lookup_empty in Hm.
  - intros md5Hash imageId Hm. cbn in Hm. by rewrite lookup_empty in Hm.
  - apply coherent_initial.
Qed.

Lemma storing_commit file imageId md5Hash isNew now w :
  storing imageId w →
  storing imageId
    (foldl apply_mutation w (first_commit chunkSize file imageId md5Hash isNew now)).
Proof.
  intros ((Hmeta & Hmd5 & Hco) & Hissued & Hmiss).
  assert (Hw : ∀ w', kv_meta w' = <[imageId := new_meta chunkSize file md5Hash now]>
                                     (kv_meta w) →
                     (kv_md5 w' = kv_md5 w
                      ∨ kv_md5 w' = <[md5Hash := imageId]> (kv_md5 w)) →
                     cache w' = cache w → uuid_next w' = uuid_next w →
                     storing imageId w').
  { intros w' Hm Hd Hc Hn. unfold storing, well_formed, coherent, issued.
    rewrite Hm, Hc, Hn. split_and!; [| | |done|done].
    - intros id. rewrite lookup_insert. case_decide; [by subst|apply Hmeta].
    - intros d id. destruct Hd as [->| ->]; [apply Hmd5|].
      rewrite lookup_insert. case_decide; [by intros [= <-]|apply Hmd5].
    - intros id Hhit. rewrite lookup_insert_ne; [by apply Hco|].
      intros <-. rewrite Hmiss in Hhit. by destruct Hhit. }
  unfold first_commit. destruct isNew; apply Hw; cbn; auto.
Qed.

Lemma storing_chunk imageId i chunk w :
  storing imageId w → storing imageId (with_kv_chunk <[(imageId, i) := chunk]> w).
Proof. done. Qed.

Lemma storing_completed imageId imageMeta w :
  storing imageId w →
  well_formed (with_kv_meta <[imageId := mark_completed imageMeta]> w).
Proof.
  intros ((Hmeta & Hmd5 & Hco) & Hissued & Hmiss).
  unfold well_formed, coherent. cbn. split_and!; [|done|].
  - intros id. rewrite lookup_insert. case_decide; [by subst|apply Hmeta].
  - intros id Hhit. rewrite lookup_insert_ne; [by apply Hco|].
    intros <-. rewrite Hmiss in Hhit. by destruct Hhit.
Qed.

Lemma triple_storeImage origin file imageId md5Hash isNew :
  triple (storing imageId)
    (storeImage chunkSize origin file imageId md5Hash isNew)
    (λ _, well_formed) well_formed.
Proof.
  assert (Hweak : ∀ w, storing imageId w → well_formed w) by (by intros w [? _]).
  unfold storeImage.
  eapply triple_bind with (R := λ _, storing imageId).
  { apply triple_await; [done|done|done]. }
  intros now. eapply triple_bind with (R := λ _, storing imageId).
  { apply triple_await; [done|done|]. intros w Hw. by apply storing_commit. }
  intros ?. eapply triple_bind with (R := λ _, storing imageId).
  { apply triple_for_range. intros i.
    apply triple_await; [done|done|]. intros w Hw. by apply storing_chunk. }
  intros ?. eapply triple_bind with (R := λ _, well_formed).
  { apply triple_await; [done|done|]. intros w Hw. by apply storing_completed. }
  intros ?. by apply triple_ret.
Qed.
Lemma issued_drew w imageId : issued w imageId → issued (drew_uuid w) imageId.
Proof. intros (k & Hk & ->). exists k. split; [cbn; lia|done]. Qed.

Lemma storing_drew w :
  well_formed w → storing (randomUUID (uuid_next w)) (drew_uuid w).
Proof.
  intros Hwf. pose proof (well_formed_fresh w Hwf) as Hfresh.
  destruct Hwf as (Hmeta & Hmd5 & Hco). split_and!.
  - split_and!; [| |done].
    + intros id Hid. by apply issued_drew, Hmeta.
    + intros d id Hid. by apply issued_drew, (Hmd5 d).
  - exists (uuid_next w). split; [cbn; lia|done].
  - cbn. destruct (cache w !! randomUUID (uuid_next w)) as [image|] eqn:Hc; [|done].
    destruct (Hco (randomUUID (uuid_next w))) as (m & Hm & _); [by rewrite Hc|].
    unfold fresh in Hfresh. congruence.
Qed.

Lemma triple_processFile origin file :
  triple well_formed (processFile calculateMd5 chunkSize origin file)
    (λ _, well_formed) well_formed.
Proof.
  unfold processFile. set (md5Hash := calculateMd5 (file_bytes file)).
  assert (Hnew : triple well_formed
            (imageId ← await RandomUUID;
             storeImage chunkSize origin file imageId md5Hash true)
            (λ _, well_formed) well_formed).
  { eapply triple_bind with (R := λ imageId, storing imageId).
    - apply triple_await; [done|done|]. intros w Hw. by apply storing_drew.
    - intros imageId. apply triple_storeImage. }
  eapply triple_bind
    with (R := λ entry w, well_formed w ∧ entry = kv_md5 w !! md5Hash).
  { apply triple_await; done. }
  intros [existingImageId|]; [|by intros w [Hw _]; apply Hnew].
  destruct (truthy existingImageId); [|by intros w [Hw _]; apply Hnew].
  eapply triple_bind
    with (R := λ entry w, well_formed w
                          ∧ Some existingImageId = kv_md5 w !! md5Hash
                          ∧ entry = kv_meta w !! existingImageId).
  { apply triple_await; [done|by intros w [? _]|by intros w [? ?]]. }
  assert (Hover : ∀ existingMetaEntry : option ImageMeta,
    (∀ m, existingMetaEntry = Some m → meta_completed m = false) →
    triple (λ w, well_formed w ∧ Some existingImageId = kv_md5 w !! md5Hash
                 ∧ existingMetaEntry = kv_meta w !! existingImageId)
      (storeImage chunkSize origin file existingImageId md5Hash false)
      (λ _, well_formed) well_formed).
  { intros existingMetaEntry Hinc w (Hw & Hidx & Hentry).
    apply triple_storeImage. destruct Hw as (Hmeta & Hmd5 & Hco).
    split_and!; [done|by apply (Hmd5 md5Hash)|].
    destruct (cache w !! existingImageId) as [image|] eqn:Hc; [|done].
    destruct (Hco existingImageId) as (m & Hm & Hdone); [by rewrite Hc|].
    rewrite Hm in Hentry. rewrite (Hinc m Hentry) in Hdone. done. }
  intros [existingMeta|].
  - destruct (meta_completed existingMeta) eqn:Hdone.
    + apply triple_ret. by intros w [? _].
    + apply Hover. by intros m [= <-].
  - by apply Hover.
Qed.

Lemma triple_uploadLoop origin files : ∀ results,
  triple well_formed (uploadLoop calculateMd5 chunkSize origin files results)
    (λ _, well_formed) well_formed.
Proof.
  induction files as [|file rest IH]; intros results.
  - by apply triple_ret.
  - cbn [uploadLoop]. eapply triple_bind with (R := λ _, well_formed).
    + destruct file as [value|file]; cbn [processEntry].
      * by apply triple_ret.
      * eapply triple_try_catch; [apply triple_processFile|].
        intros e. by apply triple_ret.
    + intros r. apply IH.
Qed.

Lemma triple_uploadHandler request :
  triple well_formed (uploadHandler calculateMd5 chunkSize request)
    (λ _, well_formed) well_formed.
Proof.
  unfold uploadHandler.
  eapply triple_try_catch with (E' := well_formed);
    [|intros e; by apply triple_ret].
  destruct (req_files request) as [files|]; [|by apply triple_throw].
  destruct (length files =? 0); [by apply triple_ret|].
  eapply triple_bind; [apply triple_uploadLoop|].
  intros results. by apply triple_ret.
Qed.

(** What holds while the chunks of a completed image are fetched. *)
Definition reading (imageId : string) (imageMeta : ImageMeta) (w : World) : Prop :=
  well_formed w ∧ kv_meta w !! imageId = Some imageMeta
  ∧ meta_completed imageMeta = true.

Lemma triple_fetchChunks imageId imageMeta count : ∀ i chunks,
  triple (reading imageId imageMeta) (fetchChunks imageId i count chunks)
    (λ _, reading imageId imageMeta) well_formed.
Proof.
  induction count as [|count IH]; intros i chunks.
  - by apply triple_ret.
  - cbn [fetchChunks].
    eapply triple_bind with (R := λ _, reading imageId imageMeta).
    + apply triple_await; [done|by intros w [? _]|done].
    + intros [chunk|]; [apply IH|by apply triple_ret].
Qed.

Lemma reading_cached imageId imageMeta fullImage w :
  reading imageId imageMeta w →
  well_formed (with_cache <[imageId := fullImage]> w).
Proof.
  intros ((Hmeta & Hmd5 & Hco) & Hm & Hdone). split_and!; [done|done|].
  intros id. cbn. rewrite lookup_insert. case_decide.
  - subst id. intros _. by exists imageMeta.
  - apply Hco.
Qed.

Lemma triple_readImage imageId :
  triple well_formed (readImage imageId) (λ _, well_formed) well_formed.
Proof.
  unfold readImage.
  eapply triple_bind
    with (R := λ entry w, well_formed w ∧ entry = kv_meta w !! imageId).
  { apply triple_await; done. }
  intros [imageMeta|]; [|apply triple_ret; by intros w [? _]].
  destruct (meta_completed imageMeta) eqn:Hdone; cbn [negb];
    [|apply triple_ret; by intros w [? _]].
  eapply triple_bind with (R := λ _, reading imageId imageMeta).
  { intros w [Hw Hm]. by apply triple_fetchChunks. }
  intros [response|chunks]; [apply triple_ret; by intros w [? _]|].
  destruct (joinChunks chunks (meta_size imageMeta)) as [fullImage|];
    [|apply triple_throw; by intros w [? _]].
  eapply triple_bind with (R := λ _, well_formed).
  { apply triple_await; [done|by intros w [? _]|].
    intros w Hw. by apply (reading_cached imageId imageMeta). }
  intros ?. eapply triple_bind with (R := λ _, well_formed).
  { apply triple_await; done. }
  intros ?. by apply triple_ret.
Qed.

Lemma triple_serveImage imageId :
  triple well_formed (serveImage imageId) (λ _, well_formed) well_formed.
Proof.
  unfold serveImage.
  eapply triple_try_catch with (E' := well_formed);
    [|intros e; by apply triple_ret].
  eapply triple_bind with (R := λ _, well_formed).
  { apply triple_await; done. }
  intros [image|]; [|apply triple_readImage].
  eapply triple_bind with (R := λ _, well_formed).
  { apply triple_await; done. }
  intros [imageMeta|]; [by apply triple_ret|apply triple_readImage].
Qed.

(** The worlds of a server that handles one request after the other, on a
    store that may fail at any operation, with cache timers firing and time
    passing between requests. *)
Inductive reachable : World → Prop :=
| reach_start now : reachable (initial_world now)
| reach_upload w request fs :
    reachable w →
    reachable (final (run (uploadHandler calculateMd5 chunkSize request)
                        (with_faults fs w)))
| reach_serve w imageId fs :
    reachable w →
    reachable (final (run (serveImage imageId) (with_faults fs w)))
| reach_timer w imageId : reachable w → reachable (fire_timer imageId w)
| reach_clock w now : reachable w → reachable (with_clock now w).

Lemma triple_final {A} (p : Prog A) w :
  triple well_formed p (λ _, well_formed) well_formed →
  well_formed w → well_formed (final (run p w)).
Proof.
  intros Hp Hw. specialize (Hp w Hw). by destruct (result (run p w)).
Qed.

(** Every such world satisfies what the theorems about uploads assume of
    the world an upload starts in. *)
Lemma reachable_well_formed w : reachable w → well_formed w.
Proof.
  induction 1 as [now|w request fs _ IH|w imageId fs _ IH|w imageId _ IH|w now _ IH].
  - apply well_formed_initial.
  - by apply triple_final; [apply triple_uploadHandler|].
  - by apply triple_final; [apply triple_serveImage|].
  - destruct IH as (Hmeta & Hmd5 & Hco). split_and!; [done|done|].
    intros id. cbn. rewrite lookup_delete. case_decide; [by intros [? ?]|apply Hco].
  - done.
Qed.

Lemma reachable_coherent_fresh w : reachable w → coherent w ∧ fresh' w.
Proof.
  intros Hw. apply reachable_well_formed in Hw.
  split; [apply Hw|by apply well_formed_fresh].
Qed.
End Reachable.

(** ** The handlers on concrete inputs

    A stand-in digest (the bytes themselves, read as a string) and a
    stand-in identifier source, to run the handlers on concrete inputs. *)

Definition demo_md5 (b : bytes) : string := String.string_of_list_byte b.
Definition demo_uuid (n : nat) : string := "id-" +:+ pretty n.
Definition demo_file : File := mkFile "a.png" "image/png" ["a"; "b"; "c"; "d"; "e"]%byte.

Lemma C1_two_phase_write_witness :
  let r := exec demo_uuid (processFile demo_md5 2 "http://h" demo_file) (initial_world 0) in
  ∃ imageId now sets,
    let imageMeta := new_meta 2 demo_file (demo_md5 (file_bytes demo_file)) now in
    meta_completed imageMeta = false
    ∧ meta_chunks imageMeta = ceil_div (length (file_bytes demo_file)) 2
    ∧ mark_completed imageMeta
      = mkImageMeta "a.png" "image/png" 5 (ceil_div 5 2) now
          (demo_md5 (file_bytes demo_file)) true
    ∧ res_url (stored_result "http://h" demo_file "id-0" true)
      = Some (imageUrlOf "http://h" imageId (file_name demo_file))
    ∧ writes r =
        WCommit (MutMeta imageId imageMeta :: sets)
        :: ((λ i, WSetChunk imageId i (chunkAt 2 (file_bytes demo_file) i))
              <$> seq 0 (meta_chunks imageMeta))
        ++ [WSetMeta imageId (mark_completed imageMeta)]
    ∧ kv_meta (final r) !! imageId = Some (mark_completed imageMeta)
    ∧ ∀ ev wi, (ev, wi) ∈ log r →
        result (exec demo_uuid (serveImage imageId) wi) = inl notFound
        ∧ final (exec demo_uuid (serveImage imageId) wi) = wi.
Proof.
  apply (C1_two_phase_write demo_md5 demo_uuid 2 "http://h" demo_file
           (initial_world 0) (stored_result "http://h" demo_file "id-0" true)).
  - reflexivity.
  - apply coherent_initial.
  - reflexivity.
  - vm_compute. reflexivity.
  - vm_compute. discriminate.
Defined.

Definition demo_origin : string := "http://h".
Definition demo_upload : Prog ResultEntry :=
  processFile demo_md5 2 demo_origin demo_file.
Definition demo_stored : World := final (exec demo_uuid demo_upload (initial_world 0)).
Definition empty_file : File := mkFile "empty" "text/plain" [].

(** A completed image whose only chunk is shorter than its declared size. *)
Definition short_meta : ImageMeta := mkImageMeta "s.bin" "application/x" 2 1 0 "d" true.
Definition short_world : World :=
  mkWorld {[ "x" := short_meta ]} {[ ("x", 0) := ["a"%byte] ]} ∅ ∅ [] [] 0 0.

(** Both uploads look the digest up before either commits; then the first
    runs to its end, then the second. *)
Definition race_schedule : list bool :=
  [true; false] ++ replicate 7 true ++ replicate 7 false.
Definition race_outcome : Prog ResultEntry * Prog ResultEntry * World :=
  interleave demo_uuid race_schedule demo_upload demo_upload (initial_world 0).

(** C4, counterexample. Two uploads of the same file run concurrently on an
    empty store; both look the digest up before either commits. Both commits
    go through, each upload reports its own identifier, both images end up
    completed under the same digest, and the index holds the identifier of
    the upload that committed last. *)
Lemma C4_counterexample :
  (race_outcome.1.1
   = Ret (mkResult "a.png" (Some "http://h/image/id-0.png") None "uploaded")
   ∧ race_outcome.1.2
     = Ret (mkResult "a.png" (Some "http://h/image/id-1.png") None "uploaded")
   ∧ kv_md5 race_outcome.2 !! demo_md5 (file_bytes demo_file) = Some "id-1"
   ∧ (meta_completed <$> kv_meta race_outcome.2 !! "id-0") = Some true
   ∧ (meta_completed <$> kv_meta race_outcome.2 !! "id-1") = Some true
   ∧ (meta_md5 <$> kv_meta race_outcome.2 !! "id-0")
     = (meta_md5 <$> kv_meta race_outcome.2 !! "id-1"))
  ∧ ¬ single_winner demo_md5 demo_uuid 2.
Proof.
  split.
  - split_and!; vm_compute; reflexivity.
  - intros Hone.
    assert (Hrun :
      interleave demo_uuid race_schedule demo_upload demo_upload (initial_world 0)
      = (Ret (stored_result demo_origin demo_file "id-0" true),
         Ret (stored_result demo_origin demo_file "id-1" true),
         race_outcome.2))
      by (vm_compute; reflexivity).
    apply Hone in Hrun. vm_compute in Hrun. discriminate Hrun.
Qed.

Lemma C4_unconditional_commit_witness :
  let md5Hash := demo_md5 (file_bytes demo_file) in
  let afterLookup := (step demo_uuid demo_upload (initial_world 0)).1 in
  let r := exec demo_uuid afterLookup demo_stored in
  kv_md5 demo_stored !! md5Hash = Some "id-0"
  ∧ result r = inl (mkResult "a.png" (Some "http://h/image/id-1.png") None "uploaded")
  ∧ kv_md5 (final r) = <[md5Hash := "id-1"]> (kv_md5 demo_stored).
Proof.
  pose proof (C4_unconditional_commit demo_md5 demo_uuid 2 demo_origin demo_file
                (initial_world 0) demo_stored eq_refl eq_refl eq_refl)
    as (Hres & _ & _ & Hmd5 & _).
  split_and!; [reflexivity|exact Hres|exact Hmd5].
Defined.

(** The first upload commits its record, the second looks the digest up
    and finds that record, not completed, and the first runs to its end. *)
Definition stale_schedule : list bool :=
  replicate 4 true ++ [false; false] ++ replicate 4 true.
Definition stale_uploads : Prog ResultEntry * Prog ResultEntry * World :=
  interleave demo_uuid stale_schedule demo_upload demo_upload (initial_world 0).
(** Then a read of the image, and then the second upload as far as its own
    commit. *)
Definition stale_read : World :=
  final (exec demo_uuid (serveImage "id-0") stale_uploads.2).
Definition stale_world : World :=
  (interleave demo_uuid [false; false] stale_uploads.1.1 stale_uploads.1.2
     stale_read).2.

Lemma C5_read_errors_witness :
  result (exec demo_uuid (serveImage "id-0") (initial_world 0)) = inl notFound
  ∧ result (exec demo_uuid (serveImage "id-0")
              (committed 2 demo_file "id-0" "d" true (initial_world 0)))
    = inl notFound
  ∧ result (exec demo_uuid (serveImage "id-0")
              (with_kv_chunk (delete ("id-0", 1)) demo_stored))
    = inl dataIncomplete
  ∧ result (exec demo_uuid (serveImage "id-0") stale_world)
    = inl (mkResponse 200 (Some "image/png") (BodyBytes (file_bytes demo_file))).
Proof.
  split_and!.
  - apply (C5_read_errors demo_uuid "id-0" (initial_world 0) eq_refl).
    reflexivity.
  - pose proof (C5_read_errors demo_uuid "id-0"
                  (committed 2 demo_file "id-0" "d" true (initial_world 0)) eq_refl)
      as (_ & _ & _ & _ & Hincomplete & _).
    apply (Hincomplete (new_meta 2 demo_file "d" 0)); reflexivity.
  - pose proof (C5_read_errors demo_uuid "id-0"
                  (with_kv_chunk (delete ("id-0", 1)) demo_stored) eq_refl)
      as (_ & _ & _ & _ & _ & Hmissing).
    apply (Hmissing (mark_completed
                       (new_meta 2 demo_file (demo_md5 (file_bytes demo_file)) 0)) 1);
      [reflexivity|reflexivity|reflexivity|vm_compute; lia|reflexivity].
  - assert (Hq : quiet stale_world) by (vm_compute; reflexivity).
    pose proof (C5_read_errors demo_uuid "id-0" stale_world Hq)
      as (_ & _ & _ & Hcached & _).
    apply (Hcached (new_meta 2 demo_file (demo_md5 (file_bytes demo_file)) 0)
             (file_bytes demo_file)); vm_compute; reflexivity.
Defined.

(** C5, counterexample. Two uploads of the same file and one read, on a
    store that never fails. The second upload finds the digest indexed
    under the record of the first while that one is still storing, and
    goes on to store under the same identifier; the first runs to its end
    and a read puts the image in the cache; the second then commits its
    record with [completed = false]. In that world the record of the image
    says not completed, and [serveImage] answers 200 with the cached
    bytes. *)
Lemma C5_counterexample :
  (stale_uploads.1.1
   = Ret (mkResult "a.png" (Some "http://h/image/id-0.png") None "uploaded")
   ∧ faults stale_world = []
   ∧ (meta_completed <$> kv_meta stale_world !! "id-0") = Some false
   ∧ cache stale_world !! "id-0" = Some (file_bytes demo_file)
   ∧ result (exec demo_uuid (serveImage "id-0") stale_world)
     = inl (mkResponse 200 (Some "image/png") (BodyBytes (file_bytes demo_file))))
  ∧ ¬ incomplete_reads_not_found demo_uuid.
Proof.
  assert (Hmeta : kv_meta stale_world !! "id-0"
                  = Some (new_meta 2 demo_file (demo_md5 (file_bytes demo_file)) 0))
    by (vm_compute; reflexivity).
  assert (Hres : result (exec demo_uuid (serveImage "id-0") stale_world)
                 = inl (mkResponse 200 (Some "image/png")
                          (BodyBytes (file_bytes demo_file))))
    by (vm_compute; reflexivity).
  split.
  - split_and!; [vm_compute; reflexivity|vm_compute; reflexivity
                |by rewrite Hmeta|vm_compute; reflexivity|exact Hres].
  - intros Hclaim.
    assert (Hq : quiet stale_world) by (vm_compute; reflexivity).
    specialize (Hclaim "id-0" stale_world _ Hq Hmeta eq_refl).
    rewrite Hres in Hclaim. discriminate Hclaim.
Qed.

(** C6, counterexample. One stored chunk of one byte under a declared size
    of two: the join does not fail, it returns the byte followed by the zero
    the buffer was created with, and [serveImage] answers 200 with these two
    bytes. *)
Lemma C6_counterexample :
  joinChunks [["a"]%byte] 2 = Some ["a"; "000"]%byte
  ∧ result (exec demo_uuid (serveImage "x") short_world)
    = inl (mkResponse 200 (Some "application/x") (BodyBytes ["a"; "000"]%byte))
  ∧ ¬ join_checks_length.
Proof.
  split_and!; [reflexivity|vm_compute; reflexivity|].
  intros H. specialize (H [["a"]%byte] 2 _ eq_refl). discriminate H.
Qed.

Lemma C6_join_outcomes_witness :
  result (exec demo_uuid (readImage "x") short_world)
  = inl (mkResponse 200 (Some "application/x") (BodyBytes ["a"; "000"]%byte))
  ∧ result (exec demo_uuid (readImage "x")
              (with_kv_chunk (delete ("x", 0)) short_world))
    = inl dataIncomplete.
Proof.
  pose proof (C6_join_outcomes demo_uuid "x" short_world short_meta
                eq_refl eq_refl eq_refl) as [_ Hfit].
  pose proof (C6_join_outcomes demo_uuid "x"
                (with_kv_chunk (delete ("x", 0)) short_world) short_meta
                eq_refl eq_refl eq_refl) as [Hmissing _].
  split.
  - destruct (Hfit [["a"%byte]] eq_refl) as [_ Hpad].
    + intros i Hi. destruct i as [|i]; [reflexivity|simpl in Hi; lia].
    + destruct Hpad as (fullImage & -> & _ & ->); [simpl; lia|reflexivity].
  - apply (Hmissing 0); [simpl; lia|reflexivity].
Defined.

(** C7. The same file uploaded twice at the chunk size of the server: the
    first upload stores it and reports the URL with the extension of the file
    name, the second finds it completed and reports the URL of line 64,
    which has no extension. *)
Theorem C7_cached_url_drops_extension :
  let file := mkFile "a.png" "image/png" ["a"]%byte in
  let upload := processFile demo_md5 KV_CHUNK_SIZE demo_origin file in
  let r1 := exec demo_uuid upload (initial_world 0) in
  let r2 := exec demo_uuid upload (final r1) in
  result r1 = inl (mkResult "a.png" (Some "http://h/image/id-0.png") None "uploaded")
  ∧ result r2 = inl (mkResult "a.png" (Some "http://h/image/id-0") None "cached")
  ∧ imageUrlOf demo_origin "id-0" "a.png" = "http://h/image/id-0.png".
Proof. vm_compute. split_and!; reflexivity. Qed.

Lemma C8_split_shape_witness :
  let chunks := splitChunks 2 (file_bytes demo_file) in
  let r := exec demo_uuid (processFile demo_md5 2 demo_origin empty_file)
             (initial_world 0) in
  length chunks = 3
  ∧ (∀ chunk, last chunks = Some chunk → length chunk = 1)
  ∧ ∃ imageId imageMeta sets,
      res_url (stored_result demo_origin empty_file "id-0" true)
      = Some (imageUrlOf demo_origin imageId "empty")
      ∧ meta_chunks imageMeta = 0 ∧ meta_size imageMeta = 0
      ∧ writes r = [WCommit (MutMeta imageId imageMeta :: sets);
                    WSetMeta imageId (mark_completed imageMeta)]
      ∧ kv_meta (final r) !! imageId = Some (mark_completed imageMeta)
      ∧ result (exec demo_uuid (serveImage imageId) (final r))
        = inl (mkResponse 200 (Some "text/plain") (BodyBytes [])).
Proof.
  pose proof (C8_split_shape demo_md5 demo_uuid 2 (file_bytes demo_file)
                demo_origin empty_file (initial_world 0)
                (stored_result demo_origin empty_file "id-0" true)
                ltac:(lia))
    as (Hcount & _ & _ & _ & Hlast & _ & Hempty).
  split_and!.
  - exact Hcount.
  - exact Hlast.
  - apply Hempty.
    + reflexivity.
    + reflexivity.
    + apply coherent_initial.
    + reflexivity.
    + vm_compute. reflexivity.
    + vm_compute. discriminate.
Defined.

(** Three files in one request; the store fails on the first write of the
    second one. *)
Definition batch_request : Request :=
  mkRequest demo_origin
    (Some [FormFile (mkFile "one.png" "image/png" ["a"]%byte);
           FormFile (mkFile "two.png" "image/png" ["b"]%byte);
           FormFile (mkFile "three.png" "image/png" ["c"]%byte)]).
Definition failing_world : World :=
  mkWorld ∅ ∅ ∅ ∅ [] [None; None; None; None; None; Some "storage unavailable"] 0 0.

Lemma C9_batch_isolation_witness :
  result (exec demo_uuid (uploadHandler demo_md5 2 batch_request) failing_world)
  = inl (mkResponse 500 (Some "application/json")
           (BodyJson
              [mkResult "one.png" (Some "http://h/image/id-0.png") None "uploaded";
               mkResult "two.png" None (Some "storage unavailable") "error";
               mkResult "three.png" (Some "http://h/image/id-2.png") None "uploaded"]))
  ∧ ∃ results status,
      result (exec demo_uuid (uploadHandler demo_md5 2 batch_request) failing_world)
      = inl (mkResponse status (Some "application/json") (BodyJson results))
      ∧ results !! 1
        = Some match result (exec demo_uuid
                               (processFile demo_md5 2 demo_origin
                                  (mkFile "two.png" "image/png" ["b"]%byte))
                               (final (exec demo_uuid
                                         (processFile demo_md5 2 demo_origin
                                            (mkFile "one.png" "image/png" ["a"]%byte))
                                         failing_world))) with
               | inl r => r
               | inr message => mkResult "two.png" None (Some message) "error"
               end
      ∧ (status = 500 ∧ Exists (λ e, res_status e = "error") results
         ∨ status = 200 ∧ Forall succeeded results).
Proof.
  split; [vm_compute; reflexivity|].
  destruct (C9_batch_isolation demo_md5 demo_uuid 2 batch_request _ failing_world
              eq_refl) as [_ Hbatch].
  destruct Hbatch as (results & status & Hres & _ & _ & _ & Hentries & Hstatus);
    [discriminate|].
  exists results, status. split_and!; [exact Hres| |exact Hstatus].
  apply (Hentries 1 (FormFile (mkFile "two.png" "image/png" ["b"]%byte))
           (final (exec demo_uuid
                     (processFile demo_md5 2 demo_origin
                        (mkFile "one.png" "image/png" ["a"]%byte))
                     failing_world)));
    reflexivity.
Defined.

(** The stored demonstration image, with a stray chunk record under the
    same identifier at an index its metadata does not count. *)
Definition demo_extra : World :=
  with_kv_chunk <[("id-0", 7) := ["z"%byte]]> demo_stored.

Lemma C10_only_counted_chunks_read_witness :
  result (exec demo_uuid (serveImage "id-0") demo_extra)
  = inl (mkResponse 200 (Some "image/png") (BodyBytes (file_bytes demo_file)))
  ∧ chunk_reads (exec demo_uuid (serveImage "id-0") demo_extra)
    = [("id-0", 0); ("id-0", 1); ("id-0", 2)].
Proof.
  assert (Hsame := C10_only_counted_chunks_read demo_uuid "id-0" demo_stored demo_extra).
  destruct Hsame as (-> & -> & _).
  - vm_compute; reflexivity.
  - vm_compute; reflexivity.
  - vm_compute; reflexivity.
  - vm_compute; reflexivity.
  - intros imageMeta i Hmeta Hi.
    assert (Hcount : meta_chunks imageMeta = 3)
      by (vm_compute in Hmeta; by injection Hmeta as <-).
    unfold demo_extra.
    change (kv_chunk (with_kv_chunk ?f ?w)) with (f (kv_chunk w)).
    apply lookup_insert_ne. intros [= <-]. lia.
  - split; vm_compute; reflexivity.
Defined.

(** * The rest of the server *)

(** ** calculateMd5: the digest as lower-case hexadecimal *)

(** [n.toString(16)] for [n < 256]. *)
Definition hex_digit (n : nat) : ascii :=
  nth n ["0"; "1"; "2"; "3"; "4"; "5"; "6"; "7"; "8"; "9";
         "a"; "b"; "c"; "d"; "e"; "f"]%char "0"%char.

Definition toString16 (n : nat) : string :=
  if n <? 16 then String (hex_digit n) EmptyString
  else String (hex_digit (n / 16)) (String (hex_digit (n mod 16)) EmptyString).

(** [s.padStart(2, '0')] *)
Definition padStart2 (s : string) : string :=
  match s with
  | EmptyString => "00"
  | String c EmptyString => String "0" (String c EmptyString)
  | _ => s
  end.

(** [array.join('')] *)
Definition join_strings (parts : list string) : string :=
  foldr String.append EmptyString parts.

(** Lines 26-27: the bytes of the hash buffer, each as two hex digits. *)
Definition hex_of_hash (hashArray : bytes) : string :=
  join_strings ((λ b, padStart2 (toString16 (nat_of_ascii (ascii_of_byte b))))
                  <$> hashArray).

(** [calculateMd5] (lines 24-29); [digestMD5] is
    [crypto.subtle.digest("MD5", data)], the hash as bytes. *)
Definition calculateMd5 (digestMD5 : bytes → bytes) (data : bytes) : string :=
  hex_of_hash (digestMD5 data).

(** The value of a hex digit, and the byte of two of them. *)
Definition hex_value (c : ascii) : nat :=
  let n := nat_of_ascii c in
  if n <? 58 then n - 48 else n - 87.

Fixpoint hash_of_hex (s : string) : bytes :=
  match s with
  | String hi (String lo rest) =>
      byte_of_ascii (ascii_of_nat (16 * hex_value hi + hex_value lo))
      :: hash_of_hex rest
  | _ => []
  end.

Definition is_hex (c : ascii) : bool :=
  let n := nat_of_ascii c in
  ((48 <=? n) && (n <=? 57)) || ((97 <=? n) && (n <=? 102)).

Fixpoint all_chars (P : ascii → bool) (s : string) : bool :=
  match s with
  | EmptyString => true
  | String c rest => P c && all_chars P rest
  end.

Lemma hex_digit_value d :
  d < 16 → hex_value (hex_digit d) = d ∧ is_hex (hex_digit d) = true.
Proof.
  intros Hd. do 16 (destruct d as [|d]; [by split|]). lia.
Qed.

Lemma hex_of_nat n :
  n < 256 →
  ∃ hi lo,
    padStart2 (toString16 n) = String hi (String lo EmptyString)
    ∧ is_hex hi = true ∧ is_hex lo = true
    ∧ 16 * hex_value hi + hex_value lo = n.
Proof.
  intros Hn. unfold toString16. destruct (Nat.ltb_spec n 16) as [Hlow|Hhigh].
  - exists (hex_digit 0), (hex_digit n).
    destruct (hex_digit_value n Hlow) as [-> ->]. by split_and!.
  - assert (Hhi : n / 16 < 16) by (apply Nat.Div0.div_lt_upper_bound; lia).
    assert (Hlo : n mod 16 < 16) by (apply Nat.mod_upper_bound; lia).
    exists (hex_digit (n / 16)), (hex_digit (n mod 16)).
    destruct (hex_digit_value _ Hhi) as [-> ->].
    destruct (hex_digit_value _ Hlo) as [-> ->].
    split_and!; [done|done|done|]. symmetry. apply Nat.div_mod_eq.
Qed.

Lemma hex_of_byte (b : byte) :
  ∃ hi lo,
    padStart2 (toString16 (nat_of_ascii (ascii_of_byte b)))
    = String hi (String lo EmptyString)
    ∧ is_hex hi = true ∧ is_hex lo = true
    ∧ byte_of_ascii (ascii_of_nat (16 * hex_value hi + hex_value lo)) = b.
Proof.
  destruct (hex_of_nat (nat_of_ascii (ascii_of_byte b)))
    as (hi & lo & Hpad & Hhi & Hlo & Hval); [apply nat_ascii_bounded|].
  exists hi, lo. split_and!; [done|done|done|].
  by rewrite Hval, ascii_nat_embedding, byte_of_ascii_of_byte.
Qed.

Lemma hex_of_hash_cons b hashArray :
  hex_of_hash (b :: hashArray)
  = padStart2 (toString16 (nat_of_ascii (ascii_of_byte b)))
    +:+ hex_of_hash hashArray.
Proof. done. Qed.

Lemma hash_of_hex_of_hash hashArray : hash_of_hex (hex_of_hash hashArray) = hashArray.
Proof.
  induction hashArray as [|b hashArray IH]; [done|].
  rewrite hex_of_hash_cons.
  destruct (hex_of_byte b) as (hi & lo & -> & _ & _ & Hb).
  change (String hi (String lo "") +:+ ?r) with (String hi (String lo r)).
  cbn [hash_of_hex]. by rewrite Hb, IH.
Qed.

(** X1. The hexadecimal digest has two characters per hash byte, all of them in
    [0-9a-f], and two hashes with the same digest string are the same
    hash: as a deduplication key the string loses nothing of the hash. *)
Theorem hex_digest_faithful (hash1 hash2 : bytes) :
  String.length (hex_of_hash hash1) = 2 * length hash1
  ∧ all_chars is_hex (hex_of_hash hash1) = true
  ∧ (hex_of_hash hash1 = hex_of_hash hash2 → hash1 = hash2).
Proof.
  split_and!.
  - induction hash1 as [|b hash1 IH]; [done|].
    rewrite hex_of_hash_cons.
    destruct (hex_of_byte b) as (hi & lo & -> & _).
    change (String hi (String lo "") +:+ ?r) with (String hi (String lo r)).
    cbn [String.length length]. rewrite IH. lia.
  - induction hash1 as [|b hash1 IH]; [done|].
    rewrite hex_of_hash_cons.
    destruct (hex_of_byte b) as (hi & lo & -> & Hhi & Hlo & _).
    change (String hi (String lo "") +:+ ?r) with (String hi (String lo r)).
    cbn [all_chars]. by rewrite Hhi, Hlo, IH.
  - intros Heq. rewrite <- (hash_of_hex_of_hash hash1), Heq.
    apply hash_of_hex_of_hash.
Qed.

Lemma hex_digest_faithful_witness :
  hex_of_hash ["a"; "000"]%byte = "6100"
  ∧ (hex_of_hash ["a"; "000"]%byte = hex_of_hash ["a"; "000"]%byte →
     ["a"; "000"]%byte = ["a"; "000"]%byte).
Proof.
  split; [reflexivity|].
  apply (hex_digest_faithful ["a"; "000"]%byte ["a"; "000"]%byte).
Defined.

(** ** handler: routing *)

(** What [handler] reads of a request: the method, [url.pathname], and the
    rest, which [uploadHandler] reads. *)
Record HttpRequest := mkHttpRequest {
  http_method : string;
  http_pathname : string;
  http_upload : Request;
}.

(** [s.startsWith(prefix)] *)
Definition startsWith (s prefix : string) : bool := String.prefix prefix s.

(** Lines 237-241: the identifier in a path under [/image/], when the last
    path segment is not empty. *)
Definition imageIdOfPath (pathname : string) : option string :=
  let pathParts := split_on "/" pathname in
  let filenameWithExtension := List.last pathParts "" in
  if truthy filenameWithExtension then
    let filenameParts := split_on "." filenameWithExtension in
    Some (hd "" filenameParts)
  else None.

Definition routeNotFound : Response := mkResponse 404 None (BodyText "Not Found").

Section Handler.
Variable calculateMd5' : bytes → string.
Variable chunkSize : nat.
(** [serveFile(request, "./index.html")] of the standard library. *)
Variable serveIndex : Prog Response.

(** Lines 228-252. *)
Definition handler (request : HttpRequest) : Prog Response :=
  let method := http_method request in
  let pathname := http_pathname request in
  if String.eqb method "POST" && String.eqb pathname "/upload" then
    uploadHandler calculateMd5' chunkSize (http_upload request)
  else
    match (if startsWith pathname "/image/" then imageIdOfPath pathname else None) with
    | Some imageId => serveImage imageId
    | None =>
        if String.eqb pathname "/" || String.eqb pathname "/index.html"
        then serveIndex
        else Ret routeNotFound
    end.
End Handler.

(** [c] occurs in [s]. *)
Fixpoint has_char (c : ascii) (s : string) : bool :=
  match s with
  | EmptyString => false
  | String c' rest => Ascii.eqb c' c || has_char c rest
  end.

Lemma split_on_plain sep s : has_char sep s = false → split_on sep s = [s].
Proof.
  induction s as [|c s IH]; [done|]. cbn [has_char split_on].
  intros [Hc Hs]%orb_false_elim. by rewrite Hc, (IH Hs).
Qed.

Lemma split_on_at_sep sep s t :
  has_char sep s = false →
  split_on sep (s +:+ String sep t) = s :: split_on sep t.
Proof.
  induction s as [|c s IH]; intros Hs.
  - change ("" +:+ ?r) with r. cbn [split_on]. by rewrite Ascii.eqb_refl.
  - cbn [has_char] in Hs. apply orb_false_elim in Hs as [Hc Hs].
    change (String c s +:+ ?r) with (String c (s +:+ r)).
    cbn [split_on]. by rewrite Hc, (IH Hs).
Qed.

Lemma append_cancel_l (s t1 t2 : string) : s +:+ t1 = s +:+ t2 → t1 = t2.
Proof.
  induction s as [|c s IH]; [done|].
  change (String c s +:+ ?r) with (String c (s +:+ r)). intros [= H]. by apply IH.
Qed.

Lemma has_char_app c s t : has_char c (s +:+ t) = has_char c s || has_char c t.
Proof.
  induction s as [|c' s IH]; [done|].
  change (String c' s +:+ ?r) with (String c' (s +:+ r)). cbn [has_char].
  by rewrite IH, orb_assoc.
Qed.

(** The path of an image URL: [/image/], the identifier, and the suffix
    the upload appended, which is empty or a dot and an extension. *)
Lemma imageIdOfPath_image imageId suffix :
  imageId ≠ "" → has_char "." imageId = false →
  has_char "/" (imageId +:+ suffix) = false →
  (suffix = "" ∨ ∃ extension, suffix = "." +:+ extension) →
  imageIdOfPath ("/image/" +:+ imageId +:+ suffix) = Some imageId.
Proof.
  intros Hne Hdot Hslash Hsuffix. unfold imageIdOfPath.
  change ("/image/" +:+ ?r) with ("" +:+ String "/" ("image" +:+ String "/" r)).
  rewrite split_on_at_sep by done. rewrite split_on_at_sep by done.
  rewrite split_on_plain by done. cbn [List.last].
  assert (Htruthy : truthy (imageId +:+ suffix) = true).
  { destruct imageId as [|c imageId]; [done|]. done. }
  rewrite Htruthy. f_equal.
  destruct Hsuffix as [->|[extension ->]].
  - assert (Hid : imageId +:+ "" = imageId).
    { clear. induction imageId as [|c s IH]; [done|].
      change (String c s +:+ "") with (String c (s +:+ "")). by rewrite IH. }
    rewrite Hid. by rewrite split_on_plain.
  - change ("." +:+ extension) with (String "." extension).
    by rewrite split_on_at_sep.
Qed.

Lemma append_nil_r (s : string) : s +:+ "" = s.
Proof.
  induction s as [|c s IH]; [done|].
  change (String c s +:+ "") with (String c (s +:+ "")). by rewrite IH.
Qed.

Lemma split_on_trailing sep s :
  ∃ parts, parts ≠ [] ∧ split_on sep (s +:+ String sep "") = parts ++ [""].
Proof.
  induction s as [|c s (parts & Hne & IH)].
  - exists [""]. split; [done|]. change ("" +:+ ?r) with r. cbn [split_on].
    by rewrite Ascii.eqb_refl.
  - change (String c s +:+ ?r) with (String c (s +:+ r)). cbn [split_on].
    rewrite IH. destruct (Ascii.eqb c sep).
    + by exists ("" :: parts).
    + destruct parts as [|part parts]; [done|]. by exists (String c part :: parts).
Qed.

(** The identifier of the cache lookup a handler starts with, if it starts
    with one. *)
Definition first_cache_lookup {A} (p : Prog A) : option string :=
  match p with
  | Vis op _ =>
      match op with
      | CacheGet imageId => Some imageId
      | _ => None
      end
  | _ => None
  end.

Lemma serveImage_inj imageId other : serveImage imageId = serveImage other → imageId = other.
Proof.
  intros Heq. apply (f_equal first_cache_lookup) in Heq.
  by injection Heq.
Qed.

Section HandlerRoutes.
Variable calculateMd5' : bytes → string.
Variable chunkSize : nat.
Variable serveIndex : Prog Response.

Abbreviation handler' := (handler calculateMd5' chunkSize serveIndex).

Lemma handler_image_path request rest :
  http_pathname request = "/image/" +:+ rest →
  handler' request
  = match imageIdOfPath (http_pathname request) with
    | Some imageId => serveImage imageId
    | None => Ret routeNotFound
    end.
Proof.
  intros Hpath. unfold handler. rewrite Hpath.
  change (String.eqb ("/image/" +:+ rest) "/upload") with false.
  rewrite andb_false_r.
  change (startsWith ("/image/" +:+ rest) "/image/") with (String.prefix "" rest).
  assert (Hprefix : String.prefix "" rest = true) by (by destruct rest).
  rewrite Hprefix.
  by change (String.eqb ("/image/" +:+ rest) "/"
             || String.eqb ("/image/" +:+ rest) "/index.html") with false.
Qed.

(** X2. A request whose path is [/image/], an identifier and nothing more,
    or [/image/], an identifier, a dot and an extension, is answered,
    whatever its method, by [serveImage] for exactly that identifier and
    for no other, provided the identifier is not empty and has no dot or
    slash (as a UUID) and the extension has no slash. The path is
    [url.pathname] as the URL parser of line 229 gives it. *)
Theorem handler_serves_image_path (request : HttpRequest)
    (imageId suffix : string) :
  imageId ≠ "" → has_char "." imageId = false → has_char "/" imageId = false →
  has_char "/" suffix = false →
  (suffix = "" ∨ ∃ extension, suffix = "." +:+ extension) →
  http_pathname request = "/image/" +:+ imageId +:+ suffix →
  handler' request = serveImage imageId
  ∧ ∀ other, other ≠ imageId → handler' request ≠ serveImage other.
Proof.
  intros Hne Hdot Hslash Hsuffix Hshape Hpath.
  assert (Hserves : handler' request = serveImage imageId).
  { rewrite (handler_image_path request (imageId +:+ suffix)) by done.
    rewrite Hpath, imageIdOfPath_image; [done|done|done| |done].
    by rewrite has_char_app, Hslash, Hsuffix. }
  split; [done|]. rewrite Hserves. intros other Hother Heq.
  by apply serveImage_inj in Heq.
Qed.

(** X3. A path under [/image/] that ends in a slash names no image: the
    request falls through to the last line of [handler] and gets the plain
    404 "Not Found", without any lookup. *)
Theorem handler_image_directory (request : HttpRequest) (dir : string) :
  http_pathname request = "/image/" +:+ dir +:+ "/" →
  handler' request = Ret routeNotFound.
Proof.
  intros Hpath.
  rewrite (handler_image_path request (dir +:+ "/")) by done.
  rewrite Hpath. unfold imageIdOfPath.
  change ("/image/" +:+ dir +:+ "/") with (("/image/" +:+ dir) +:+ String "/" "").
  destruct (split_on_trailing "/" ("/image/" +:+ dir)) as (parts & Hne & ->).
  by rewrite last_last.
Qed.
End HandlerRoutes.

Lemma handler_serves_image_path_witness :
  handler demo_md5 2 (Ret routeNotFound)
    (mkHttpRequest "GET" "/image/id-0.png" (mkRequest demo_origin None))
  = serveImage "id-0"
  ∧ ∀ other, other ≠ "id-0" →
      handler demo_md5 2 (Ret routeNotFound)
        (mkHttpRequest "GET" "/image/id-0.png" (mkRequest demo_origin None))
      ≠ serveImage other.
Proof.
  apply (handler_serves_image_path demo_md5 2 (Ret routeNotFound)
           (mkHttpRequest "GET" "/image/id-0.png" (mkRequest demo_origin None))
           "id-0" ".png");
    [discriminate|reflexivity|reflexivity|reflexivity
    |right; by exists "png"|reflexivity].
Defined.

Lemma handler_image_directory_witness :
  handler demo_md5 2 (Ret routeNotFound)
    (mkHttpRequest "GET" "/image/a/" (mkRequest demo_origin None))
  = Ret routeNotFound.
Proof.
  apply (handler_image_directory demo_md5 2 (Ret routeNotFound)
           (mkHttpRequest "GET" "/image/a/" (mkRequest demo_origin None)) "a").
  reflexivity.
Defined.

(** ** Uploads and reads end to end *)

Section EndToEnd.
Variable md5Of : bytes → string.
Variable randomUUID : nat → string.
Variable chunkSize : nat.

Abbreviation run := (exec randomUUID).
Abbreviation processFile' := (processFile md5Of chunkSize).

(** The read of a completed image whose chunks are all in the store and
    fit its declared size, when the cache does not hold it. *)
Lemma serve_from_store imageId imageMeta chunks fullImage w :
  quiet w → cache w !! imageId = None →
  kv_meta w !! imageId = Some imageMeta → meta_completed imageMeta = true →
  stored_chunks w imageId 0 (meta_chunks imageMeta) = Some chunks →
  joinChunks chunks (meta_size imageMeta) = Some fullImage →
  result (run (serveImage imageId) w) = inl (served imageMeta fullImage)
  ∧ final (run (serveImage imageId) w) = cached_in imageId fullImage w
  ∧ chunk_reads (run (serveImage imageId) w)
    = (imageId,.) <$> seq 0 (meta_chunks imageMeta).
Proof.
  intros Hq Hmiss Hmeta Hdone Hchunks Hjoin.
  rewrite run_serveImage by done. rewrite chunk_reads_log, reads_serve_run.
  rewrite reads_read_run. unfold serve_run, prepend, caught, read_run.
  rewrite Hmiss, Hmeta, Hdone, Hchunks, Hjoin. cbn [negb result final].
  split_and!; [done|done|].
  destruct (fetch_reads w imageId (meta_chunks imageMeta) 0) as (k & _ & -> & Hall).
  rewrite Hall; [done|]. by rewrite Hchunks.
Qed.

(** X5. An upload that stores, on a store that answers, followed by a read of
    the identifier it reported: the read answers 200 with exactly the
    uploaded bytes under the uploaded MIME type, after looking up every
    chunk once, in order; it leaves the image in the cache with an eviction
    timer pending. *)
Theorem upload_then_read (origin : string) (file : File) (w : World)
    (entry : ResultEntry) :
  1 ≤ chunkSize → quiet w → coherent w → fresh randomUUID w →
  let upload := run (processFile' origin file) w in
  result upload = inl entry → res_status entry ≠ "cached" →
  ∃ imageId,
    res_url entry = Some (imageUrlOf origin imageId (file_name file))
    ∧ let r := run (serveImage imageId) (final upload) in
      result r = inl (mkResponse 200 (Some (file_type file))
                        (BodyBytes (file_bytes file)))
      ∧ chunk_reads r
        = (imageId,.) <$> seq 0 (ceil_div (length (file_bytes file)) chunkSize)
      ∧ cache (final r) !! imageId = Some (file_bytes file)
      ∧ imageId ∈ timers (final r).
Proof.
  intros Hpos Hq Hco Hfr upload Hres Hstatus. subst upload.
  set (md5Hash := md5Of (file_bytes file)).
  pose proof (upload_target_unavailable randomUUID w md5Hash) as Htarget.
  unfold upload_target in Htarget.
  assert (Hstore : ∀ imageId isNew w0,
    quiet w0 → cache w0 !! imageId = None →
    let r := run (serveImage imageId) (stored chunkSize file imageId md5Hash isNew w0) in
    result r = inl (mkResponse 200 (Some (file_type file)) (BodyBytes (file_bytes file)))
    ∧ chunk_reads r
      = (imageId,.) <$> seq 0 (ceil_div (length (file_bytes file)) chunkSize)
    ∧ cache (final r) !! imageId = Some (file_bytes file)
    ∧ imageId ∈ timers (final r)).
  { intros imageId isNew w0 Hq0 Hmiss. cbn zeta.
    destruct (stored_fields chunkSize file imageId md5Hash isNew w0)
      as (Hmeta & _ & Hcache & _ & Hfaults & _).
    destruct (serve_from_store imageId
                (mark_completed (new_meta chunkSize file md5Hash (clock w0)))
                (splitChunks chunkSize (file_bytes file)) (file_bytes file)
                (stored chunkSize file imageId md5Hash isNew w0))
      as (-> & -> & ->).
    - unfold quiet. by rewrite Hfaults.
    - by rewrite Hcache.
    - by rewrite Hmeta, lookup_insert_eq.
    - done.
    - apply stored_chunks_of_stored.
    - by apply joinChunks_splitChunks.
    - split_and!; [done|done|apply lookup_insert_eq|].
      cbn. apply elem_of_app. right. by left. }
  rewrite run_processFile in Hres |- * by done. fold md5Hash in Hres |- *.
  destruct (decide_upload w md5Hash) as [imageId|imageId|] eqn:Hdec.
  - injection Hres as <-. done.
  - injection Hres as <-. exists imageId. split; [done|].
    destruct (Htarget imageId false Hq Hco Hfr eq_refl) as (_ & Hmiss & _).
    by apply Hstore.
  - injection Hres as <-. exists (randomUUID (uuid_next w)). split; [done|].
    destruct (Htarget _ true Hq Hco Hfr eq_refl) as (_ & Hmiss & _).
    by apply Hstore.
Qed.

(** X6. A read that answered 200 on a store that answers can be repeated: the
    next read gives the same response from the cache, without a chunk
    lookup and without changing the world; and if the first read was not
    itself a cache hit, the read after the eviction timer has fired gives
    the same response again, from the store. *)
Theorem serve_again (imageId : string) (w : World) (response : Response) :
  quiet w →
  result (run (serveImage imageId) w) = inl response →
  resp_status response = 200 →
  let w1 := final (run (serveImage imageId) w) in
  result (run (serveImage imageId) w1) = inl response
  ∧ chunk_reads (run (serveImage imageId) w1) = []
  ∧ final (run (serveImage imageId) w1) = w1
  ∧ (cache w !! imageId = None →
     result (run (serveImage imageId) (fire_timer imageId w1)) = inl response).
Proof.
  intros Hq Hres Hstatus w1. subst w1.
  rewrite (run_serveImage randomUUID imageId w) in Hres |- * by done.
  rewrite result_serve_run in Hres.
  assert (Hhit : ∀ w' imageMeta image,
    quiet w' → cache w' !! imageId = Some image →
    kv_meta w' !! imageId = Some imageMeta →
    result (run (serveImage imageId) w') = inl (served imageMeta image)
    ∧ chunk_reads (run (serveImage imageId) w') = []
    ∧ final (run (serveImage imageId) w') = w').
  { intros w' imageMeta image Hq' Hc Hm. rewrite run_serveImage by done.
    rewrite chunk_reads_log, reads_serve_run. unfold serve_run.
    by rewrite Hc, Hm. }
  destruct (cache w !! imageId) as [image|] eqn:Hcache.
  - destruct (kv_meta w !! imageId) as [imageMeta|] eqn:Hmeta.
    + injection Hres as <-. unfold serve_run. rewrite Hcache, Hmeta.
      cbn [final]. destruct (Hhit w imageMeta image) as (-> & -> & ->); done.
    + exfalso. rewrite result_caught in Hres. unfold read_run in Hres.
      rewrite Hmeta in Hres. injection Hres as <-. discriminate Hstatus.
  - rewrite result_caught in Hres. unfold serve_run, prepend, caught.
    rewrite Hcache. unfold read_run in Hres |- *.
    destruct (kv_meta w !! imageId) as [imageMeta|] eqn:Hmeta;
      [|injection Hres as <-; discriminate Hstatus].
    destruct (meta_completed imageMeta) eqn:Hdone; cbn [negb] in Hres |- *;
      [|injection Hres as <-; discriminate Hstatus].
    destruct (stored_chunks w imageId 0 (meta_chunks imageMeta)) as [chunks|]
      eqn:Hchunks; [|injection Hres as <-; discriminate Hstatus].
    destruct (joinChunks chunks (meta_size imageMeta)) as [fullImage|] eqn:Hjoin;
      [|injection Hres as <-; discriminate Hstatus].
    cbn [result final] in Hres |- *. injection Hres as <-.
    destruct (Hhit (cached_in imageId fullImage w) imageMeta fullImage)
      as (-> & -> & ->); [done|apply lookup_insert_eq|done|].
    split_and!; [done|done|done|]. intros _.
    destruct (serve_from_store imageId imageMeta chunks fullImage
                (fire_timer imageId (cached_in imageId fullImage w)))
      as (-> & _); try done.
    + cbn. apply lookup_delete_eq.
    + by destruct (fetch_agree w (fire_timer imageId (cached_in imageId fullImage w))
                     imageId (meta_chunks imageMeta) 0) as [-> _].
Qed.
End EndToEnd.

(** ** Invariants of the handlers, stage by stage *)

Section Stages.
Variable md5Of : bytes → string.
Variable randomUUID : nat → string.
Variable chunkSize : nat.

Abbreviation run := (exec randomUUID).
Abbreviation triple' := (triple randomUUID).

(** A property of the world that does not look at the failure plan. *)
Definition fault_blind (P : World → Prop) : Prop :=
  ∀ w fs, P w → P (with_faults fs w).

Lemma triple_weaken {A} (P P' : World → Prop) (p : Prog A) Q E :
  (∀ w, P' w → P w) → triple' P p Q E → triple' P' p Q E.
Proof. intros HP Hp w Hw. by apply Hp, HP. Qed.

Lemma triple_for_range_indexed (J : nat → World → Prop) E body count : ∀ start,
  (∀ i, start ≤ i < start + count → triple' (J i) (body i) (λ _, J (S i)) E) →
  triple' (J start) (for_range start count body) (λ _, J (start + count)) E.
Proof.
  induction count as [|count IH]; intros start Hbody.
  - apply triple_ret. intros w Hw. by rewrite Nat.add_0_r.
  - cbn [for_range]. eapply triple_bind; [apply Hbody; lia|].
    intros ?. replace (start + S count) with (S start + count) by lia.
    apply IH. intros i Hi. apply Hbody. lia.
Qed.

(** [storeImage], through three stages: before the first commit ([J0]),
    after it with [k] chunks written ([J1 now k]), and after the completing
    write ([Jf]). *)
Lemma triple_storeImage_stages origin file imageId md5Hash isNew
    (J0 : World → Prop) (J1 : nat → nat → World → Prop) (Jf E : World → Prop) :
  let imageBytes := file_bytes file in
  let count := ceil_div (length imageBytes) chunkSize in
  fault_blind J0 → (∀ now k, fault_blind (J1 now k)) →
  (∀ w, J0 w → E w) → (∀ now k w, J1 now k w → E w) →
  (∀ w, J0 w →
     J1 (clock w) 0
       (foldl apply_mutation w
          (first_commit chunkSize file imageId md5Hash isNew (clock w)))) →
  (∀ now k w, J1 now k w → k < count →
     J1 now (S k)
       (with_kv_chunk <[(imageId, k) := chunkAt chunkSize imageBytes k]> w)) →
  (∀ now w, J1 now count w →
     Jf (with_kv_meta
           <[imageId := mark_completed (new_meta chunkSize file md5Hash now)]> w)) →
  triple' J0 (storeImage chunkSize origin file imageId md5Hash isNew)
    (λ _, Jf) E.
Proof.
  intros imageBytes count Hblind0 Hblind1 HE0 HE1 Hcommit Hchunk Hfinal.
  unfold storeImage.
  eapply triple_bind with (R := λ now w, J0 w ∧ clock w = now).
  { apply triple_await; [apply Hblind0|apply HE0|done]. }
  intros now. eapply triple_bind with (R := λ _, J1 now 0).
  { apply triple_await.
    - intros w fs [? ?]. split; [by apply Hblind0|done].
    - intros w [? _]. by apply HE0.
    - intros w [Hw <-]. by apply Hcommit. }
  intros ?. eapply triple_bind with (R := λ _, J1 now (0 + count)).
  { apply (triple_for_range_indexed (J1 now)). intros i Hi.
    apply triple_await; [apply Hblind1|apply HE1|].
    intros w Hw. apply Hchunk; [done|lia]. }
  intros ?. eapply triple_bind with (R := λ _, Jf).
  { apply triple_await; [apply Hblind1|apply HE1|].
    intros w Hw. by apply Hfinal. }
  intros ?. by apply triple_ret.
Qed.

(** [processFile]: an invariant [I] of the world, given what the two
    storing branches start from. *)
Lemma triple_processFile_stages origin file (I : World → Prop)
    (J0 : string → bool → World → Prop) :
  let md5Hash := md5Of (file_bytes file) in
  fault_blind I →
  (∀ imageId isNew,
     triple' (J0 imageId isNew)
       (storeImage chunkSize origin file imageId md5Hash isNew) (λ _, I) I) →
  (∀ w imageId, I w →
     kv_md5 w !! md5Hash = Some imageId → truthy imageId = true →
     (∀ m, kv_meta w !! imageId = Some m → meta_completed m = false) →
     J0 imageId false w) →
  (∀ w, I w →
     (∀ imageId, kv_md5 w !! md5Hash = Some imageId → truthy imageId = false) →
     J0 (randomUUID (uuid_next w)) true (drew_uuid w)) →
  triple' I (processFile md5Of chunkSize origin file) (λ _, I) I.
Proof.
  intros md5Hash Hblind Hstore Hover Hcreate. unfold processFile. fold md5Hash.
  assert (Hnew : triple'
            (λ w, I w ∧ ∀ imageId, kv_md5 w !! md5Hash = Some imageId →
                                   truthy imageId = false)
            (imageId ← await RandomUUID;
             storeImage chunkSize origin file imageId md5Hash true)
            (λ _, I) I).
  { eapply triple_bind with (R := λ imageId, J0 imageId true).
    - apply triple_await.
      + intros w fs [? ?]. split; [by apply Hblind|done].
      + by intros w [? _].
      + intros w [Hw Hunindexed]. by apply Hcreate.
    - intros imageId. apply Hstore. }
  eapply triple_bind
    with (R := λ entry w, I w ∧ entry = kv_md5 w !! md5Hash).
  { apply triple_await; [done|done|done]. }
  intros [existingImageId|].
  2:{ eapply triple_weaken; [|apply Hnew]. intros w [Hw Hentry].
      split; [done|]. intros imageId. by rewrite <- Hentry. }
  destruct (truthy existingImageId) eqn:Htruthy.
  2:{ eapply triple_weaken; [|apply Hnew]. intros w [Hw Hentry].
      split; [done|]. intros imageId. rewrite <- Hentry. by intros [= <-]. }
  eapply triple_bind
    with (R := λ entry w, I w ∧ Some existingImageId = kv_md5 w !! md5Hash
                          ∧ entry = kv_meta w !! existingImageId).
  { apply triple_await.
    - intros w fs [? ?]. split; [by apply Hblind|done].
    - by intros w [? _].
    - by intros w [? ?]. }
  assert (Hincomplete : ∀ existingMetaEntry : option ImageMeta,
    (∀ m, existingMetaEntry = Some m → meta_completed m = false) →
    triple' (λ w, I w ∧ Some existingImageId = kv_md5 w !! md5Hash
                  ∧ existingMetaEntry = kv_meta w !! existingImageId)
      (storeImage chunkSize origin file existingImageId md5Hash false)
      (λ _, I) I).
  { intros existingMetaEntry Hinc. eapply triple_weaken; [|apply Hstore].
    intros w (Hw & Hidx & Hentry). apply Hover; [done|done|done|].
    intros m Hm. apply Hinc. by rewrite Hentry. }
  intros [existingMeta|].
  - destruct (meta_completed existingMeta) eqn:Hdone.
    + apply triple_ret. by intros w [? _].
    + apply Hincomplete. by intros m [= <-].
  - by apply Hincomplete.
Qed.

Lemma triple_uploadHandler_stages (I : World → Prop) request :
  (∀ origin file,
     triple' I (processFile md5Of chunkSize origin file) (λ _, I) I) →
  triple' I (uploadHandler md5Of chunkSize request) (λ _, I) I.
Proof.
  intros Hfile. unfold uploadHandler.
  eapply triple_try_catch with (E' := I); [|intros e; by apply triple_ret].
  destruct (req_files request) as [files|]; [|by apply triple_throw].
  destruct (length files =? 0); [by apply triple_ret|].
  eapply triple_bind with (R := λ _, I); [|intros results; by apply triple_ret].
  generalize (@nil ResultEntry).
  induction files as [|file rest IH]; intros results; [by apply triple_ret|].
  cbn [uploadLoop]. eapply triple_bind with (R := λ _, I); [|intros r; apply IH].
  destruct file as [value|file]; cbn [processEntry]; [by apply triple_ret|].
  eapply triple_try_catch; [apply Hfile|]. intros e. by apply triple_ret.
Qed.

(** An operation that is not a call on the store cannot throw. *)
Lemma triple_await_local {X} (op : Op X) (P : World → Prop) Q E :
  is_kv op = false →
  (∀ w, P w → Q (apply_op randomUUID op w).1 (apply_op randomUUID op w).2) →
  triple' P (await op) Q E.
Proof.
  intros Hlocal HQ w Hw. rewrite exec_await. cbn [result final].
  unfold perform, answer_of. rewrite Hlocal.
  specialize (HQ w Hw). by destruct (apply_op randomUUID op w).
Qed.

(** The fetch loop returns the chunk records the store holds. *)
Lemma triple_fetchChunks_exact (I E : World → Prop) (w0 : World) imageId count :
  fault_blind I → (∀ w, I w → E w) →
  ∀ i chunks,
  triple' (λ w, I w ∧ kv_chunk w = kv_chunk w0)
    (fetchChunks imageId i count chunks)
    (λ fetched w,
       I w ∧ kv_chunk w = kv_chunk w0
       ∧ ∀ all, fetched = inr all →
                ∃ found, all = chunks ++ found
                         ∧ stored_chunks w0 imageId i count = Some found)
    E.
Proof.
  intros Hblind HE. induction count as [|count IH]; intros i chunks.
  - apply triple_ret. intros w [Hw Hc]. split_and!; [done|done|].
    intros all [= <-]. exists []. by rewrite app_nil_r.
  - cbn [fetchChunks].
    eapply triple_bind
      with (R := λ entry w, I w ∧ kv_chunk w = kv_chunk w0
                            ∧ entry = kv_chunk w0 !! (imageId, i)).
    { apply triple_await.
      - intros w fs [? ?]. split; [by apply Hblind|done].
      - intros w [? _]. by apply HE.
      - intros w [Hw Hc]. cbn. by rewrite Hc. }
    intros [chunk|].
    + intros w (Hw & Hc & Hentry).
      specialize (IH (S i) (chunks ++ [chunk]) w (conj Hw Hc)).
      destruct (result (run (fetchChunks imageId (S i) count (chunks ++ [chunk])) w))
        as [fetched|e]; [|done].
      destruct IH as (HI & Hc' & Hall). split_and!; [done|done|].
      intros all Hfetched. destruct (Hall all Hfetched) as (found & -> & Hfound).
      exists (chunk :: found). rewrite <- app_assoc. split; [done|].
      cbn [stored_chunks]. by rewrite <- Hentry, Hfound.
    + apply triple_ret. intros w (Hw & Hc & Hentry). split_and!; [done|done|done].
Qed.

(** [serveImage]: an invariant [I] of the world, given that it survives
    caching what the store holds for a completed image ([I'] holds between
    [cache.set] and [setTimeout]). *)
Lemma triple_serveImage_stages imageId (I I' : World → Prop) :
  fault_blind I → fault_blind I' →
  (∀ w imageMeta chunks fullImage,
     I w → kv_meta w !! imageId = Some imageMeta →
     meta_completed imageMeta = true →
     stored_chunks w imageId 0 (meta_chunks imageMeta) = Some chunks →
     joinChunks chunks (meta_size imageMeta) = Some fullImage →
     I' (with_cache <[imageId := fullImage]> w)) →
  (∀ w, I' w → I (with_timers (λ ts, ts ++ [imageId]) w)) →
  triple' I (serveImage imageId) (λ _, I) I.
Proof.
  intros Hblind Hblind' Hcache Htimer.
  assert (Hread : triple' I (readImage imageId) (λ _, I) I).
  { unfold readImage.
    eapply triple_bind
      with (R := λ entry w, I w ∧ entry = kv_meta w !! imageId).
    { apply triple_await; done. }
    intros [imageMeta|]; [|apply triple_ret; by intros w [? _]].
    destruct (meta_completed imageMeta) eqn:Hdone; cbn [negb];
      [|apply triple_ret; by intros w [? _]].
    intros w0 [Hw0 Hmeta0].
    pose (K := λ w, I w ∧ kv_meta w !! imageId = Some imageMeta).
    assert (HblindK : fault_blind K).
    { intros w fs [? ?]. split; [by apply Hblind|done]. }
    assert (Hrest : triple' (λ w, K w ∧ kv_chunk w = kv_chunk w0)
      (fetched ← fetchChunks imageId 0 (meta_chunks imageMeta) [];
       match fetched with
       | inl response => Ret response
       | inr chunks =>
           match joinChunks chunks (meta_size imageMeta) with
           | None => Throw "RangeError"
           | Some fullImage =>
               await (CacheSet imageId fullImage);;
               await (SetTimeout imageId);;
               Ret (mkResponse 200 (Some (meta_type imageMeta)) (BodyBytes fullImage))
           end
       end) (λ _, I) I).
    2:{ apply Hrest. split; [split|]; done. }
    eapply triple_bind.
    { apply (triple_fetchChunks_exact K I w0 imageId (meta_chunks imageMeta) HblindK);
        by intros w [? _]. }
    intros [response|chunks]; [apply triple_ret; by intros w [[? _] _]|].
    destruct (joinChunks chunks (meta_size imageMeta)) as [fullImage|] eqn:Hjoin;
      [|apply triple_throw; by intros w [[? _] _]].
    eapply triple_bind with (R := λ _, I').
    { apply triple_await.
      - intros w fs (HK & Hc & Hall). split_and!; [by apply HblindK|done|done].
      - by intros w [[? _] _].
      - intros w ([Hw Hmeta] & Hc & Hall).
        destruct (Hall chunks eq_refl) as (found & -> & Hfound).
        apply (Hcache w imageMeta found fullImage); [done|done|done| |done].
        rewrite <- Hfound.
        destruct (fetch_agree w0 w imageId (meta_chunks imageMeta) 0) as [-> _];
          [intros; by rewrite Hc|done]. }
    intros ?. eapply triple_bind with (R := λ _, I).
    { apply triple_await_local; [done|]. intros w Hw. by apply Htimer. }
    intros ?. by apply triple_ret. }
  unfold serveImage.
  eapply triple_try_catch with (E' := I); [|intros e; by apply triple_ret].
  eapply triple_bind with (R := λ _, I).
  { apply triple_await; done. }
  intros [image|]; [|apply Hread].
  eapply triple_bind with (R := λ _, I).
  { apply triple_await; done. }
  intros [imageMeta|]; [by apply triple_ret|apply Hread].
Qed.
End Stages.

(** ** What the handlers never do *)

Section Frames.
Variable md5Of : bytes → string.
Variable randomUUID : nat → string.
Variable chunkSize : nat.

Abbreviation run := (exec randomUUID).
Abbreviation triple' := (triple randomUUID).

(** A [try] whose [catch] returns does not throw. *)
Lemma run_try_catch_returns {A} (p : Prog A) (fallback : A) w :
  ∃ a, result (run (try_catch p (λ _, Ret fallback)) w) = inl a
       ∧ (may_return p a ∨ a = fallback).
Proof.
  rewrite exec_try_catch. unfold run_catch.
  destruct (result (run p w)) as [a|e] eqn:Hres.
  - exists a. split; [done|]. left. by apply (run_may_return randomUUID p w).
  - exists fallback. split; [done|by right].
Qed.

Lemma may_return_uploadHandler_body request response :
  may_return
    (match req_files request with
     | None => Throw "formData"
     | Some files =>
         if length files =? 0 then
           Ret (mkResponse 400 None (BodyText "No files uploaded"))
         else
           results ← uploadLoop md5Of chunkSize (req_origin request) files [];
           let status := if existsb is_error results then 500 else 200 in
           Ret (mkResponse status (Some "application/json") (BodyJson results))
     end) response →
  resp_status response = 200 ∨ resp_status response = 400
  ∨ resp_status response = 500.
Proof.
  destruct (req_files request) as [files|]; [|done].
  destruct (length files =? 0).
  - intros <-. auto.
  - intros H. apply may_return_bind in H as (results & _ & H). simpl in H.
    subst response. simpl. destruct (existsb is_error results); auto.
Qed.

(** X7. [uploadHandler] always answers, with status 200, 400 or 500, whatever
    the store does, and it leaves the cache and its timers as they were. *)
Theorem uploadHandler_answers_and_spares_cache (request : Request) (w : World) :
  let r := run (uploadHandler md5Of chunkSize request) w in
  (∃ response, result r = inl response
               ∧ (resp_status response = 200 ∨ resp_status response = 400
                  ∨ resp_status response = 500))
  ∧ cache (final r) = cache w ∧ timers (final r) = timers w.
Proof.
  intros r. subst r. split.
  - unfold uploadHandler.
    destruct (run_try_catch_returns
                (match req_files request with
                 | None => Throw "formData"
                 | Some files =>
                     if length files =? 0 then
                       Ret (mkResponse 400 None (BodyText "No files uploaded"))
                     else
                       results ← uploadLoop md5Of chunkSize (req_origin request)
                                   files [];
                       let status := if existsb is_error results then 500 else 200 in
                       Ret (mkResponse status (Some "application/json")
                              (BodyJson results))
                 end)
                (mkResponse 500 None (BodyText "Internal Server Error")) w)
      as (response & Hres & Hwhich).
    exists response. split; [exact Hres|].
    destruct Hwhich as [Hbody| ->]; [|auto].
    by apply may_return_uploadHandler_body in Hbody.
  - pose (I := λ w' : World, cache w' = cache w ∧ timers w' = timers w).
    assert (Hblind : fault_blind I) by (by intros w' fs [? ?]).
    assert (Hupload : triple' I (uploadHandler md5Of chunkSize request) (λ _, I) I).
    { apply triple_uploadHandler_stages. intros origin file.
      apply (triple_processFile_stages md5Of randomUUID chunkSize origin file I
               (λ _ _, I)); [done| |done|done].
      intros imageId isNew.
      apply (triple_storeImage_stages randomUUID chunkSize origin file imageId _
               isNew I (λ _ _, I) I I); try done.
      - intros w' [? ?]. unfold first_commit. by destruct isNew. }
    specialize (Hupload w (conj eq_refl eq_refl)).
    by destruct (result (run (uploadHandler md5Of chunkSize request) w)).
Qed.

Lemma may_return_fetchChunks imageId count : ∀ i chunks response,
  may_return (fetchChunks imageId i count chunks) (inl response) →
  response = dataIncomplete.
Proof.
  induction count as [|count IH]; intros i chunks response; [done|].
  cbn [fetchChunks]. intros H.
  apply may_return_bind in H as ([chunk|] & _ & H); [by apply IH in H|].
  simpl in H. by injection H as <-.
Qed.

Lemma may_return_readImage imageId response :
  may_return (readImage imageId) response →
  resp_status response = 200 ∨ resp_status response = 404
  ∨ resp_status response = 500.
Proof.
  unfold readImage. intros H.
  apply may_return_bind in H as ([imageMeta|] & _ & H);
    [|simpl in H; subst response; auto].
  destruct (meta_completed imageMeta); cbn [negb] in H;
    [|simpl in H; subst response; auto].
  apply may_return_bind in H as ([failure|chunks] & Hfetch & H).
  - simpl in H. subst failure. apply may_return_fetchChunks in Hfetch as ->. auto.
  - destruct (joinChunks chunks (meta_size imageMeta)) as [fullImage|]; [|done].
    apply may_return_bind in H as (? & _ & H).
    apply may_return_bind in H as (? & _ & H).
    simpl in H. subst response. auto.
Qed.

(** X8. [serveImage] always answers, with status 200, 404 or 500, whatever the
    store does, and it writes nothing to the store: metadata, chunk records
    and digest index are as they were. *)
Theorem serveImage_answers_and_spares_store (imageId : string) (w : World) :
  let r := run (serveImage imageId) w in
  (∃ response, result r = inl response
               ∧ (resp_status response = 200 ∨ resp_status response = 404
                  ∨ resp_status response = 500))
  ∧ kv_meta (final r) = kv_meta w ∧ kv_chunk (final r) = kv_chunk w
  ∧ kv_md5 (final r) = kv_md5 w.
Proof.
  intros r. subst r. split.
  - unfold serveImage.
    destruct (run_try_catch_returns
                (cachedImage ← await (CacheGet imageId);
                 match cachedImage with
                 | Some image =>
                     meta ← await (KvGetMeta imageId);
                     match meta with
                     | Some imageMeta =>
                         Ret (mkResponse 200 (Some (meta_type imageMeta))
                                (BodyBytes image))
                     | None => readImage imageId
                     end
                 | None => readImage imageId
                 end) internalError w)
      as (response & Hres & Hwhich).
    exists response. split; [exact Hres|].
    destruct Hwhich as [Hbody| ->]; [|auto].
    apply may_return_bind in Hbody as ([image|] & _ & Hbody);
      [|by apply may_return_readImage in Hbody].
    apply may_return_bind in Hbody as ([imageMeta|] & _ & Hbody);
      [|by apply may_return_readImage in Hbody].
    simpl in Hbody. subst response. auto.
  - pose (I := λ w' : World, kv_meta w' = kv_meta w ∧ kv_chunk w' = kv_chunk w
                             ∧ kv_md5 w' = kv_md5 w).
    assert (Hserve : triple' I (serveImage imageId) (λ _, I) I).
    { apply (triple_serveImage_stages randomUUID imageId I I).
      - by intros w' fs (? & ? & ?).
      - by intros w' fs (? & ? & ?).
      - by intros w' imageMeta chunks fullImage (? & ? & ?) _ _ _ _.
      - by intros w' (? & ? & ?). }
    specialize (Hserve w ltac:(by split_and!)).
    by destruct (result (run (serveImage imageId) w)).
Qed.
End Frames.

(** ** The store of a server that handles one request at a time *)

Section Sound.
Variable md5Of : bytes → string.
Variable randomUUID : nat → string.
Variable chunkSize : nat.
Hypothesis randomUUID_inj : Inj (=) (=) randomUUID.

Abbreviation run := (exec randomUUID).
Abbreviation triple' := (triple randomUUID).
Abbreviation well_formed' := (well_formed randomUUID).
Abbreviation issued' := (issued randomUUID).

(** The chunk records of a completed image are those of a payload that has
    the size, the chunk count and the digest of the metadata record. *)
Definition intact (w : World) (imageId : string) (imageMeta : ImageMeta) : Prop :=
  ∃ payload,
    meta_size imageMeta = length payload
    ∧ meta_chunks imageMeta = ceil_div (length payload) chunkSize
    ∧ meta_md5 imageMeta = md5Of payload
    ∧ stored_chunks w imageId 0 (meta_chunks imageMeta)
      = Some (splitChunks chunkSize payload).

(** The cache holds what a read from the store would reassemble. *)
Definition cached_from_store (w : World) (imageId : string) (image : bytes) : Prop :=
  ∃ imageMeta chunks,
    kv_meta w !! imageId = Some imageMeta ∧ meta_completed imageMeta = true
    ∧ stored_chunks w imageId 0 (meta_chunks imageMeta) = Some chunks
    ∧ joinChunks chunks (meta_size imageMeta) = Some image.

Record sound (w : World) : Prop := mkSound {
  sound_wf : well_formed' w;
  sound_intact : ∀ imageId imageMeta,
    kv_meta w !! imageId = Some imageMeta → meta_completed imageMeta = true →
    intact w imageId imageMeta;
  sound_cache : ∀ imageId image,
    cache w !! imageId = Some image → cached_from_store w imageId image;
  sound_index : ∀ md5Hash imageId imageMeta,
    kv_md5 w !! md5Hash = Some imageId → kv_meta w !! imageId = Some imageMeta →
    meta_md5 imageMeta = md5Hash;
  sound_index_inj : ∀ md5Hash1 md5Hash2 imageId,
    kv_md5 w !! md5Hash1 = Some imageId → kv_md5 w !! md5Hash2 = Some imageId →
    md5Hash1 = md5Hash2;
}.

(** Nothing that was completed or indexed in [w0] has changed in [w]. *)
Definition keeps (w0 w : World) : Prop :=
  (∀ imageId imageMeta,
     kv_meta w0 !! imageId = Some imageMeta → meta_completed imageMeta = true →
     kv_meta w !! imageId = Some imageMeta
     ∧ ∀ i, kv_chunk w !! (imageId, i) = kv_chunk w0 !! (imageId, i))
  ∧ (∀ md5Hash imageId,
       kv_md5 w0 !! md5Hash = Some imageId → truthy imageId = true →
       kv_md5 w !! md5Hash = Some imageId).

Lemma keeps_refl w : keeps w w.
Proof. split; [by intros imageId imageMeta ? ?|by intros md5Hash imageId ? ?]. Qed.

Lemma keeps_trans w0 w1 w2 : keeps w0 w1 → keeps w1 w2 → keeps w0 w2.
Proof.
  intros [Hobj01 Hidx01] [Hobj12 Hidx12]. split.
  - intros imageId imageMeta Hm Hdone.
    destruct (Hobj01 imageId imageMeta Hm Hdone) as [Hm1 Hc1].
    destruct (Hobj12 imageId imageMeta Hm1 Hdone) as [Hm2 Hc2].
    split; [done|]. intros i. by rewrite Hc2, Hc1.
  - intros md5Hash imageId Hidx Htruthy. apply Hidx12; [|done]. by apply Hidx01.
Qed.

Lemma stored_chunks_agree (w w' : World) imageId start count :
  (∀ i, kv_chunk w' !! (imageId, i) = kv_chunk w !! (imageId, i)) →
  stored_chunks w' imageId start count = stored_chunks w imageId start count.
Proof. intros Hagree. by destruct (fetch_agree w w' imageId count start) as [-> _]. Qed.

(** A step that touches the records of one image, which is neither
    completed nor cached, keeps the store sound if the index stays
    consistent. *)
Lemma sound_step (w w' : World) (touched : string) :
  sound w → well_formed' w' →
  cache w' = cache w → cache w !! touched = None →
  (∀ imageId, imageId ≠ touched →
     kv_meta w' !! imageId = kv_meta w !! imageId
     ∧ ∀ i, kv_chunk w' !! (imageId, i) = kv_chunk w !! (imageId, i)) →
  (∀ imageMeta, kv_meta w' !! touched = Some imageMeta →
     meta_completed imageMeta = true → intact w' touched imageMeta) →
  (∀ md5Hash imageId imageMeta,
     kv_md5 w' !! md5Hash = Some imageId → kv_meta w' !! imageId = Some imageMeta →
     meta_md5 imageMeta = md5Hash) →
  (∀ md5Hash1 md5Hash2 imageId,
     kv_md5 w' !! md5Hash1 = Some imageId → kv_md5 w' !! md5Hash2 = Some imageId →
     md5Hash1 = md5Hash2) →
  sound w'.
Proof.
  intros Hs Hwf Hcache Hmiss Hothers Htouched Hindex Hinj.
  split; [done| | |done|done].
  - intros imageId imageMeta Hm Hdone.
    destruct (decide (imageId = touched)) as [->|Hne]; [by apply Htouched|].
    destruct (Hothers imageId Hne) as [Hmeta Hchunks]. rewrite Hmeta in Hm.
    destruct (sound_intact w Hs imageId imageMeta Hm Hdone)
      as (payload & ? & ? & ? & Hstored).
    exists payload. split_and!; [done|done|done|].
    by rewrite (stored_chunks_agree w w').
  - intros imageId image. rewrite Hcache. intros Hc.
    assert (Hne : imageId ≠ touched) by (intros ->; congruence).
    destruct (Hothers imageId Hne) as [Hmeta Hchunks].
    destruct (sound_cache w Hs imageId image Hc)
      as (imageMeta & chunks & ? & ? & ? & ?).
    exists imageMeta, chunks. rewrite Hmeta. split_and!; [done|done| |done].
    by rewrite (stored_chunks_agree w w').
Qed.

(** Soundness only looks at the store and the cache. *)
Lemma sound_same_store (w w' : World) :
  sound w → well_formed' w' →
  kv_meta w' = kv_meta w → kv_chunk w' = kv_chunk w → kv_md5 w' = kv_md5 w →
  cache w' = cache w →
  sound w'.
Proof.
  intros [Hwf Hintact Hcached Hindex Hinj] Hwf' Hmeta Hchunk Hmd5 Hcache.
  split; [done| | | |]; rewrite ?Hmeta, ?Hmd5, ?Hcache; [| |done|done].
  - intros imageId imageMeta Hm Hdone.
    destruct (Hintact imageId imageMeta Hm Hdone) as (payload & ? & ? & ? & ?).
    exists payload. split_and!; [done|done|done|].
    rewrite (stored_chunks_agree w w'); [done|]. intros i. by rewrite Hchunk.
  - intros imageId image Hc.
    destruct (Hcached imageId image Hc) as (imageMeta & chunks & ? & ? & ? & ?).
    exists imageMeta, chunks. rewrite Hmeta. split_and!; [done|done| |done].
    rewrite (stored_chunks_agree w w'); [done|]. intros i. by rewrite Hchunk.
Qed.

Lemma sound_blind : fault_blind sound.
Proof.
  intros w fs Hs. apply (sound_same_store w); [done| |done|done|done|done].
  apply (sound_wf w Hs).
Qed.

Section Storing.
Variable w0 : World.
Variable file : File.

Abbreviation md5Hash := (md5Of (file_bytes file)).

(** Before the first commit of an upload that stores under [imageId]. *)
Record starting (imageId : string) (isNew : bool) (w : World) : Prop := mkStarting {
  st_sound : sound w;
  st_keeps : keeps w0 w;
  st_issued : issued' w imageId;
  st_miss : cache w !! imageId = None;
  st_incomplete : ∀ imageMeta,
    kv_meta w !! imageId = Some imageMeta → meta_completed imageMeta = false;
  st_index :
    if isNew
    then (∀ d, kv_md5 w !! d ≠ Some imageId)
         ∧ (∀ other, kv_md5 w !! md5Hash = Some other → truthy other = false)
    else kv_md5 w !! md5Hash = Some imageId;
}.

(** After the first commit, with the chunks below [k] written. *)
Record writing (imageId : string) (now k : nat) (w : World) : Prop := mkWriting {
  wr_sound : sound w;
  wr_keeps : keeps w0 w;
  wr_issued : issued' w imageId;
  wr_miss : cache w !! imageId = None;
  wr_meta : kv_meta w !! imageId = Some (new_meta chunkSize file md5Hash now);
  wr_index : kv_md5 w !! md5Hash = Some imageId;
  wr_chunks : ∀ i, i < k →
    kv_chunk w !! (imageId, i) = Some (chunkAt chunkSize (file_bytes file) i);
}.

Lemma starting_blind imageId isNew : fault_blind (starting imageId isNew).
Proof. intros w fs [? ? ? ? ? ?]. split; try done. by apply sound_blind. Qed.

Lemma writing_blind imageId now k : fault_blind (writing imageId now k).
Proof. intros w fs [? ? ? ? ? ? ?]. split; try done. by apply sound_blind. Qed.

Lemma keeps_not_completed imageId w :
  keeps w0 w →
  (∀ imageMeta, kv_meta w !! imageId = Some imageMeta →
                meta_completed imageMeta = false) →
  ∀ imageMeta, kv_meta w0 !! imageId = Some imageMeta →
               meta_completed imageMeta = false.
Proof.
  intros [Hobj _] Hinc imageMeta Hm0.
  destruct (meta_completed imageMeta) eqn:Hdone; [|done].
  destruct (Hobj imageId imageMeta Hm0 Hdone) as [Hm _].
  by rewrite (Hinc imageMeta Hm) in Hdone.
Qed.

(** Keeping what [w0] had, across a step that touches one image not
    completed in [w0] and at most the index entry of one digest that [w0]
    does not hold with a usable identifier. *)
Lemma keeps_step (w w' : World) (touched : string) (digest : option string) :
  keeps w0 w →
  (∀ imageMeta, kv_meta w0 !! touched = Some imageMeta →
                meta_completed imageMeta = false) →
  (∀ imageId, imageId ≠ touched →
     kv_meta w' !! imageId = kv_meta w !! imageId
     ∧ ∀ i, kv_chunk w' !! (imageId, i) = kv_chunk w !! (imageId, i)) →
  (∀ d, digest ≠ Some d → kv_md5 w' !! d = kv_md5 w !! d) →
  (∀ d other, digest = Some d → kv_md5 w0 !! d = Some other →
              truthy other = false) →
  keeps w0 w'.
Proof.
  intros [Hobj Hidx] Hinc0 Hothers Hmd5 Hdigest. split.
  - intros imageId imageMeta Hm0 Hdone.
    assert (Hne : imageId ≠ touched).
    { intros ->. by rewrite (Hinc0 imageMeta Hm0) in Hdone. }
    destruct (Hothers imageId Hne) as [-> Hchunks].
    destruct (Hobj imageId imageMeta Hm0 Hdone) as [Hm Hc].
    split; [done|]. intros i. by rewrite Hchunks, Hc.
  - intros d imageId Hd0 Htruthy. rewrite Hmd5; [by apply Hidx|].
    intros ->. by rewrite (Hdigest d imageId eq_refl Hd0) in Htruthy.
Qed.

Lemma starting_commit imageId isNew w :
  starting imageId isNew w →
  writing imageId (clock w) 0
    (foldl apply_mutation w
       (first_commit chunkSize file imageId md5Hash isNew (clock w))).
Proof.
  intros [Hs Hk Hissued Hmiss Hinc Hidx].
  pose proof (storing_commit randomUUID chunkSize randomUUID_inj file imageId
                md5Hash isNew (clock w) w
                (conj (sound_wf w Hs) (conj Hissued Hmiss)))
    as (Hwf' & Hissued' & Hmiss').
  destruct (committed_fields chunkSize file imageId md5Hash isNew w)
    as (Hmeta & Hmd5 & Hchunk & Hcache & _).
  unfold committed in Hmeta, Hmd5, Hchunk, Hcache.
  set (w' := foldl apply_mutation w
               (first_commit chunkSize file imageId md5Hash isNew (clock w))) in *.
  assert (Hothers : ∀ other, other ≠ imageId →
            kv_meta w' !! other = kv_meta w !! other
            ∧ ∀ i, kv_chunk w' !! (other, i) = kv_chunk w !! (other, i)).
  { intros other Hne. rewrite Hmeta, Hchunk. by rewrite lookup_insert_ne. }
  split; [|  |done|done| | |].
  - apply (sound_step w w' imageId); [done|done|done|done|done| | |].
    + rewrite Hmeta, lookup_insert_eq. by intros imageMeta [= <-].
    + intros d other imageMeta. rewrite Hmeta, Hmd5.
      destruct (decide (other = imageId)) as [->|Hne].
      * rewrite lookup_insert_eq. intros Hd [= <-]. cbn.
        destruct isNew.
        -- destruct Hidx as [Hnone _].
           destruct (decide (md5Hash = d)) as [->|Hd']; [done|].
           rewrite lookup_insert_ne in Hd by done. by destruct (Hnone d).
        -- by apply (sound_index_inj w Hs md5Hash d imageId).
      * rewrite (lookup_insert_ne (kv_meta w)) by done. intros Hd Hm.
        apply (sound_index w Hs d other imageMeta); [|done].
        destruct isNew; [|done].
        rewrite lookup_insert in Hd. case_decide; [|done]. congruence.
    + intros d1 d2 other. rewrite Hmd5. destruct isNew; [|apply (sound_index_inj w Hs)].
      destruct Hidx as [Hnone _]. rewrite !lookup_insert.
      repeat case_decide; subst; try done.
      * intros [= <-] Hd2. by destruct (Hnone d2).
      * intros Hd1 [= <-]. by destruct (Hnone d1).
      * apply (sound_index_inj w Hs).
  - apply (keeps_step w w' imageId (if isNew then Some md5Hash else None));
      [done|by apply (keeps_not_completed imageId w)|done| |].
    + intros d Hd. rewrite Hmd5. destruct isNew; [|done].
      rewrite lookup_insert_ne; [done|]. by intros <-.
    + intros d other Hd Hd0. destruct isNew; [|done]. injection Hd as <-.
      destruct Hidx as [_ Hfalsy], Hk as [_ Hkidx].
      destruct (truthy other) eqn:Htruthy; [|done].
      by rewrite (Hfalsy other (Hkidx md5Hash other Hd0 Htruthy)) in Htruthy.
  - rewrite Hmeta. apply lookup_insert_eq.
  - rewrite Hmd5. destruct isNew; [apply lookup_insert_eq|done].
  - intros i Hi. lia.
Qed.

Lemma writing_chunk imageId now k w :
  writing imageId now k w →
  writing imageId now (S k)
    (with_kv_chunk <[(imageId, k) := chunkAt chunkSize (file_bytes file) k]> w).
Proof.
  intros [Hs Hk Hissued Hmiss Hmeta Hidx Hchunks].
  assert (Hothers : ∀ other, other ≠ imageId →
            kv_meta w !! other = kv_meta w !! other
            ∧ ∀ i, (<[(imageId, k) := chunkAt chunkSize (file_bytes file) k]>
                      (kv_chunk w)) !! (other, i) = kv_chunk w !! (other, i)).
  { intros other Hne. split; [done|]. intros i. rewrite lookup_insert_ne; [done|].
    by intros [= ->]. }
  split; [| |done|done|done|done|].
  - apply (sound_step w _ imageId); [done|apply (sound_wf w Hs)|done|done|done| | |].
    + cbn. rewrite Hmeta. by intros imageMeta [= <-].
    + apply (sound_index w Hs).
    + apply (sound_index_inj w Hs).
  - apply (keeps_step w _ imageId None); [done| |done|done|done].
    apply (keeps_not_completed imageId w); [done|].
    rewrite Hmeta. by intros imageMeta [= <-].
  - intros i Hi. cbn. rewrite lookup_insert. case_decide as Heq.
    + by injection Heq as <-.
    + apply Hchunks. assert (i ≠ k) by congruence. lia.
Qed.

Lemma writing_final imageId now w :
  writing imageId now (ceil_div (length (file_bytes file)) chunkSize) w →
  sound (with_kv_meta
           <[imageId := mark_completed (new_meta chunkSize file md5Hash now)]> w)
  ∧ keeps w0
      (with_kv_meta
         <[imageId := mark_completed (new_meta chunkSize file md5Hash now)]> w).
Proof.
  intros [Hs Hk Hissued Hmiss Hmeta Hidx Hchunks].
  assert (Hothers : ∀ other, other ≠ imageId →
            (<[imageId := mark_completed (new_meta chunkSize file md5Hash now)]>
               (kv_meta w)) !! other = kv_meta w !! other
            ∧ ∀ i, kv_chunk w !! (other, i) = kv_chunk w !! (other, i)).
  { intros other Hne. by rewrite lookup_insert_ne. }
  split.
  - apply (sound_step w _ imageId); [done| |done|done|done| | |].
    + apply (storing_completed randomUUID imageId _ w).
      split_and!; [apply (sound_wf w Hs)|done|done].
    + cbn. rewrite lookup_insert_eq. intros imageMeta [= <-] _.
      exists (file_bytes file). split_and!; [done|done|done|].
      cbn. unfold splitChunks. apply stored_chunks_present.
      intros i Hi. apply Hchunks. lia.
    + intros d other imageMeta. cbn. intros Hd.
      destruct (decide (other = imageId)) as [->|Hne].
      * rewrite lookup_insert_eq. intros [= <-]. cbn.
        by apply (sound_index_inj w Hs md5Hash d imageId).
      * rewrite lookup_insert_ne by done. by apply (sound_index w Hs).
    + apply (sound_index_inj w Hs).
  - apply (keeps_step w _ imageId None); [done| |done|done|done].
    apply (keeps_not_completed imageId w); [done|].
    rewrite Hmeta. by intros imageMeta [= <-].
Qed.

(** Sound, and keeping what [w0] had. *)
Definition sound_since (w : World) : Prop := sound w ∧ keeps w0 w.

Lemma keeps_same_store (w w' : World) :
  keeps w0 w → kv_meta w' = kv_meta w → kv_chunk w' = kv_chunk w →
  kv_md5 w' = kv_md5 w → keeps w0 w'.
Proof. intros Hk Hmeta Hchunk Hmd5. unfold keeps. by rewrite Hmeta, Hchunk, Hmd5. Qed.

Lemma sound_since_blind : fault_blind sound_since.
Proof. intros w fs [Hs Hk]. split; [by apply sound_blind|done]. Qed.

Lemma triple_storeImage_sound origin imageId isNew :
  triple' (starting imageId isNew)
    (storeImage chunkSize origin file imageId md5Hash isNew)
    (λ _, sound_since) sound_since.
Proof.
  apply (triple_storeImage_stages randomUUID chunkSize origin file imageId md5Hash
           isNew (starting imageId isNew) (writing imageId) sound_since sound_since).
  - apply starting_blind.
  - intros now k. apply writing_blind.
  - by intros w [? ? _ _ _ _].
  - by intros now k w [? ? _ _ _ _ _].
  - intros w. apply starting_commit.
  - intros now k w Hw _. by apply writing_chunk.
  - intros now w. apply writing_final.
Qed.

Lemma overwrite_starting w imageId :
  sound_since w → kv_md5 w !! md5Hash = Some imageId → truthy imageId = true →
  (∀ imageMeta, kv_meta w !! imageId = Some imageMeta →
                meta_completed imageMeta = false) →
  starting imageId false w.
Proof.
  intros [Hs Hk] Hidx Htruthy Hinc. split; [done|done| | |done|done].
  - destruct (sound_wf w Hs) as (_ & Hissued & _). by apply (Hissued md5Hash).
  - destruct (cache w !! imageId) as [image|] eqn:Hc; [|done].
    destruct (sound_cache w Hs imageId image Hc) as (imageMeta & _ & Hm & Hdone & _).
    by rewrite (Hinc imageMeta Hm) in Hdone.
Qed.

Lemma create_starting w :
  sound_since w →
  (∀ other, kv_md5 w !! md5Hash = Some other → truthy other = false) →
  starting (randomUUID (uuid_next w)) true (drew_uuid w).
Proof.
  intros [Hs Hk] Hfalsy.
  destruct (storing_drew randomUUID randomUUID_inj w (sound_wf w Hs))
    as (Hwf' & Hissued' & Hmiss').
  pose proof (well_formed_fresh randomUUID randomUUID_inj w (sound_wf w Hs)) as Hfresh.
  split; [|done|done|done| |].
  - by apply (sound_same_store w).
  - intros imageMeta. unfold fresh in Hfresh. cbn. by rewrite Hfresh.
  - split; [|done]. intros d Hd.
    destruct (sound_wf w Hs) as (_ & Hissued & _).
    destruct (Hissued d _ Hd) as (k & Hlt & Heq).
    apply randomUUID_inj in Heq. cbn in Hd. lia.
Qed.
End Storing.

Lemma triple_processFile_sound w0 origin file :
  triple' (sound_since w0) (processFile md5Of chunkSize origin file)
    (λ _, sound_since w0) (sound_since w0).
Proof.
  apply (triple_processFile_stages md5Of randomUUID chunkSize origin file
           (sound_since w0) (starting w0 file)).
  - apply sound_since_blind.
  - intros imageId isNew. apply triple_storeImage_sound.
  - intros w imageId. apply overwrite_starting.
  - intros w. apply create_starting.
Qed.

Lemma triple_uploadHandler_sound w0 request :
  triple' (sound_since w0) (uploadHandler md5Of chunkSize request)
    (λ _, sound_since w0) (sound_since w0).
Proof.
  apply triple_uploadHandler_stages. intros origin file.
  apply triple_processFile_sound.
Qed.

Lemma triple_serveImage_sound w0 imageId :
  triple' (sound_since w0) (serveImage imageId)
    (λ _, sound_since w0) (sound_since w0).
Proof.
  apply (triple_serveImage_stages randomUUID imageId (sound_since w0) (sound_since w0)).
  - apply sound_since_blind.
  - apply sound_since_blind.
  - intros w imageMeta chunks fullImage [Hs Hk] Hmeta Hdone Hchunks Hjoin.
    split; [|by apply (keeps_same_store w0 w)].
    split.
    + apply (reading_cached randomUUID imageId imageMeta).
      split_and!; [apply (sound_wf w Hs)|done|done].
    + intros other otherMeta Hm Hd.
      destruct (sound_intact w Hs other otherMeta Hm Hd) as (payload & ? & ? & ? & ?).
      exists payload. split_and!; [done|done|done|].
      by rewrite (stored_chunks_agree w).
    + intros other image. cbn. rewrite lookup_insert. case_decide as Hother.
      * subst other. intros [= <-]. exists imageMeta, chunks.
        split_and!; [done|done| |done]. by rewrite (stored_chunks_agree w).
      * intros Hc.
        destruct (sound_cache w Hs other image Hc) as (m & cs & ? & ? & ? & ?).
        exists m, cs. split_and!; [done|done| |done].
        by rewrite (stored_chunks_agree w).
    + apply (sound_index w Hs).
    + apply (sound_index_inj w Hs).
  - intros w [Hs Hk]. split; [|by apply (keeps_same_store w0 w)].
    apply (sound_same_store w); [done|apply (sound_wf w Hs)|done|done|done|done].
Qed.

(** The server moves from one world to another by handling requests one
    after the other, with timers firing and time passing in between. *)
Inductive evolves : World → World → Prop :=
| evolves_here w : evolves w w
| evolves_upload w0 w request fs :
    evolves w0 w →
    evolves w0 (final (run (uploadHandler md5Of chunkSize request) (with_faults fs w)))
| evolves_serve w0 w imageId fs :
    evolves w0 w →
    evolves w0 (final (run (serveImage imageId) (with_faults fs w)))
| evolves_timer w0 w imageId : evolves w0 w → evolves w0 (fire_timer imageId w)
| evolves_clock w0 w now : evolves w0 w → evolves w0 (with_clock now w).

Lemma triple_lands {A} (P : World → Prop) (p : Prog A) w :
  triple' P p (λ _, P) P → P w → P (final (run p w)).
Proof. intros Hp Hw. specialize (Hp w Hw). by destruct (result (run p w)). Qed.

Lemma evolves_sound_since w0 w : sound w0 → evolves w0 w → sound_since w0 w.
Proof.
  intros Hs0. induction 1 as [w|w0 w request fs _ IH|w0 w imageId fs _ IH
                              |w0 w imageId _ IH|w0 w now _ IH].
  - split; [done|apply keeps_refl].
  - apply triple_lands; [apply triple_uploadHandler_sound|].
    by apply sound_since_blind, IH.
  - apply triple_lands; [apply triple_serveImage_sound|].
    by apply sound_since_blind, IH.
  - destruct (IH Hs0) as [Hs Hk]. split; [|by apply (keeps_same_store w0 w)].
    destruct Hs as [Hwf Hintact Hcached Hindex Hinj]. split; [| | |done|done].
    + destruct Hwf as (Hmeta & Hmd5 & Hco). split_and!; [done|done|].
      intros other. cbn. rewrite lookup_delete. case_decide; [by intros [? ?]|apply Hco].
    + intros other otherMeta Hm Hd.
      destruct (Hintact other otherMeta Hm Hd) as (payload & ? & ? & ? & ?).
      exists payload. split_and!; [done|done|done|].
      by rewrite (stored_chunks_agree w).
    + intros other image. cbn. rewrite lookup_delete. case_decide; [done|].
      intros Hc. destruct (Hcached other image Hc) as (m & cs & ? & ? & ? & ?).
      exists m, cs. split_and!; [done|done| |done].
      by rewrite (stored_chunks_agree w).
  - destruct (IH Hs0) as [Hs Hk]. split; [|by apply (keeps_same_store w0 w)].
    apply (sound_same_store w); [done|apply (sound_wf w Hs)|done|done|done|done].
Qed.

Lemma sound_initial now : sound (initial_world now).
Proof.
  split.
  - apply well_formed_initial.
  - intros imageId imageMeta Hm. cbn in Hm. by rewrite lookup_empty in Hm.
  - intros imageId image Hc. cbn in Hc. by rewrite lookup_empty in Hc.
  - intros d imageId imageMeta Hd. cbn in Hd. by rewrite lookup_empty in Hd.
  - intros d1 d2 imageId Hd. cbn in Hd. by rewrite lookup_empty in Hd.
Qed.

Lemma reachable_evolves w :
  reachable md5Of randomUUID chunkSize w → ∃ now, evolves (initial_world now) w.
Proof.
  induction 1 as [now|w request fs _ [now IH]|w imageId fs _ [now IH]
                  |w imageId _ [now IH]|w now' _ [now IH]].
  - exists now. constructor.
  - exists now. by constructor.
  - exists now. by constructor.
  - exists now. by constructor.
  - exists now. by constructor.
Qed.

Lemma reachable_sound w : reachable md5Of randomUUID chunkSize w → sound w.
Proof.
  intros Hw. destruct (reachable_evolves w Hw) as [now Hev].
  by destruct (evolves_sound_since _ _ (sound_initial now) Hev).
Qed.

(** A read of a completed image on a sound store that answers. *)
Lemma sound_serve w imageId imageMeta :
  1 ≤ chunkSize → sound w → quiet w →
  kv_meta w !! imageId = Some imageMeta → meta_completed imageMeta = true →
  ∃ image,
    result (run (serveImage imageId) w) = inl (served imageMeta image)
    ∧ length image = meta_size imageMeta
    ∧ md5Of image = meta_md5 imageMeta
    ∧ stored_chunks w imageId 0 (meta_chunks imageMeta)
      = Some (splitChunks chunkSize image).
Proof.
  intros Hpos Hs Hq Hmeta Hdone.
  destruct (sound_intact w Hs imageId imageMeta Hmeta Hdone)
    as (payload & Hsize & Hcount & Hmd5 & Hchunks).
  pose proof (joinChunks_splitChunks chunkSize payload Hpos) as Hjoin.
  exists payload. split_and!; [|done|done|done].
  destruct (cache w !! imageId) as [image|] eqn:Hcache.
  - destruct (sound_cache w Hs imageId image Hcache)
      as (imageMeta' & chunks & Hmeta' & _ & Hchunks' & Hjoin').
    rewrite Hmeta in Hmeta'. injection Hmeta' as <-.
    rewrite Hchunks in Hchunks'. injection Hchunks' as <-.
    rewrite Hsize, Hjoin in Hjoin'. injection Hjoin' as <-.
    rewrite (run_serveImage randomUUID imageId w) by done.
    by rewrite result_serve_run, Hcache, Hmeta.
  - destruct (serve_from_store randomUUID imageId imageMeta
                (splitChunks chunkSize payload) payload w) as (-> & _);
      [done|done|done|done|done| |done].
    by rewrite Hsize.
Qed.

(** X9. Requests handled one after the other never change a completed image:
    from a world the server can be in, whatever uploads and reads follow,
    whatever the store answers to them, whichever timers fire, a completed
    image keeps its metadata record and its chunks, and an index entry that
    holds a non-empty identifier keeps it. *)
Theorem completed_images_never_change (w0 w : World) :
  reachable md5Of randomUUID chunkSize w0 → evolves w0 w →
  (∀ imageId imageMeta,
     kv_meta w0 !! imageId = Some imageMeta → meta_completed imageMeta = true →
     kv_meta w !! imageId = Some imageMeta
     ∧ ∀ i, kv_chunk w !! (imageId, i) = kv_chunk w0 !! (imageId, i))
  ∧ (∀ md5Hash imageId,
       kv_md5 w0 !! md5Hash = Some imageId → truthy imageId = true →
       kv_md5 w !! md5Hash = Some imageId).
Proof.
  intros Hw0 Hev.
  by destruct (evolves_sound_since w0 w (reachable_sound w0 Hw0) Hev) as [_ Hk].
Qed.

(** X10. In a world the server can be in by handling requests one after the
    other, a completed image is always served when the store answers: the
    read gives 200 under the recorded MIME type, with as many bytes as the
    record says and whose digest is the recorded one; the chunks in the
    store are the split of exactly these bytes. *)
Theorem completed_image_is_served (w : World) (imageId : string)
    (imageMeta : ImageMeta) :
  1 ≤ chunkSize → reachable md5Of randomUUID chunkSize w → quiet w →
  kv_meta w !! imageId = Some imageMeta → meta_completed imageMeta = true →
  ∃ image,
    result (run (serveImage imageId) w)
    = inl (mkResponse 200 (Some (meta_type imageMeta)) (BodyBytes image))
    ∧ length image = meta_size imageMeta
    ∧ md5Of image = meta_md5 imageMeta
    ∧ stored_chunks w imageId 0 (meta_chunks imageMeta)
      = Some (splitChunks chunkSize image).
Proof.
  intros Hpos Hw Hq Hmeta Hdone.
  by apply sound_serve; [|apply reachable_sound| | |].
Qed.

(** X11. The cache does not change what a read answers: when the cache holds an
    image, in a world the server can be in by handling requests one after
    the other, the read answers with the cached bytes, and once the entry
    has been evicted the read answers the same from the store. *)
Theorem cache_is_transparent (w : World) (imageId : string) (image : bytes) :
  reachable md5Of randomUUID chunkSize w → quiet w →
  cache w !! imageId = Some image →
  ∃ imageMeta,
    kv_meta w !! imageId = Some imageMeta
    ∧ result (run (serveImage imageId) w)
      = inl (mkResponse 200 (Some (meta_type imageMeta)) (BodyBytes image))
    ∧ result (run (serveImage imageId) (fire_timer imageId w))
      = inl (mkResponse 200 (Some (meta_type imageMeta)) (BodyBytes image)).
Proof.
  intros Hw Hq Hcache. pose proof (reachable_sound w Hw) as Hs.
  destruct (sound_cache w Hs imageId image Hcache)
    as (imageMeta & chunks & Hmeta & Hdone & Hchunks & Hjoin).
  exists imageMeta. split_and!; [done| |].
  - rewrite (run_serveImage randomUUID imageId w) by done.
    by rewrite result_serve_run, Hcache, Hmeta.
  - destruct (serve_from_store randomUUID imageId imageMeta chunks image
                (fire_timer imageId w)) as (-> & _); [done| |done|done| |done|done].
    + cbn. apply lookup_delete_eq.
    + by rewrite (stored_chunks_agree w).
Qed.

(** X12. Whatever an upload reports on a store that answers (a new image, an
    overwritten one or an existing one) the identifier in the reported URL
    is that of a completed image in the store, indexed under the digest of
    the uploaded bytes and recorded with that digest, which is served with
    200 under the recorded type, with as many bytes as its record says and
    whose digest is the digest of the uploaded bytes. *)
Theorem upload_is_retrievable (origin : string) (file : File) (w : World) :
  1 ≤ chunkSize → reachable md5Of randomUUID chunkSize w → quiet w →
  let upload := run (processFile md5Of chunkSize origin file) w in
  let fileExtension := fileExtensionOf (file_name file) in
  ∃ entry imageId imageMeta image,
    result upload = inl entry
    ∧ (res_url entry = Some (origin +:+ "/image/" +:+ imageId)
       ∨ res_url entry
         = Some (origin +:+ "/image/" +:+ imageId
                   +:+ (if truthy fileExtension then "." +:+ fileExtension else "")))
    ∧ kv_md5 (final upload) !! md5Of (file_bytes file) = Some imageId
    ∧ kv_meta (final upload) !! imageId = Some imageMeta
    ∧ meta_completed imageMeta = true
    ∧ meta_md5 imageMeta = md5Of (file_bytes file)
    ∧ result (run (serveImage imageId) (final upload))
      = inl (mkResponse 200 (Some (meta_type imageMeta)) (BodyBytes image))
    ∧ length image = meta_size imageMeta
    ∧ md5Of image = md5Of (file_bytes file).
Proof.
  intros Hpos Hw Hq upload fileExtension. pose proof (reachable_sound w Hw) as Hs.
  assert (Hs' : sound (final upload)).
  { pose proof (triple_processFile_sound w origin file w
                  (conj Hs (keeps_refl w))) as Hpost.
    fold upload in Hpost. by destruct (result upload); destruct Hpost. }
  set (md5Hash := md5Of (file_bytes file)) in *.
  assert (Hstored : ∀ imageId isNew w1,
    quiet w1 → kv_md5 w1 = kv_md5 w →
    upload = mkRun (inl (stored_result origin file imageId isNew))
               (stored chunkSize file imageId md5Hash isNew w1)
               (log upload) →
    (isNew = false → kv_md5 w !! md5Hash = Some imageId) →
    ∃ entry imageId imageMeta image,
      result upload = inl entry
      ∧ (res_url entry = Some (origin +:+ "/image/" +:+ imageId)
         ∨ res_url entry
           = Some (origin +:+ "/image/" +:+ imageId
                     +:+ (if truthy fileExtension then "." +:+ fileExtension else "")))
      ∧ kv_md5 (final upload) !! md5Hash = Some imageId
      ∧ kv_meta (final upload) !! imageId = Some imageMeta
      ∧ meta_completed imageMeta = true
      ∧ meta_md5 imageMeta = md5Hash
      ∧ result (run (serveImage imageId) (final upload))
        = inl (mkResponse 200 (Some (meta_type imageMeta)) (BodyBytes image))
      ∧ length image = meta_size imageMeta
      ∧ md5Of image = md5Hash).
  { intros imageId isNew w1 Hq1 Hsame Hrun Hold. rewrite Hrun in Hs' |- *.
    cbn [result final] in *.
    destruct (stored_fields chunkSize file imageId md5Hash isNew w1)
      as (Hmeta & Hmd5 & _ & _ & Hfaults & _).
    destruct (sound_serve (stored chunkSize file imageId md5Hash isNew w1) imageId
                (mark_completed (new_meta chunkSize file md5Hash (clock w1))))
      as (image & Hres & Hlen & Hdigest & _);
      [done|done|by unfold quiet; rewrite Hfaults
      |by rewrite Hmeta, lookup_insert_eq|done|].
    exists (stored_result origin file imageId isNew), imageId,
      (mark_completed (new_meta chunkSize file md5Hash (clock w1))), image.
    split_and!; [done|by right| |by rewrite Hmeta, lookup_insert_eq
                |done|done|done|done|done].
    rewrite Hmd5, Hsame. destruct isNew; [apply lookup_insert_eq|by apply Hold]. }
  pose proof (run_processFile md5Of randomUUID chunkSize origin file w Hq) as Hrun.
  cbn zeta in Hrun. fold md5Hash upload in Hrun.
  unfold decide_upload in Hrun.
  destruct (kv_md5 w !! md5Hash) as [existingImageId|] eqn:Hidx.
  - destruct (truthy existingImageId) eqn:Htruthy.
    + destruct (kv_meta w !! existingImageId) as [existingMeta|] eqn:Hmeta.
      * destruct (meta_completed existingMeta) eqn:Hdone.
        -- rewrite Hrun in Hs' |- *. cbn [result final] in *.
           destruct (sound_serve w existingImageId existingMeta)
             as (image & Hres & Hlen & Hdigest & _); [done|done|done|done|done|].
           pose proof (sound_index w Hs md5Hash existingImageId existingMeta
                         Hidx Hmeta) as Hrecorded.
           exists (cached_result origin file existingImageId), existingImageId,
             existingMeta, image.
           split_and!; [done|by left|done|done|done|done|done|done|].
           by rewrite Hdigest.
        -- apply (Hstored existingImageId false w); [done|done| |done].
           by rewrite Hrun.
      * apply (Hstored existingImageId false w); [done|done| |done].
        by rewrite Hrun.
    + apply (Hstored (randomUUID (uuid_next w)) true (drew_uuid w)); [done|done| |done].
      by rewrite Hrun.
  - apply (Hstored (randomUUID (uuid_next w)) true (drew_uuid w)); [done|done| |done].
    by rewrite Hrun.
Qed.

(** What the first of two uploads of the same bytes leaves: the digest is
    indexed under the identifier it reports, and an upload of these bytes
    would now find a completed image there. *)
Lemma first_upload_indexed origin file w :
  quiet w → randomUUID (uuid_next w) ≠ "" →
  let r := run (processFile md5Of chunkSize origin file) w in
  let fileExtension := fileExtensionOf (file_name file) in
  ∃ imageId entry,
    result r = inl entry
    ∧ (res_url entry
       = Some (origin +:+ "/image/" +:+ imageId
                 +:+ (if truthy fileExtension then "." +:+ fileExtension else ""))
       ∨ res_url entry = Some (origin +:+ "/image/" +:+ imageId))
    ∧ decide_upload (final r) (md5Of (file_bytes file)) = Reuse imageId.
Proof.
  intros Hq Hne r fileExtension. subst r fileExtension.
  rewrite (run_processFile md5Of randomUUID chunkSize origin file w) by done.
  cbn zeta. set (md5Hash := md5Of (file_bytes file)).
  destruct (decide_upload w md5Hash) as [imageId|imageId|] eqn:Hdec; cbn [final result].
  - exists imageId, (cached_result origin file imageId).
    split_and!; [done|by right|done].
  - assert (Hidx : kv_md5 w !! md5Hash = Some imageId ∧ truthy imageId = true).
    { revert Hdec. unfold decide_upload.
      destruct (kv_md5 w !! md5Hash) as [i|]; [|done].
      destruct (truthy i) eqn:Htruthy; [|done].
      destruct (kv_meta w !! i) as [m|]; [destruct (meta_completed m)|];
        try done; by intros [= <-]. }
    destruct Hidx as [Hidx Htruthy].
    exists imageId, (stored_result origin file imageId false).
    split_and!; [done|by left|].
    by apply (decide_upload_stored md5Of chunkSize file imageId false w).
  - exists (randomUUID (uuid_next w)),
      (stored_result origin file (randomUUID (uuid_next w)) true).
    split_and!; [done|by left|].
    apply (decide_upload_stored md5Of chunkSize file _ true (drew_uuid w));
      [by apply truthy_nonempty|done].
Qed.

(** C3. After an upload of some bytes has run to its end on a store that
    answers, a later upload of the same bytes, under whatever name and
    from whatever origin, whether it comes at once or after any number of
    other uploads, reads, store failures and timer expiries, handled one
    after the other, reports the identifier the first one reported (its URL
    is the origin, [/image/] and that identifier), has status "cached",
    writes nothing to the store and leaves the world as it found it; the
    digest is still indexed under that identifier and the metadata record
    of the image is the one the first upload left. *)
Theorem C3_dedup_idempotent (origin1 origin2 : string) (file1 file2 : File)
    (w w2 : World) :
  reachable md5Of randomUUID chunkSize w →
  quiet w → randomUUID (uuid_next w) ≠ "" →
  file_bytes file2 = file_bytes file1 →
  let r1 := run (processFile md5Of chunkSize origin1 file1) w in
  let r2 := run (processFile md5Of chunkSize origin2 file2) w2 in
  let fileExtension := fileExtensionOf (file_name file1) in
  evolves (final r1) w2 → quiet w2 →
  ∃ imageId entry1,
    result r1 = inl entry1
    ∧ (res_url entry1
       = Some (origin1 +:+ "/image/" +:+ imageId
                 +:+ (if truthy fileExtension then "." +:+ fileExtension else ""))
       ∨ res_url entry1 = Some (origin1 +:+ "/image/" +:+ imageId))
    ∧ kv_md5 (final r1) !! md5Of (file_bytes file1) = Some imageId
    ∧ kv_md5 w2 !! md5Of (file_bytes file1) = Some imageId
    ∧ kv_meta w2 !! imageId = kv_meta (final r1) !! imageId
    ∧ result r2 = inl (mkResult (file_name file2)
                         (Some (origin2 +:+ "/image/" +:+ imageId)) None "cached")
    ∧ writes r2 = []
    ∧ final r2 = w2.
Proof.
  intros Hw Hq Hne Hbytes r1 r2 fileExtension Hev Hq2. subst r2 fileExtension.
  destruct (first_upload_indexed origin1 file1 w Hq Hne)
    as (imageId & entry1 & Hres & Hurl & Hdec).
  fold r1 in Hres, Hdec.
  set (md5Hash := md5Of (file_bytes file1)) in *.
  assert (Hs1 : sound (final r1)).
  { pose proof (triple_processFile_sound w origin1 file1 w
                  (conj (reachable_sound w Hw) (keeps_refl w))) as Hpost.
    fold r1 in Hpost. by destruct (result r1); destruct Hpost. }
  destruct (evolves_sound_since (final r1) w2 Hs1 Hev) as [_ [Hkmeta Hkidx]].
  assert (Hleft : ∃ imageMeta,
    kv_md5 (final r1) !! md5Hash = Some imageId ∧ truthy imageId = true
    ∧ kv_meta (final r1) !! imageId = Some imageMeta
    ∧ meta_completed imageMeta = true).
  { revert Hdec. unfold decide_upload.
    destruct (kv_md5 (final r1) !! md5Hash) as [i|]; [|done].
    destruct (truthy i) eqn:Htruthy; [|done].
    destruct (kv_meta (final r1) !! i) as [m|] eqn:Hm; [|done].
    destruct (meta_completed m) eqn:Hdone; [|done].
    intros [= <-]. by exists m. }
  destruct Hleft as (imageMeta & Hidx & Htruthy & Hmeta & Hdone).
  destruct (Hkmeta imageId imageMeta Hmeta Hdone) as [Hmeta2 _].
  pose proof (Hkidx md5Hash imageId Hidx Htruthy) as Hidx2.
  exists imageId, entry1.
  rewrite (run_processFile md5Of randomUUID chunkSize origin2 file2 w2) by done.
  cbn zeta. rewrite Hbytes. fold md5Hash. unfold decide_upload.
  rewrite Hidx2, Htruthy, Hmeta2, Hdone.
  split_and!; [done|done|done|done|by rewrite Hmeta|done|done|done].
Qed.
End Sound.

(** ** The whole server on concrete inputs *)

Lemma demo_uuid_inj : Inj (=) (=) demo_uuid.
Proof.
  intros m n Heq. unfold demo_uuid in Heq.
  apply append_cancel_l in Heq. by apply pretty_nat_inj in Heq.
Qed.

(** One request that uploads [demo_file] to the server at start-up, and the
    world after a read of the stored image. *)
Definition demo_request : Request := mkRequest demo_origin (Some [FormFile demo_file]).
Definition demo_served : World :=
  final (exec demo_uuid (uploadHandler demo_md5 2 demo_request)
           (with_faults [] (initial_world 0))).
Definition demo_read : World :=
  final (exec demo_uuid (serveImage "id-0") (with_faults [] demo_served)).
Definition demo_meta : ImageMeta :=
  mkImageMeta "a.png" "image/png" 5 3 0 "abcde" true.

Lemma demo_served_reachable : reachable demo_md5 demo_uuid 2 demo_served.
Proof. apply reach_upload, reach_start. Qed.

Lemma demo_read_reachable : reachable demo_md5 demo_uuid 2 demo_read.
Proof. apply reach_serve, demo_served_reachable. Qed.

Lemma upload_then_read_witness :
  ∃ imageId,
    res_url (stored_result demo_origin demo_file "id-0" true)
    = Some (imageUrlOf demo_origin imageId (file_name demo_file))
    ∧ let r := exec demo_uuid (serveImage imageId) demo_stored in
      result r = inl (mkResponse 200 (Some (file_type demo_file))
                        (BodyBytes (file_bytes demo_file)))
      ∧ chunk_reads r
        = (imageId,.) <$> seq 0 (ceil_div (length (file_bytes demo_file)) 2)
      ∧ cache (final r) !! imageId = Some (file_bytes demo_file)
      ∧ imageId ∈ timers (final r).
Proof.
  apply (upload_then_read demo_md5 demo_uuid 2 demo_origin demo_file
           (initial_world 0) (stored_result demo_origin demo_file "id-0" true)).
  - lia.
  - reflexivity.
  - apply coherent_initial.
  - reflexivity.
  - vm_compute. reflexivity.
  - vm_compute. discriminate.
Defined.

Lemma serve_again_witness :
  let response := mkResponse 200 (Some "image/png") (BodyBytes (file_bytes demo_file)) in
  let w1 := final (exec demo_uuid (serveImage "id-0") demo_served) in
  result (exec demo_uuid (serveImage "id-0") w1) = inl response
  ∧ chunk_reads (exec demo_uuid (serveImage "id-0") w1) = []
  ∧ final (exec demo_uuid (serveImage "id-0") w1) = w1
  ∧ (cache demo_served !! "id-0" = None →
     result (exec demo_uuid (serveImage "id-0") (fire_timer "id-0" w1)) = inl response).
Proof.
  apply (serve_again demo_uuid "id-0" demo_served
           (mkResponse 200 (Some "image/png") (BodyBytes (file_bytes demo_file)))).
  - vm_compute. reflexivity.
  - vm_compute. reflexivity.
  - reflexivity.
Defined.

Lemma completed_images_never_change_witness :
  let w := final (exec demo_uuid (uploadHandler demo_md5 2 batch_request)
                    (with_faults [None; None; Some "storage unavailable"] demo_read)) in
  (∀ imageId imageMeta,
     kv_meta demo_served !! imageId = Some imageMeta →
     meta_completed imageMeta = true →
     kv_meta w !! imageId = Some imageMeta
     ∧ ∀ i, kv_chunk w !! (imageId, i) = kv_chunk demo_served !! (imageId, i))
  ∧ (∀ md5Hash imageId,
       kv_md5 demo_served !! md5Hash = Some imageId → truthy imageId = true →
       kv_md5 w !! md5Hash = Some imageId).
Proof.
  apply (completed_images_never_change demo_md5 demo_uuid 2 demo_uuid_inj demo_served).
  - apply demo_served_reachable.
  - apply evolves_upload, evolves_serve, evolves_here.
Defined.

Lemma completed_image_is_served_witness :
  kv_meta demo_served !! "id-0" = Some demo_meta
  ∧ ∃ image,
      result (exec demo_uuid (serveImage "id-0") demo_served)
      = inl (mkResponse 200 (Some "image/png") (BodyBytes image))
      ∧ length image = 5
      ∧ demo_md5 image = "abcde"
      ∧ stored_chunks demo_served "id-0" 0 3 = Some (splitChunks 2 image).
Proof.
  assert (Hmeta : kv_meta demo_served !! "id-0" = Some demo_meta)
    by (vm_compute; reflexivity).
  split; [exact Hmeta|].
  apply (completed_image_is_served demo_md5 demo_uuid 2 demo_uuid_inj demo_served
           "id-0" demo_meta).
  - lia.
  - apply demo_served_reachable.
  - vm_compute. reflexivity.
  - exact Hmeta.
  - reflexivity.
Defined.

Lemma cache_is_transparent_witness :
  ∃ imageMeta,
    kv_meta demo_read !! "id-0" = Some imageMeta
    ∧ result (exec demo_uuid (serveImage "id-0") demo_read)
      = inl (mkResponse 200 (Some (meta_type imageMeta))
               (BodyBytes (file_bytes demo_file)))
    ∧ result (exec demo_uuid (serveImage "id-0") (fire_timer "id-0" demo_read))
      = inl (mkResponse 200 (Some (meta_type imageMeta))
               (BodyBytes (file_bytes demo_file))).
Proof.
  apply (cache_is_transparent demo_md5 demo_uuid 2 demo_uuid_inj demo_read "id-0"
           (file_bytes demo_file)).
  - apply demo_read_reachable.
  - vm_compute. reflexivity.
  - vm_compute. reflexivity.
Defined.

Lemma upload_is_retrievable_witness :
  let upload :=
    exec demo_uuid
      (processFile demo_md5 2 "http://other"
         (mkFile "b.jpg" "image/jpeg" (file_bytes demo_file))) demo_served in
  ∃ entry imageId imageMeta image,
    result upload = inl entry
    ∧ (res_url entry = Some ("http://other" +:+ "/image/" +:+ imageId)
       ∨ res_url entry = Some ("http://other" +:+ "/image/" +:+ imageId +:+ ".jpg"))
    ∧ kv_md5 (final upload) !! demo_md5 (file_bytes demo_file) = Some imageId
    ∧ kv_meta (final upload) !! imageId = Some imageMeta
    ∧ meta_completed imageMeta = true
    ∧ meta_md5 imageMeta = demo_md5 (file_bytes demo_file)
    ∧ result (exec demo_uuid (serveImage imageId) (final upload))
      = inl (mkResponse 200 (Some (meta_type imageMeta)) (BodyBytes image))
    ∧ length image = meta_size imageMeta
    ∧ demo_md5 image = demo_md5 (file_bytes demo_file).
Proof.
  apply (upload_is_retrievable demo_md5 demo_uuid 2 demo_uuid_inj "http://other"
           (mkFile "b.jpg" "image/jpeg" (file_bytes demo_file)) demo_served).
  - lia.
  - apply demo_served_reachable.
  - vm_compute. reflexivity.
Defined.

(** ** handler: paths of several segments *)

Lemma append_assoc (s t u : string) : (s +:+ t) +:+ u = s +:+ (t +:+ u).
Proof.
  induction s as [|c s IH]; [done|].
  change (String c s +:+ ?r) with (String c (s +:+ r)).
  change (String c ?l +:+ u) with (String c (l +:+ u)). by rewrite IH.
Qed.

Lemma split_on_nonempty sep s : split_on sep s ≠ [].
Proof.
  destruct s as [|c s]; [done|]. cbn [split_on].
  destruct (Ascii.eqb c sep); [done|]. by destruct (split_on sep s).
Qed.

Lemma split_on_after sep s t :
  ∃ parts, parts ≠ [] ∧ split_on sep (s +:+ String sep t) = parts ++ split_on sep t.
Proof.
  induction s as [|c s (parts & Hne & IH)].
  - exists [""]. split; [done|]. change ("" +:+ ?r) with r. cbn [split_on].
    by rewrite Ascii.eqb_refl.
  - change (String c s +:+ ?r) with (String c (s +:+ r)). cbn [split_on].
    rewrite IH. destruct (Ascii.eqb c sep).
    + by exists ("" :: parts).
    + destruct parts as [|part parts]; [done|]. by exists (String c part :: parts).
Qed.

Section HandlerEdge.
Variable calculateMd5' : bytes → string.
Variable chunkSize : nat.
Variable serveIndex : Prog Response.

(** X4. [handler] identifies the image by the last segment of the path
    alone. For a path [/image/], anything, a slash, and a last segment made
    of a target and nothing more, or of a target, a dot and an extension, it
    calls [serveImage] for the target and for no other identifier, whatever
    stands between [/image/] and the last slash; the target is not empty
    and has no dot or slash, the extension has no slash. So a path
    [/image/<id>.<a>/<target>] is answered for the target, and not for the
    identifier that follows [/image/] when the two differ. The path is
    [url.pathname] as the URL parser of line 229 gives it. *)
Theorem handler_uses_last_segment (request : HttpRequest)
    (before target suffix : string) :
  target ≠ "" → has_char "." target = false → has_char "/" target = false →
  has_char "/" suffix = false →
  (suffix = "" ∨ ∃ extension, suffix = "." +:+ extension) →
  http_pathname request = "/image/" +:+ before +:+ "/" +:+ target +:+ suffix →
  handler calculateMd5' chunkSize serveIndex request = serveImage target
  ∧ ∀ other, other ≠ target →
      handler calculateMd5' chunkSize serveIndex request ≠ serveImage other.
Proof.
  intros Hne Hdot Hslash Hsuffix Hshape Hpath.
  assert (Hserves :
    handler calculateMd5' chunkSize serveIndex request = serveImage target).
  { rewrite (handler_image_path calculateMd5' chunkSize serveIndex request
               (before +:+ "/" +:+ target +:+ suffix)) by done.
    unfold imageIdOfPath. rewrite Hpath.
    assert (Hsplit : "/image/" +:+ before +:+ "/" +:+ target +:+ suffix
                     = ("/image/" +:+ before) +:+ String "/" (target +:+ suffix)).
    { change ("/" +:+ ?r) with (String "/" r). by rewrite <- !append_assoc. }
    rewrite Hsplit.
    destruct (split_on_after "/" ("/image/" +:+ before) (target +:+ suffix))
      as (parts & _ & ->).
    rewrite (split_on_plain "/" (target +:+ suffix))
      by (by rewrite has_char_app, Hslash, Hsuffix).
    rewrite last_last.
    assert (Htruthy : truthy (target +:+ suffix) = true) by (by destruct target).
    rewrite Htruthy. f_equal.
    destruct Hshape as [->|[extension ->]].
    - by rewrite append_nil_r, split_on_plain.
    - change ("." +:+ extension) with (String "." extension).
      by rewrite split_on_at_sep. }
  split; [done|]. rewrite Hserves. intros other Hother Heq.
  by apply serveImage_inj in Heq.
Qed.
End HandlerEdge.

Lemma handler_uses_last_segment_witness :
  imageUrlOf demo_origin "id-0" "photo.d/x" = "http://h/image/id-0.d/x"
  ∧ handler demo_md5 2 (Ret routeNotFound)
      (mkHttpRequest "GET" "/image/id-0.d/x" (mkRequest demo_origin None))
    = serveImage "x"
  ∧ ∀ other, other ≠ "x" →
      handler demo_md5 2 (Ret routeNotFound)
        (mkHttpRequest "GET" "/image/id-0.d/x" (mkRequest demo_origin None))
      ≠ serveImage other.
Proof.
  split; [reflexivity|].
  apply (handler_uses_last_segment demo_md5 2 (Ret routeNotFound)
           (mkHttpRequest "GET" "/image/id-0.d/x" (mkRequest demo_origin None))
           "id-0.d" "x" "");
    [discriminate|reflexivity|reflexivity|reflexivity|by left|reflexivity].
Defined.

Lemma C3_dedup_idempotent_witness :
  let r1 := exec demo_uuid demo_upload (initial_world 0) in
  let w2 := final (exec demo_uuid (serveImage "id-0") (with_faults [] (final r1))) in
  let r2 := exec demo_uuid (processFile demo_md5 2 "http://other"
                              (mkFile "b.jpg" "image/jpeg" (file_bytes demo_file)))
              w2 in
  ∃ imageId entry1,
    result r1 = inl entry1
    ∧ (res_url entry1 = Some (demo_origin +:+ "/image/" +:+ imageId +:+ ".png")
       ∨ res_url entry1 = Some (demo_origin +:+ "/image/" +:+ imageId))
    ∧ kv_md5 (final r1) !! demo_md5 (file_bytes demo_file) = Some imageId
    ∧ kv_md5 w2 !! demo_md5 (file_bytes demo_file) = Some imageId
    ∧ kv_meta w2 !! imageId = kv_meta (final r1) !! imageId
    ∧ result r2 = inl (mkResult "b.jpg" (Some ("http://other" +:+ "/image/" +:+ imageId))
                         None "cached")
    ∧ writes r2 = []
    ∧ final r2 = w2.
Proof.
  apply (C3_dedup_idempotent demo_md5 demo_uuid 2 demo_uuid_inj demo_origin
           "http://other" demo_file
           (mkFile "b.jpg" "image/jpeg" (file_bytes demo_file)) (initial_world 0)).
  - apply reach_start.
  - reflexivity.
  - vm_compute. discriminate.
  - reflexivity.
  - apply evolves_serve, evolves_here.
  - vm_compute. reflexivity.
Defined.
